(** * shadcn-registries: a verification development

    A shallow embedding of the registry mirroring scripts:
    - [shared/fetch.ts]            retrying HTTP fetch ([fetchWithRetry]);
    - [shared/validate]            the item validator ([validateRegistryItem]),
      whose text follows [shared/fetch.ts] in the source tree;
    - [registries/ai-elements/scripts/sync.ts] the shared-library pipeline [sync],
      whose text follows [registries/ai-elements/config.ts] in the source tree
      (the same text is what [scripts/init-registry.ts] generates for a new
      registry);
    - [registries/limeplay/scripts/sync.ts]    the standalone limeplay script;
    - [registries/aceternity/scripts/sync.ts]  the standalone aceternity script;
    - [scripts/sync-all.ts]        the multi-source runner;
    - [scripts/sync-registry.ts]   the runner of one registry;
    - [shared/utils.ts]            [slugify], [truncate], [getRegistryNames].

    Definitions come first, theorems after them. *)

From Stdlib Require Import ZArith String Ascii List Lia Bool DecimalString.
From stdpp Require Import base option list gmap strings.

Set Warnings "-clear-no-such-hyp".

Local Open Scope string_scope.
Local Open Scope Z_scope.
Local Open Scope list_scope.

(** ** JavaScript values as the scripts see them *)

(** A decoded JSON value ([response.json()], [JSON.parse]).  Numbers are
    kept as integers; an object is its list of own properties in insertion
    order, each key occurring once (what [JSON.parse] builds). *)
#[warnings="-register-all"]
Inductive json : Type :=
| JNull
| JBool (b : bool)
| JNum (n : Z)
| JStr (s : string)
| JArr (xs : list json)
| JObj (fields : list (string * json)).

(** The exceptions the modelled code can raise on its own. *)
Inductive js_exn : Type :=
| TypeError.

(** A JavaScript computation either returns or throws. *)
Inductive outcome (A : Type) : Type :=
| Returned (a : A)
| Threw (e : js_exn).
Arguments Returned {A} a.
Arguments Threw {A} e.

Definition obind {A B} (m : outcome A) (k : A -> outcome B) : outcome B :=
  match m with
  | Returned a => k a
  | Threw e => Threw e
  end.

Notation "x <-! m ; k" := (obind m (fun x => k))
  (at level 100, m at next level, right associativity, only parsing).

(** [assoc k fs]: the own property [k] of an object, [None] for [undefined]. *)
Fixpoint assoc (k : string) (fs : list (string * json)) : option json :=
  match fs with
  | [] => None
  | (k', v) :: rest => if String.eqb k k' then Some v else assoc k rest
  end.

(** [o.k] for the property names the scripts read ([$schema], [name],
    [type], [files], [dependencies], [registryDependencies], [path],
    [title], [author], [description], [categories]): none of them is
    inherited by arrays, strings, numbers or booleans, so reading it from
    such a value gives [undefined]; reading from [null] throws. *)
Definition getProp (o : json) (k : string) : outcome (option json) :=
  match o with
  | JNull => Threw TypeError
  | JObj fs => Returned (assoc k fs)
  | _ => Returned None
  end.

(** Property read on a value already known to be a non-null object. *)
Definition field (o : json) (k : string) : option json :=
  match o with
  | JObj fs => assoc k fs
  | _ => None
  end.

(** JavaScript truthiness of a value or [undefined]. *)
Definition truthy (v : option json) : bool :=
  match v with
  | None => false
  | Some JNull => false
  | Some (JBool b) => b
  | Some (JNum n) => negb (n =? 0)
  | Some (JStr s) => negb (String.eqb s "")
  | Some (JArr _) => true
  | Some (JObj _) => true
  end.

(** [typeof v === 'string'] *)
Definition is_string (v : option json) : bool :=
  match v with
  | Some (JStr _) => true
  | _ => false
  end.

(** [typeof v === 'object'] (true of [null] too) *)
Definition typeof_object (v : json) : bool :=
  match v with
  | JNull | JArr _ | JObj _ => true
  | _ => false
  end.

(** [Array.isArray(v)] *)
Definition isArray (v : json) : bool :=
  match v with
  | JArr _ => true
  | _ => false
  end.

Definition show_nat (n : nat) : string :=
  NilZero.string_of_uint (Nat.to_uint n).

Definition show_Z (z : Z) : string :=
  NilZero.string_of_int (Z.to_int z).

Fixpoint join (sep : string) (parts : list string) : string :=
  match parts with
  | [] => ""
  | [p] => p
  | p :: rest => p +:+ sep +:+ join sep rest
  end.

Definition has_key (k : string) (fs : list (string * json)) : bool :=
  match assoc k fs with
  | Some _ => true
  | None => false
  end.

(** [String(v)] / template-literal interpolation of a JSON value.
    An array joins the strings of its elements with a comma, [null]
    elements giving the empty string.  A plain object gives
    ["[object Object]"] through [Object.prototype.toString]; an own
    property called [toString] shadows that method with a value that is not
    callable, and conversion ends in a [TypeError]. *)
Fixpoint toStringJS (v : json) : outcome string :=
  match v with
  | JNull => Returned "null"
  | JBool true => Returned "true"
  | JBool false => Returned "false"
  | JNum n => Returned (show_Z n)
  | JStr s => Returned s
  | JArr xs =>
      let fix elems (l : list json) : outcome (list string) :=
        match l with
        | [] => Returned []
        | x :: rest =>
            s <-! (match x with JNull => Returned "" | _ => toStringJS x end);
            ss <-! elems rest;
            Returned (s :: ss)
        end in
      ss <-! elems xs; Returned (join "," ss)
  | JObj fs =>
      if has_key "toString" fs then Threw TypeError
      else Returned "[object Object]"
  end.

(** [l.includes(s)] on an array of strings. *)
Definition includes (l : list string) (s : string) : bool :=
  existsb (String.eqb s) l.

(** An object literal as [JSON.stringify] writes it: a property whose value
    is [undefined] is left out. *)
Definition objectOf (props : list (string * option json)) : json :=
  JObj (omap (fun '(k, v) => match v with Some j => Some (k, j) | None => None end) props).

Definition strings (l : list string) : json := JArr (map JStr l).

(** An awaited promise. *)
Inductive promise (A : Type) : Type :=
| Resolved (a : A)
| Rejected (err : string).
Arguments Resolved {A} a.
Arguments Rejected {A} err.

(** Interpolation of a property that may be [undefined]. *)
Definition interpolate (v : option json) : outcome string :=
  match v with
  | None => Returned "undefined"
  | Some j => toStringJS j
  end.

(** ** Strings as the scripts handle them *)

(** A string is the sequence of its code units.  The [ascii] type holds the
    units below 256, the range in which registry names, flags and paths
    live; the functions below are the built-in methods on that range. *)
Module Text.

(** [s.startsWith (p)] *)
Definition startsWith (s p : string) : bool := String.prefix p s.

(** [s.endsWith (p)]: [p] is [s] or ends what follows the first unit. *)
Fixpoint endsWith (s p : string) : bool :=
  String.eqb s p
  || match s with
     | EmptyString => false
     | String _ rest => endsWith rest p
     end.

(** [s.slice (start, end)], a missing [end] standing for the length:
    negative positions count from the end, and every position is clamped
    to the string. *)
Definition slice (s : string) (start : Z) (finish : option Z) : string :=
  let len := Z.of_nat (String.length s) in
  let clamp (k : Z) := if k <? 0 then Z.max (len + k) 0 else Z.min k len in
  let from := clamp start in
  let to := clamp (default len finish) in
  String.substring (Z.to_nat from) (Z.to_nat (Z.max (to - from) 0)) s.

(** [s.split (sep)] for a separator of one unit: one part more than there
    are separators, so that the empty string gives one empty part. *)
Fixpoint split (sep : ascii) (s : string) : list string :=
  match s with
  | EmptyString => [EmptyString]
  | String c rest =>
      if Ascii.eqb c sep then EmptyString :: split sep rest
      else
        match split sep rest with
        | part :: parts => String c part :: parts
        | [] => [String c EmptyString]
        end
  end.

(** White space and line terminators: TAB, LF, VT, FF, CR, SP, NBSP. *)
Definition isWhiteSpace (c : ascii) : bool :=
  let n := nat_of_ascii c in
  ((9 <=? n) && (n <=? 13) || (n =? 32) || (n =? 160))%nat.

Fixpoint trimStart (s : string) : string :=
  match s with
  | EmptyString => EmptyString
  | String c rest => if isWhiteSpace c then trimStart rest else s
  end.

Fixpoint trimEnd (s : string) : string :=
  match s with
  | EmptyString => EmptyString
  | String c rest =>
      match trimEnd rest with
      | EmptyString => if isWhiteSpace c then EmptyString else String c EmptyString
      | kept => String c kept
      end
  end.

(** [s.trim ()] *)
Definition trim (s : string) : string := trimEnd (trimStart s).

(** [toLowerCase] of one unit: A to Z, and the capital letters of the
    Latin-1 supplement (À to Þ, the multiplication sign apart). *)
Definition lowerChar (c : ascii) : ascii :=
  let n := nat_of_ascii c in
  if ((65 <=? n) && (n <=? 90)
      || (192 <=? n) && (n <=? 222) && negb (n =? 215))%nat
  then ascii_of_nat (n + 32)
  else c.

(** [s.toLowerCase ()] *)
Fixpoint toLowerCase (s : string) : string :=
  match s with
  | EmptyString => EmptyString
  | String c rest => String (lowerChar c) (toLowerCase rest)
  end.

End Text.

(** ** shared: the validator *)

Module Validate.

Record ValidationResult : Type := {
  valid : bool;
  error : option string;
  warnings : option (list string)
}.

Definition VALID_ITEM_TYPES : list string :=
  [ "registry:style"; "registry:lib"; "registry:example"; "registry:block";
    "registry:component"; "registry:ui"; "registry:hook"; "registry:theme";
    "registry:page" ].

Definition REGISTRY_ITEM_SCHEMA : string :=
  "https://ui.shadcn.com/schema/registry-item.json".

Definition invalid (msg : string) : outcome ValidationResult :=
  Returned {| valid := false; error := Some msg; warnings := None |}.

(** The [$schema] check: it only ever collects a warning. *)
Definition schemaWarnings (data : json) : outcome (list string) :=
  let schema := field data "$schema" in
  if negb (truthy schema) then Returned ["Missing $schema field"]
  else
    match schema with
    | Some (JStr s) =>
        if String.eqb s REGISTRY_ITEM_SCHEMA then Returned []
        else Returned ["Non-standard $schema: " +:+ s]
    | _ => s <-! interpolate schema; Returned ["Non-standard $schema: " +:+ s]
    end.

(** The loop over [data.files], from index [i] on; [None] when every
    element passes. *)
Fixpoint checkFiles (i : nat) (files : list json) : outcome (option string) :=
  match files with
  | [] => Returned None
  | file :: rest =>
      path <-! getProp file "path";
      if negb (truthy path) || negb (is_string path)
      then Returned (Some ("files[" +:+ show_nat i +:+ "]: missing path"))
      else
        type <-! getProp file "type";
        if negb (truthy type) || negb (is_string type)
        then Returned (Some ("files[" +:+ show_nat i +:+ "]: missing type"))
        else checkFiles (S i) rest
  end.

(** [xs.every(d => typeof d === 'string')] *)
Definition everyString (xs : list json) : bool :=
  forallb (fun d => is_string (Some d)) xs.

(** The check shared by [dependencies] and [registryDependencies]. *)
Definition checkStringArray (label : string) (v : option json) : option string :=
  match v with
  | None => None
  | Some (JArr xs) =>
      if everyString xs then None else Some (label +:+ " must be string array")
  | Some _ => Some (label +:+ " must be an array")
  end.

Definition validateRegistryItem (item : json) : outcome ValidationResult :=
  if negb (truthy (Some item)) || negb (typeof_object item)
  then invalid "Item must be an object"
  else
    let data := item in
    warns <-! schemaWarnings data;
    let name := field data "name" in
    if negb (truthy name) || negb (is_string name)
    then invalid "Missing or invalid name field"
    else
      let type := field data "type" in
      if negb (truthy type) || negb (is_string type)
      then invalid "Missing or invalid type field"
      else
        match type with
        | Some (JStr ty) =>
            if negb (includes VALID_ITEM_TYPES ty)
            then invalid ("Invalid type: " +:+ ty)
            else
              filesErr <-!
                (match field data "files" with
                 | None => Returned None
                 | Some (JArr files) => checkFiles 0 files
                 | Some _ => Returned (Some "files must be an array")
                 end);
              match filesErr with
              | Some msg => invalid msg
              | None =>
                  match checkStringArray "dependencies"
                          (field data "dependencies") with
                  | Some msg => invalid msg
                  | None =>
                      match checkStringArray "registryDependencies"
                              (field data "registryDependencies") with
                      | Some msg => invalid msg
                      | None =>
                          Returned
                            {| valid := true;
                               error := None;
                               warnings :=
                                 match warns with
                                 | [] => None
                                 | _ => Some warns
                                 end |}
                      end
                  end
              end
        | _ => invalid "Missing or invalid type field"
        end.

(** What the callers test: [validation.valid]. *)
Definition passes (item : json) : bool :=
  match validateRegistryItem item with
  | Returned r => valid r
  | Threw _ => false
  end.

(** The shape of an item, for comparison with what the validator lets
    through: an element of [files] is an object whose [path] and [type] are
    strings that are not empty; a dependency list is absent or an array of
    strings; the item is an object with a name that is a string and not
    empty, one of the known types, and fields of these shapes. *)
Definition fileShape (file : json) : Prop :=
  exists fs p t,
    file = JObj fs
    /\ assoc "path" fs = Some (JStr p) /\ p <> ""
    /\ assoc "type" fs = Some (JStr t) /\ t <> "".

Definition stringArrayShape (v : option json) : Prop :=
  match v with
  | None => True
  | Some (JArr xs) => Forall (fun d => exists s, d = JStr s) xs
  | Some _ => False
  end.

Definition itemShape (item : json) : Prop :=
  exists fs n ty,
    item = JObj fs
    /\ assoc "name" fs = Some (JStr n) /\ n <> ""
    /\ assoc "type" fs = Some (JStr ty) /\ ty ∈ VALID_ITEM_TYPES
    /\ match assoc "files" fs with
       | None => True
       | Some (JArr files) => Forall fileShape files
       | Some _ => False
       end
    /\ stringArrayShape (assoc "dependencies" fs)
    /\ stringArrayShape (assoc "registryDependencies" fs).

End Validate.

(** ** The environment: network, clock, file system *)

(** One decoded HTTP exchange: [fetch] followed by the [response.ok] test
    and [response.json()].  A transport error, a non-2xx status
    (["HTTP <status>: <text>"]) and a body that is not JSON all surface as
    an [Error] with a message. *)
Inductive response (T : Type) : Type :=
| Ok (body : T)
| Failed (err : string).
Arguments Ok {T} body.
Arguments Failed {T} err.

(** What a script does to the outside world, in the order it does it. *)
Inductive event : Type :=
| EFetch (url : string)
| ESleep (ms : Z)
| EMkdir (dir : string)
| EWrite (path : string) (content : json).

(** The world a script runs in.  [requests] counts the HTTP requests issued
    so far: the upstream's reply to a request is a function of that count
    and of the URL, which lets it answer differently every time.  [files]
    maps a path to the value whose [JSON.stringify (v, null, 2)] text the
    file holds.  [mkdir] and [writeFile] are taken to succeed: the disk
    accepts what the script writes.  (For names without a separator the
    paths a script writes are files of one directory, a different one for
    each name, so that its writes do not stand in each other's way.) *)
Record World : Type := {
  requests : nat;
  files : gmap string json;
  dirs : gset string;
  trace : list event
}.

Definition issue (url : string) (w : World) : World :=
  {| requests := S (requests w); files := files w; dirs := dirs w;
     trace := trace w ++ [EFetch url] |}.

Definition sleep (ms : Z) (w : World) : World :=
  {| requests := requests w; files := files w; dirs := dirs w;
     trace := trace w ++ [ESleep ms] |}.

(** [mkdir (dir, { recursive: true })] *)
Definition mkdir (dir : string) (w : World) : World :=
  {| requests := requests w; files := files w; dirs := {[ dir ]} ∪ dirs w;
     trace := trace w ++ [EMkdir dir] |}.

Definition writeFile (path : string) (content : json) (w : World) : World :=
  {| requests := requests w; files := <[ path := content ]> (files w);
     dirs := dirs w; trace := trace w ++ [EWrite path content] |}.

Fixpoint has_slash (s : string) : bool :=
  match s with
  | EmptyString => false
  | String c rest => Ascii.eqb c "/" || has_slash rest
  end.

(** *** node:path, on a POSIX system *)

Module Path.

(** [normalize] reads the path segment by segment; [res] holds the
    segments kept so far, the last one first.  Empty segments and [.] are
    dropped, [..] takes the segment before it away, or stays when there is
    none to take and the path is relative. *)
Definition normalizeStep (allowAboveRoot : bool) (res : list string)
    (segment : string) : list string :=
  if String.eqb segment "" || String.eqb segment "." then res
  else if String.eqb segment ".."
  then
    match res with
    | last :: rest =>
        if String.eqb last ".."
        then (if allowAboveRoot then ".." :: res else res)
        else rest
    | [] => if allowAboveRoot then [".."] else []
    end
  else segment :: res.

Definition normalizeString (path : string) (allowAboveRoot : bool) : string :=
  join "/" (rev (fold_left (normalizeStep allowAboveRoot) (Text.split "/" path) [])).

Definition normalize (path : string) : string :=
  if String.eqb path "" then "."
  else
    let isAbsolute := Text.startsWith path "/" in
    let trailingSeparator := Text.endsWith path "/" in
    let body := normalizeString path (negb isAbsolute) in
    if String.eqb body ""
    then (if isAbsolute then "/" else if trailingSeparator then "./" else ".")
    else (if isAbsolute then "/" else "") +:+ body
         +:+ (if trailingSeparator then "/" else "").

Fixpoint hasNonSlash (s : string) : bool :=
  match s with
  | EmptyString => false
  | String c rest => negb (Ascii.eqb c "/") || hasNonSlash rest
  end.

(** The loop of [dirname] over the positions from 1 on: what lies before
    the last separator that has something other than separators behind
    it, if there is one. *)
Fixpoint beforeLastSeparator (s : string) : option string :=
  match s with
  | EmptyString => None
  | String c rest =>
      match beforeLastSeparator rest with
      | Some kept => Some (String c kept)
      | None =>
          if Ascii.eqb c "/" && hasNonSlash rest then Some EmptyString else None
      end
  end.

(** [join (...parts)]: the parts that are not empty, put together with
    separators and normalised. *)
Definition join (parts : list string) : string :=
  match List.filter (fun part => negb (String.eqb part "")) parts with
  | [] => "."
  | kept => normalize (join "/" kept)
  end.

End Path.

(** [dirname (p)] *)
Definition dirname (p : string) : string :=
  match p with
  | EmptyString => "."
  | String c rest =>
      match Path.beforeLastSeparator rest with
      | None => if Ascii.eqb c "/" then "/" else "."
      | Some kept =>
          if Ascii.eqb c "/" && String.eqb kept "" then "//" else String c kept
      end
  end.

(** [join (dir, file)], case by case. *)
Definition joinPath (dir file : string) : string :=
  match dir, file with
  | EmptyString, EmptyString => "."
  | EmptyString, _ => Path.normalize file
  | _, EmptyString => Path.normalize dir
  | _, _ => Path.normalize (dir +:+ "/" +:+ file)
  end.

(** Readings of a trace. *)
Definition isFetch (e : event) : bool :=
  match e with EFetch _ => true | _ => false end.

Definition isWrite (e : event) : bool :=
  match e with EWrite _ _ | EMkdir _ => true | _ => false end.

Definition attempts (evs : list event) : nat := length (filter (fun e => isFetch e = true) evs).

Definition sleeps (evs : list event) : list Z :=
  omap (fun e => match e with ESleep ms => Some ms | _ => None end) evs.

Definition fetched (evs : list event) : list string :=
  omap (fun e => match e with EFetch u => Some u | _ => None end) evs.

Definition sumZ (l : list Z) : Z := fold_right Z.add 0 l.

(** [netOnly url w w']: from [w] to [w'] nothing happened but requests for
    [url] and sleeps; the disk is as it was. *)
Definition netEvent (url : string) (e : event) : Prop :=
  e = EFetch url \/ exists ms, e = ESleep ms.

Definition netOnly (url : string) (w w' : World) : Prop :=
  files w' = files w /\ dirs w' = dirs w /\
  exists evs, trace w' = trace w ++ EFetch url :: evs /\ Forall (netEvent url) evs.

(** The names of the items an aggregate index lists. *)
Definition indexNames (index : json) : list string :=
  match field index "items" with
  | Some (JArr items) =>
      omap (fun item => match field item "name" with
                        | Some (JStr n) => Some n
                        | _ => None
                        end) items
  | _ => []
  end.

Definition emptyWorld : World :=
  {| requests := 0; files := ∅; dirs := ∅; trace := [] |}.

(** ** shared/fetch.ts *)

Module Fetch.

Definition DEFAULT_retryCount : nat := 3.
Definition DEFAULT_retryDelay : Z := 1000.

Section Retry.
Context {T : Type}.
(** The transport: the reply to the request issued when [n] requests went
    before it. *)
Variable http : nat -> string -> response T.

(** The body of [for (let attempt = 0; attempt <= retries; attempt++)],
    with [remaining] iterations left to run. *)
Fixpoint retryLoop (url : string) (retries : nat) (baseDelay : Z)
    (remaining attempt : nat) (lastError : option string) (w : World)
    : response T * World :=
  match remaining with
  | O => (Failed (default "Unknown fetch error" lastError), w)
  | S remaining' =>
      let reply := http (requests w) url in
      let w1 := issue url w in
      match reply with
      | Ok body => (Ok body, w1)
      | Failed err =>
          let w2 :=
            if (attempt <? retries)%nat
            then sleep (baseDelay * 2 ^ Z.of_nat attempt) w1
            else w1 in
          retryLoop url retries baseDelay remaining' (S attempt) (Some err) w2
      end
  end.

Definition fetchWithRetry (url : string) (retries : nat) (baseDelay : Z)
    (w : World) : response T * World :=
  retryLoop url retries baseDelay (S retries) 0 None w.

End Retry.

(** The schedule the documentation promises: attempt 0 at once, attempt
    [k >= 1] after a sleep of [baseDelay * 2^(k-1)].  [stepEvents k] is
    what attempt [k] adds to the trace. *)
Definition stepEvents (url : string) (baseDelay : Z) (k : nat) : list event :=
  (match k with
   | O => []
   | S k' => [ESleep (baseDelay * 2 ^ Z.of_nat k')]
   end) ++ [EFetch url].

Definition exponentialSchedule (url : string) (retries : nat) (baseDelay : Z)
    : list event :=
  flat_map (stepEvents url baseDelay) (seq 0 (S retries)).

End Fetch.

(** ** shared/types.ts *)

Module Config.
Record RegistrySource : Type := { baseUrl : string; indexUrl : string }.
Record SyncConfig : Type := {
  retryCount : nat;
  retryDelay : Z;
  concurrency : nat;
  exclude : list string;
  include : list string
}.
Record OutputConfig : Type := { preserveContent : bool; generateIndex : bool }.
Record RegistryMeta : Type := { homepage : string }.
Record RegistryConfig : Type := {
  name : string;
  displayName : string;
  source : RegistrySource;
  sync : SyncConfig;
  output : OutputConfig;
  meta : RegistryMeta
}.
End Config.

Module Entry.
(** An entry of the upstream index, at the type the scripts cast it to. *)
Record RegistryIndexItem : Type := {
  name : string;
  type : string;
  description : option string;
  dependencies : option (list string);
  registryDependencies : option (list string)
}.
(** The decoded index document; only [items] is read. *)
Record RegistryIndex : Type := { items : list RegistryIndexItem }.
End Entry.

(** The filter composition in the documentation's words: the caller's
    allow-list when one is supplied, then the configured allow-list when it
    is not empty, then the configured deny-list. *)
Definition filterChain (only : option (list string)) (include exclude : list string)
    (entries : list Entry.RegistryIndexItem) : list Entry.RegistryIndexItem :=
  let allowed :=
    match only with
    | Some names => List.filter (fun e => includes names (Entry.name e)) entries
    | None => entries
    end in
  let included :=
    match include with
    | [] => allowed
    | _ => List.filter (fun e => includes include (Entry.name e)) allowed
    end in
  List.filter (fun e => negb (includes exclude (Entry.name e))) included.

Module Stats.
Record SyncStats : Type := {
  total : nat;
  synced : nat;
  failed : nat;
  skipped : nat;
  duration : Z
}.
End Stats.

(** ** registries/ai-elements/scripts/sync.ts: the shared-library pipeline *)

Module Sync.

Record SyncOptions : Type := { only : list string; dryRun : bool }.
Record FailedItem : Type := { name : string; error : string }.
Record SyncResult : Type := {
  success : list string;
  failed : list FailedItem;
  skipped : list string;
  stats : Stats.SyncStats
}.

Section Pipeline.
Variable config : Config.RegistryConfig.
Variable OUTPUT_DIR : string.
(** The upstream: replies to index requests and to item requests. *)
Variable httpIndex : nat -> string -> response Entry.RegistryIndex.
Variable httpItem : nat -> string -> response json.
(** [getUtcTimestamp ()] when the index is built, and the two readings of
    [Date.now ()]. *)
Variable timestamp : string.
Variables startTime endTime : Z.
(** [error.message] of an exception raised by the engine. *)
Variable exnMessage : js_exn -> string.

Definition fetchRegistryIndex (w : World)
    : response (list Entry.RegistryIndexItem) * World :=
  match Fetch.fetchWithRetry httpIndex (Config.indexUrl (Config.source config))
          Fetch.DEFAULT_retryCount Fetch.DEFAULT_retryDelay w with
  | (Ok data, w1) => (Ok (Entry.items data), w1)
  | (Failed err, w1) => (Failed err, w1)
  end.

Definition detailUrl (name : string) : string :=
  Config.baseUrl (Config.source config) +:+ "/" +:+ name +:+ ".json".

Definition fetchComponentDetail (name : string) (w : World) : response json * World :=
  Fetch.fetchWithRetry httpItem (detailUrl name)
    Fetch.DEFAULT_retryCount Fetch.DEFAULT_retryDelay w.

Definition transformItem (item : json) : json := item.

(** Step 2 of [sync]: the three filters. *)
Definition workingSet (opts : SyncOptions) (items : list Entry.RegistryIndexItem)
    : list Entry.RegistryIndexItem :=
  let filtered :=
    if (0 <? length (only opts))%nat
    then List.filter (fun i => includes (only opts) (Entry.name i)) items
    else items in
  let filtered :=
    if (0 <? length (Config.include (Config.sync config)))%nat
    then List.filter
           (fun i => includes (Config.include (Config.sync config)) (Entry.name i))
           filtered
    else filtered in
  if (0 <? length (Config.exclude (Config.sync config)))%nat
  then List.filter
         (fun i => negb (includes (Config.exclude (Config.sync config)) (Entry.name i)))
         filtered
  else filtered.

Definition itemPath (name : string) : string :=
  joinPath OUTPUT_DIR (name +:+ ".json").

Definition ensureParentDir (filePath : string) (w : World) : World :=
  mkdir (dirname filePath) w.

(** What the loop over the working set may do in a normal run: requests for
    the detail of an entry, sleeps, the parent directory of an entry's file,
    and writes of an entry's file with content that passed validation. *)
Definition itemEvent (entries : list string) (e : event) : Prop :=
  match e with
  | EFetch u => exists n, n ∈ entries /\ u = detailUrl n
  | ESleep _ => True
  | EMkdir d => exists n, n ∈ entries /\ d = dirname (itemPath n)
  | EWrite p c =>
      exists n, n ∈ entries /\ p = itemPath n /\ Validate.passes c = true
  end.

Definition pushSuccess (n : string) (r : SyncResult) : SyncResult :=
  {| success := success r ++ [n]; failed := failed r;
     skipped := skipped r; stats := stats r |}.

Definition pushFailed (n msg : string) (r : SyncResult) : SyncResult :=
  {| success := success r; failed := failed r ++ [{| name := n; error := msg |}];
     skipped := skipped r; stats := stats r |}.

(** Step 4 of [sync]: [for (const item of filtered)]. *)
Fixpoint syncItems (dry : bool) (filtered : list Entry.RegistryIndexItem)
    (result : SyncResult) (w : World) : SyncResult * World :=
  match filtered with
  | [] => (result, w)
  | item :: rest =>
      let n := Entry.name item in
      if dry then syncItems dry rest (pushSuccess n result) w
      else
        match fetchComponentDetail n w with
        | (Failed err, w1) => syncItems dry rest (pushFailed n err result) w1
        | (Ok detail, w1) =>
            let transformed := transformItem detail in
            match Validate.validateRegistryItem transformed with
            | Threw e => syncItems dry rest (pushFailed n (exnMessage e) result) w1
            | Returned validation =>
                if negb (Validate.valid validation)
                then syncItems dry rest
                       (pushFailed n (default "" (Validate.error validation)) result) w1
                else
                  let filePath := itemPath n in
                  let w2 := writeFile filePath transformed (ensureParentDir filePath w1) in
                  syncItems dry rest (pushSuccess n result) w2
            end
        end
  end.

Definition summary (item : Entry.RegistryIndexItem) : json :=
  objectOf
    [ ("name", Some (JStr (Entry.name item)));
      ("type", Some (JStr (Entry.type item)));
      ("description", JStr <$> Entry.description item);
      ("dependencies", strings <$> Entry.dependencies item);
      ("registryDependencies", strings <$> Entry.registryDependencies item) ].

(** Step 5 of [sync]: the object written to both index files. *)
Definition aggregateIndex (filtered : list Entry.RegistryIndexItem)
    (succeeded : list string) : json :=
  JObj
    [ ("$schema", JStr "https://ui.shadcn.com/schema/registry.json");
      ("name", JStr (Config.name config));
      ("homepage", JStr (Config.homepage (Config.meta config)));
      ("syncedAt", JStr timestamp);
      ("itemCount", JNum (Z.of_nat (length succeeded)));
      ("items",
       JArr (map summary
               (List.filter (fun c => includes succeeded (Entry.name c)) filtered))) ].

Definition indexPath : string := joinPath OUTPUT_DIR "index.json".
Definition registryPath : string := joinPath OUTPUT_DIR "registry.json".

Definition emptyResult (n : nat) : SyncResult :=
  {| success := []; failed := []; skipped := [];
     stats := {| Stats.total := n; Stats.synced := 0; Stats.failed := 0;
                 Stats.skipped := 0; Stats.duration := 0 |} |}.

Definition sync (opts : SyncOptions) (w : World) : promise SyncResult * World :=
  match fetchRegistryIndex w with
  | (Failed err, w1) => (Rejected err, w1)
  | (Ok items, w1) =>
      let filtered := workingSet opts items in
      let w2 := if negb (dryRun opts) then mkdir OUTPUT_DIR w1 else w1 in
      let '(result, w3) :=
        syncItems (dryRun opts) filtered (emptyResult (length items)) w2 in
      let w4 :=
        if negb (dryRun opts) && Config.generateIndex (Config.output config)
        then
          let index := aggregateIndex filtered (success result) in
          writeFile registryPath index (writeFile indexPath index w3)
        else w3 in
      (Resolved
         {| success := success result;
            failed := failed result;
            skipped := skipped result;
            stats := {| Stats.total := length items;
                        Stats.synced := length (success result);
                        Stats.failed := length (failed result);
                        Stats.skipped := length (skipped result);
                        Stats.duration := endTime - startTime |} |},
       w4)
  end.

End Pipeline.
End Sync.

(** ** registries/limeplay/scripts/sync.ts: the standalone script *)

Module Limeplay.

Definition RETRY_COUNT : nat := 3.
Definition RETRY_DELAY : Z := 1000.
Definition CONCURRENCY : nat := 5.

Section Retry.
Context {T : Type}.
Variable http : nat -> string -> response T.

(** The script's own [fetchWithRetry]: [for (let i = 0; i <= retries; i++)]
    with a sleep of [RETRY_DELAY * (i + 1)].  The loop body runs at least
    once, so [lastError] is set when the loop falls through. *)
Fixpoint retryLoop (url : string) (retries remaining i : nat)
    (lastError : option string) (w : World) : response T * World :=
  match remaining with
  | O => (Failed (default "" lastError), w)
  | S remaining' =>
      let reply := http (requests w) url in
      let w1 := issue url w in
      match reply with
      | Ok body => (Ok body, w1)
      | Failed err =>
          let w2 :=
            if (i <? retries)%nat
            then sleep (RETRY_DELAY * (Z.of_nat i + 1)) w1
            else w1 in
          retryLoop url retries remaining' (S i) (Some err) w2
      end
  end.

Definition fetchWithRetry (url : string) (retries : nat) (w : World)
    : response T * World :=
  retryLoop url retries (S retries) 0 None w.

End Retry.

(** What attempt [k] of the script's [fetchWithRetry] adds to the trace when
    the attempts before it failed: attempt 0 at once, attempt [k >= 1]
    after a sleep of [RETRY_DELAY * k]. *)
Definition stepEvents (url : string) (k : nat) : list event :=
  (match k with
   | O => []
   | S _ => [ESleep (RETRY_DELAY * Z.of_nat k)]
   end) ++ [EFetch url].

Definition linearSchedule (url : string) (retries : nat) : list event :=
  flat_map (stepEvents url) (seq 0 (S retries)).

(** [deduplicateItems]: the loop with its [seen] set and [result] array. *)
Fixpoint dedupLoop (items : list Entry.RegistryIndexItem) (seen : gset string)
    (result : list Entry.RegistryIndexItem) : list Entry.RegistryIndexItem :=
  match items with
  | [] => result
  | item :: rest =>
      if decide (Entry.name item ∈ seen)
      then dedupLoop rest seen result
      else dedupLoop rest ({[ Entry.name item ]} ∪ seen) (result ++ [item])
  end.

Definition deduplicateItems (items : list Entry.RegistryIndexItem)
    : list Entry.RegistryIndexItem :=
  dedupLoop items ∅ [].

(** When the upstream's reply to a request for a component does not change
    over time, [settled reply n] is what [fetchComponent n] comes back with,
    [expectedResults] the components kept and [expectedFailed] the names
    reported as skipped. *)
Definition settled (reply : string -> response json) (n : string) : json :=
  match reply n with
  | Ok d => d
  | Failed _ => JNull
  end.

Definition expectedResults (reply : string -> response json)
    (entries : list Entry.RegistryIndexItem) : list json :=
  omap (fun e => let c := settled reply (Entry.name e) in
                 if truthy (Some c) then Some c else None) entries.

Definition expectedFailed (reply : string -> response json)
    (entries : list Entry.RegistryIndexItem) : list string :=
  omap (fun e => if truthy (Some (settled reply (Entry.name e)))
                 then None else Some (Entry.name e)) entries.

(** The [name] property of a fetched component, when it is a string. *)
Definition nameOf (component : json) : option string :=
  match field component "name" with
  | Some (JStr n) => Some n
  | _ => None
  end.

(** The state shared by the workers of [downloadComponents]. *)
Record Pool : Type := {
  queue : list Entry.RegistryIndexItem;
  inflight : list Entry.RegistryIndexItem;
  results : list json;
  failed : list string;
  completed : nat;
  world : World
}.

Section Script.
Variable config : Config.RegistryConfig.
Variable OUTPUT_DIR : string.
Variable httpIndex : nat -> string -> response Entry.RegistryIndex.
Variable httpItem : nat -> string -> response json.
Variable timestamp : string.
(** Which of the downloads in flight finishes next, at each step. *)
Variable sched : nat -> nat.

Definition fetchRegistryIndex (w : World)
    : response (list Entry.RegistryIndexItem) * World :=
  match fetchWithRetry httpIndex (Config.indexUrl (Config.source config))
          RETRY_COUNT w with
  | (Ok index, w1) => (Ok (deduplicateItems (Entry.items index)), w1)
  | (Failed err, w1) => (Failed err, w1)
  end.

Definition componentUrl (name : string) : string :=
  Config.baseUrl (Config.source config) +:+ "/" +:+ name +:+ ".json".

(** [fetchComponent]: the item, or [null] when the fetch failed. *)
Definition fetchComponent (name : string) (w : World) : json * World :=
  match fetchWithRetry httpItem (componentUrl name) RETRY_COUNT w with
  | (Ok item, w1) => (item, w1)
  | (Failed _, w1) => (JNull, w1)
  end.

(** The filters at the head of [downloadComponents]. *)
Definition workingSet (filter : option (list string))
    (items : list Entry.RegistryIndexItem) : list Entry.RegistryIndexItem :=
  let filteredItems :=
    match filter with
    | Some names => List.filter (fun item => includes names (Entry.name item)) items
    | None => items
    end in
  if (0 <? length (Config.exclude (Config.sync config)))%nat
  then List.filter
         (fun item => negb (includes (Config.exclude (Config.sync config))
                              (Entry.name item)))
         filteredItems
  else filteredItems.

(** One download finishes: worker [j] resumes after its [await], records
    the outcome and takes the next entry off the queue, or ends when the
    queue is empty.  The requests of one download are entered in the trace
    together, when it finishes. *)
Definition complete (j : nat) (st : Pool) : Pool :=
  match inflight st !! j with
  | None => st
  | Some item =>
      let '(component, w1) := fetchComponent (Entry.name item) (world st) in
      let ok := truthy (Some component) in
      {| queue := tail (queue st);
         inflight :=
           match queue st with
           | [] => delete j (inflight st)
           | next :: _ => <[ j := next ]> (inflight st)
           end;
         results := if ok then results st ++ [component] else results st;
         failed := if ok then failed st else failed st ++ [Entry.name item];
         completed := S (completed st);
         world := w1 |}
  end.

Fixpoint runPool (fuel t : nat) (st : Pool) : Pool :=
  match fuel with
  | O => st
  | S fuel' =>
      match inflight st with
      | [] => st
      | _ => runPool fuel' (S t) (complete (sched t mod length (inflight st)) st)
      end
  end.

(** [downloadComponents]: [min (CONCURRENCY, n)] workers, each of which has
    taken one entry by the time the first [await] suspends it. *)
Definition downloadComponents (items : list Entry.RegistryIndexItem)
    (filter : option (list string)) (w : World) : Pool :=
  let filteredItems := workingSet filter items in
  let workers := Nat.min CONCURRENCY (length filteredItems) in
  runPool (length filteredItems) 0
    {| queue := drop workers filteredItems;
       inflight := take workers filteredItems;
       results := []; failed := []; completed := 0; world := w |}.

Definition ensureDir (filePath : string) (w : World) : World :=
  mkdir (dirname filePath) w.

Definition saveComponent (item : json) (dryRun : bool) (w : World)
    : outcome unit * World :=
  match interpolate (field item "name") with
  | Threw e => (Threw e, w)
  | Returned n =>
      let filePath := joinPath OUTPUT_DIR (n +:+ ".json") in
      if dryRun then (Returned tt, w)
      else (Returned tt, writeFile filePath item (ensureDir filePath w))
  end.

Fixpoint saveComponents (components : list json) (dryRun : bool) (w : World)
    : outcome unit * World :=
  match components with
  | [] => (Returned tt, w)
  | component :: rest =>
      match saveComponent component dryRun w with
      | (Threw e, w1) => (Threw e, w1)
      | (Returned _, w1) => saveComponents rest dryRun w1
      end
  end.

Definition summary (item : json) : json :=
  objectOf
    [ ("name", field item "name"); ("type", field item "type");
      ("title", field item "title"); ("author", field item "author");
      ("description", field item "description");
      ("categories", field item "categories");
      ("dependencies", field item "dependencies");
      ("registryDependencies", field item "registryDependencies") ].

Definition registryIndex (items : list json) : json :=
  JObj
    [ ("$schema", JStr "https://ui.shadcn.com/schema/registry.json");
      ("name", JStr (Config.name config));
      ("homepage", JStr (Config.homepage (Config.meta config)));
      ("syncedAt", JStr timestamp);
      ("itemCount", JNum (Z.of_nat (length items)));
      ("items", JArr (map summary items)) ].

Definition indexPath : string := joinPath OUTPUT_DIR "index.json".
Definition registryPath : string := joinPath OUTPUT_DIR "registry.json".

Definition saveRegistryIndex (items : list json) (dryRun : bool) (w : World) : World :=
  let index := registryIndex items in
  if dryRun then w
  else writeFile registryPath index (writeFile indexPath index (ensureDir indexPath w)).

(** [main], with the parsed arguments; the result is the exit status. *)
Definition main (only : option (list string)) (dryRun : bool) (w : World) : Z * World :=
  match fetchRegistryIndex w with
  | (Failed _, w1) => (1, w1)
  | (Ok items, w1) =>
      let st := downloadComponents items only w1 in
      match results st with
      | [] => (0, world st)
      | components =>
          match saveComponents components dryRun (world st) with
          | (Threw _, w2) => (1, w2)
          | (Returned _, w2) => (0, saveRegistryIndex components dryRun w2)
          end
      end
  end.

End Script.
End Limeplay.

(** ** registries/aceternity/scripts/sync.ts *)

Module Aceternity.

(** The script's [fetchWithRetry] is, token for token, the limeplay
    script's.  [fetchRegistryIndex] hands the index on as fetched. *)
Definition fetchRegistryIndex (config : Config.RegistryConfig)
    (httpIndex : nat -> string -> response Entry.RegistryIndex) (w : World)
    : response (list Entry.RegistryIndexItem) * World :=
  match Limeplay.fetchWithRetry httpIndex (Config.indexUrl (Config.source config))
          Limeplay.RETRY_COUNT w with
  | (Ok index, w1) => (Ok (Entry.items index), w1)
  | (Failed err, w1) => (Failed err, w1)
  end.

(** The only filter of [downloadComponents] is the caller's. *)
Definition workingSet (filter : option (list string))
    (items : list Entry.RegistryIndexItem) : list Entry.RegistryIndexItem :=
  match filter with
  | Some names => List.filter (fun item => includes names (Entry.name item)) items
  | None => items
  end.

End Aceternity.

(** ** scripts/sync-all.ts: the multi-source runner *)

Module SyncAll.

(** What [await import (syncPath)] comes to.  A module that loads may
    export [sync], and may call its [main ()] at its top level: the script
    then starts inside the runner, and nobody awaits it.  The sync script
    of the shared library exports [sync] and keeps [main] behind
    [import.meta.main]; the limeplay and aceternity scripts export nothing
    and end in a bare [main ()]. *)
Inductive imported : Type :=
| ImportFailed (msg : string)
| Loaded (exportsSync startsMain : bool).

Definition startsMain (m : imported) : bool :=
  match m with
  | Loaded _ starts => starts
  | ImportFailed _ => false
  end.

Record SourceResult : Type := {
  name : string;
  success : bool;
  error : option string
}.

(** What the runner does, in the order it does it. *)
Inductive action : Type :=
| Import (name : string)                  (* [await import (syncPath)] begins *)
| StartMain (name : string)               (* the module's own [main ()] starts, un-awaited *)
| CallSync (name : string) (dryRun : bool) (* [await syncModule.sync ({ dryRun })] *)
| Spawn (command : list string)           (* [Bun.spawn], then [await proc.exited] *)
| Push (result : SourceResult)            (* [results.push] *)
| Exit (status : Z).                      (* [process.exit] *)

(** What the world outside answers.  The awaited calls are told apart by
    the position of the registry in the list.  A [main ()] started by an
    import runs on while the runner awaits something: [interrupt i] is the
    status with which such a run calls [process.exit] while the runner is
    busy with registry [i], if one does, and [interruptLater] the same for
    the time after the runner's own [main] has returned. *)
Record Env : Type := {
  load : string -> imported;
  syncRejects : nat -> option string;
  exitCode : nat -> Z;
  interrupt : nat -> option Z;
  interruptLater : option Z
}.

Record Run : Type := {
  status : Z;
  results : list SourceResult;
  log : list action
}.

Section Runner.
Variable REGISTRIES_DIR : string.
Variable env : Env.

Definition syncPath (name : string) : string :=
  Path.join [REGISTRIES_DIR; name; "scripts"; "sync.ts"].

(** The body of the [try] for registry [i], run to its end: what it does,
    and the result that is pushed. *)
Definition syncOne (isDryRun : bool) (i : nat) (name : string)
    : list action * SourceResult :=
  let ok := {| name := name; success := true; error := None |} in
  let ko := fun msg => {| name := name; success := false; error := Some msg |} in
  match load env name with
  | ImportFailed msg => ([Import name], ko msg)
  | Loaded exportsSync starts =>
      let began := Import name :: (if starts then [StartMain name] else []) in
      if exportsSync
      then
        match syncRejects env i with
        | None => (began ++ [CallSync name isDryRun], ok)
        | Some msg => (began ++ [CallSync name isDryRun], ko msg)
        end
      else
        let command :=
          ["bun"; "run"; syncPath name] ++ (if isDryRun then ["--dry-run"] else []) in
        let code := exitCode env i in
        if code =? 0 then (began ++ [Spawn command], ok)
        else (began ++ [Spawn command], ko ("Exit code: " +:+ show_Z code))
  end.

(** [for (const name of registryNames)], from registry [i] on.  [inFlight]
    tells that some import has started a [main ()] by now.  When such a run
    ends the process while the runner is busy with a registry, the log
    keeps the import of that registry, which has begun for certain, and not
    what the runner may have done after it. *)
Fixpoint syncEach (isDryRun : bool) (names : list string) (i : nat)
    (inFlight : bool) (results : list SourceResult) (log : list action) : Run :=
  match names with
  | [] =>
      let failed := length (List.filter (fun r => negb (success r)) results) in
      if (0 <? failed)%nat
      then {| status := 1; results := results; log := log ++ [Exit 1] |}
      else
        match (if inFlight then interruptLater env else None) with
        | Some code => {| status := code; results := results; log := log ++ [Exit code] |}
        | None => {| status := 0; results := results; log := log |}
        end
  | name :: rest =>
      let inFlight1 := inFlight || startsMain (load env name) in
      match (if inFlight1 then interrupt env i else None) with
      | Some code =>
          {| status := code; results := results;
             log := log ++ [Import name; Exit code] |}
      | None =>
          let '(actions, r) := syncOne isDryRun i name in
          syncEach isDryRun rest (S i) inFlight1 (results ++ [r])
            (log ++ actions ++ [Push r])
      end
  end.

(** [main], given the registry names found. *)
Definition main (registryNames : list string) (isDryRun : bool) : Run :=
  if (length registryNames =? 0)%nat
  then {| status := 1; results := []; log := [Exit 1] |}
  else syncEach isDryRun registryNames 0 false [] [].

End Runner.
End SyncAll.

(** ** Sample data: configurations, indexes and upstreams to run the scripts on *)

Module Demo.

(** The configuration of the limeplay registry, as its [config.ts] has it. *)
Definition limeplayConfig : Config.RegistryConfig :=
  {| Config.name := "limeplay";
     Config.displayName := "Limeplay";
     Config.source :=
       {| Config.baseUrl := "https://limeplay.winoffrg.dev/r";
          Config.indexUrl := "https://limeplay.winoffrg.dev/r/registry.json" |};
     Config.sync :=
       {| Config.retryCount := 3; Config.retryDelay := 1000;
          Config.concurrency := 5; Config.exclude := ["index"];
          Config.include := [] |};
     Config.output := {| Config.preserveContent := true; Config.generateIndex := true |};
     Config.meta := {| Config.homepage := "https://limeplay.winoffrg.dev" |} |}.

(** A registry at [https://r.test] with the given lists and index switch. *)
Definition configWith (include exclude : list string) (generateIndex : bool)
    : Config.RegistryConfig :=
  {| Config.name := "demo";
     Config.displayName := "Demo";
     Config.source :=
       {| Config.baseUrl := "https://r.test";
          Config.indexUrl := "https://r.test/registry.json" |};
     Config.sync :=
       {| Config.retryCount := 3; Config.retryDelay := 1000;
          Config.concurrency := 5; Config.exclude := exclude;
          Config.include := include |};
     Config.output := {| Config.preserveContent := true;
                         Config.generateIndex := generateIndex |};
     Config.meta := {| Config.homepage := "https://r.test" |} |}.

Definition entry (n : string) : Entry.RegistryIndexItem :=
  {| Entry.name := n; Entry.type := "registry:ui"; Entry.description := None;
     Entry.dependencies := None; Entry.registryDependencies := None |}.

(** An upstream whose index lists [names]. *)
Definition indexOf (names : list string) : nat -> string -> response Entry.RegistryIndex :=
  fun _ _ => Ok {| Entry.items := map entry names |}.

(** A well-formed item called [n]. *)
Definition item (n : string) : json :=
  JObj [("name", JStr n); ("type", JStr "registry:ui")].


(** An upstream that serves, for each listed name, the given reply at
    [https://r.test/<name>.json], and a 404 anywhere else. *)
Fixpoint serve (replies : list (string * response json)) (url : string) : response json :=
  match replies with
  | [] => Failed "HTTP 404: Not Found"
  | (n, r) :: rest =>
      if String.eqb url ("https://r.test/" +:+ n +:+ ".json") then r
      else serve rest url
  end.

Definition upstream (replies : list (string * response json))
    : nat -> string -> response json :=
  fun _ url => serve replies url.

(** Downloads finish in the order they were started. *)
Definition fifo : nat -> nat := fun _ => 0%nat.

Definition timestamp : string := "2024-01-01T00:00:00.000Z".

Definition exnMessage (e : js_exn) : string :=
  match e with
  | TypeError => "TypeError"
  end.

(** [sync] and the limeplay script at [https://r.test], writing to [out]. *)
Definition sync (config : Config.RegistryConfig) (index : list string)
    (replies : list (string * response json)) (opts : Sync.SyncOptions)
    : promise Sync.SyncResult * World :=
  Sync.sync config "out" (indexOf index) (upstream replies) timestamp 0 1500
    exnMessage opts emptyWorld.

Definition limeplay (config : Config.RegistryConfig) (index : list string)
    (replies : list (string * response json)) (only : option (list string))
    (dryRun : bool) : Z * World :=
  Limeplay.main config "out" (indexOf index) (upstream replies) timestamp fifo
    only dryRun emptyWorld.

Definition normal : Sync.SyncOptions := {| Sync.only := []; Sync.dryRun := false |}.
Definition dry : Sync.SyncOptions := {| Sync.only := []; Sync.dryRun := true |}.

(** Five entries, the third of which has no detail endpoint. *)
Definition five : list string := ["item1"; "item2"; "item3"; "item4"; "item5"].

Definition fiveReplies (err : string) : list (string * response json) :=
  [ ("item1", Ok (item "item1")); ("item2", Ok (item "item2"));
    ("item3", Failed err);
    ("item4", Ok (item "item4")); ("item5", Ok (item "item5")) ].

End Demo.

(** ** shared/utils.ts *)

Module Utils.

(** The class [[a-z0-9]]. *)
Definition isSlugChar (c : ascii) : bool :=
  let n := nat_of_ascii c in
  ((97 <=? n) && (n <=? 122) || (48 <=? n) && (n <=? 57))%nat.

(** [.replace (/[^a-z0-9]+/g, '-')]: each maximal run of units outside the
    class becomes one hyphen.  [inRun] tells that the unit before was part
    of such a run, whose hyphen is already out. *)
Fixpoint replaceRuns (inRun : bool) (s : string) : string :=
  match s with
  | EmptyString => EmptyString
  | String c rest =>
      if isSlugChar c then String c (replaceRuns false rest)
      else if inRun then replaceRuns true rest
      else String "-" (replaceRuns true rest)
  end.

(** The [-$] alternative of [/^-|-$/g]: a hyphen that ends the string. *)
Fixpoint dropFinalHyphen (s : string) : string :=
  match s with
  | EmptyString => EmptyString
  | String c rest =>
      match rest with
      | EmptyString => if Ascii.eqb c "-" then EmptyString else s
      | _ => String c (dropFinalHyphen rest)
      end
  end.

(** [.replace (/^-|-$/g, '')]: the match at position 0 is tried first, the
    search then goes on behind it. *)
Definition stripHyphens (s : string) : string :=
  match s with
  | String c rest => if Ascii.eqb c "-" then dropFinalHyphen rest else dropFinalHyphen s
  | EmptyString => EmptyString
  end.

Definition slugify (str : string) : string :=
  stripHyphens (replaceRuns false (Text.toLowerCase str)).

(** A slug: the empty string, or groups of lower-case letters and digits
    with single hyphens between them.  [isSlugFrom prev s] reads [s]
    knowing whether the unit before it was of the class. *)
Fixpoint isSlugFrom (prev : bool) (s : string) : bool :=
  match s with
  | EmptyString => prev
  | String c rest =>
      if isSlugChar c then isSlugFrom true rest
      else Ascii.eqb c "-" && prev && isSlugFrom false rest
  end.

Definition isSlug (s : string) : bool :=
  match s with
  | EmptyString => true
  | _ => isSlugFrom false s
  end.

Definition truncate (str : string) (maxLength : Z) : string :=
  if Z.of_nat (String.length str) <=? maxLength then str
  else Text.slice str 0 (Some (maxLength - 3)) +:+ "...".

(** An entry of [readdir (path, { withFileTypes: true })]. *)
Record Dirent : Type := { name : string; isDirectory : bool }.

Definition listDirectories (entries : list Dirent) : list string :=
  map name (List.filter isDirectory entries).

(** [getRegistryNames], given the entries of the registries directory. *)
Definition getRegistryNames (entries : list Dirent) : list string :=
  List.filter
    (fun dir => negb (Text.startsWith dir "_") && negb (Text.startsWith dir "."))
    (listDirectories entries).

(** [getOutputDir] *)
Definition getOutputDir (registryDir : string) : string :=
  joinPath registryDir "output".

End Utils.

(** ** Command lines *)

Module Cli.

(** [s.includes (c)] for one unit. *)
Fixpoint hasChar (c : ascii) (s : string) : bool :=
  match s with
  | EmptyString => false
  | String d rest => Ascii.eqb d c || hasChar c rest
  end.

(** The names of an [--only=] argument:
    [arg.slice (7).split (',').map (s => s.trim ())]. *)
Definition onlyNames (arg : string) : list string :=
  map Text.trim (Text.split "," (Text.slice arg 7 None)).

Definition isOnly (arg : string) : bool := Text.startsWith arg "--only=".

(** A name as an [--only=] argument yields it: no comma in it, no white
    space around it. *)
Definition clean (n : string) : Prop := hasChar "," n = false /\ Text.trim n = n.

End Cli.

(** [parseArgs] of registries/limeplay/scripts/sync.ts and of
    registries/aceternity/scripts/sync.ts, on [process.argv.slice (2)]:
    every [--only=] argument replaces the list of the one before. *)
Module LimeplayCli.

Definition parseArg (acc : option (list string) * bool) (arg : string)
    : option (list string) * bool :=
  let '(only, dryRun) := acc in
  let only := if Text.startsWith arg "--only=" then Some (Cli.onlyNames arg) else only in
  let dryRun := if String.eqb arg "--dry-run" then true else dryRun in
  (only, dryRun).

Definition parseArgs (args : list string) : option (list string) * bool :=
  fold_left parseArg args (None, false).

End LimeplayCli.

(** [parseArgs] of the shared-library sync script: the names of every
    [--only=] argument are pushed onto one list. *)
Module SyncCli.

Definition parseArg (opts : Sync.SyncOptions) (arg : string) : Sync.SyncOptions :=
  if String.eqb arg "--dry-run"
  then {| Sync.only := Sync.only opts; Sync.dryRun := true |}
  else if Text.startsWith arg "--only="
  then {| Sync.only := Sync.only opts ++ Cli.onlyNames arg;
          Sync.dryRun := Sync.dryRun opts |}
  else opts.

Definition parseArgs (args : list string) : Sync.SyncOptions :=
  fold_left parseArg args {| Sync.only := []; Sync.dryRun := false |}.

(** The entry point under [import.meta.main]:
    [sync (parseArgs ()).catch (... process.exit (1))]; the result is the
    exit status. *)
Definition main (config : Config.RegistryConfig) (OUTPUT_DIR : string)
    (httpIndex : nat -> string -> response Entry.RegistryIndex)
    (httpItem : nat -> string -> response json) (timestamp : string)
    (startTime endTime : Z) (exnMessage : js_exn -> string)
    (args : list string) (w : World) : Z * World :=
  match Sync.sync config OUTPUT_DIR httpIndex httpItem timestamp startTime endTime
          exnMessage (parseArgs args) w with
  | (Rejected _, w1) => (1, w1)
  | (Resolved _, w1) => (0, w1)
  end.

End SyncCli.

(** ** scripts/sync-registry.ts *)

Module SyncRegistry.

Record Args : Type := {
  registry : option string;
  dryRun : bool;
  only : list string;
  help : bool
}.

Definition parseArg (a : Args) (arg : string) : Args :=
  if String.eqb arg "--dry-run"
  then {| registry := registry a; dryRun := true; only := only a; help := help a |}
  else if String.eqb arg "--help" || String.eqb arg "-h"
  then {| registry := registry a; dryRun := dryRun a; only := only a; help := true |}
  else if Text.startsWith arg "--only="
  then {| registry := registry a; dryRun := dryRun a;
          only := only a ++ Cli.onlyNames arg; help := help a |}
  else if negb (Text.startsWith arg "-")
  then {| registry := Some arg; dryRun := dryRun a; only := only a; help := help a |}
  else a.

Definition parseArgs (args : list string) : Args :=
  fold_left parseArg args
    {| registry := None; dryRun := false; only := []; help := false |}.

(** The flags handed on to the registry's sync script. *)
Definition flags (a : Args) : list string :=
  (if dryRun a then ["--dry-run"] else [])
  ++ (if (0 <? length (only a))%nat then ["--only=" +:+ join "," (only a)] else []).

(** What a run of [main] comes to: the status the process ends with and
    the command it spawned, if it spawned one. *)
Record Run : Type := { status : Z; spawned : option (list string) }.

Section Main.
Variable REGISTRIES_DIR : string.
(** [readdir] of the registries directory. *)
Variable entries : response (list Utils.Dirent).
Variable pathExists : string -> bool.
(** [proc.exited] of a spawned command; spawning itself is taken to succeed. *)
Variable exited : list string -> Z.

Definition syncPath (registry : string) : string :=
  Path.join [REGISTRIES_DIR; registry; "scripts"; "sync.ts"].

Definition main (args : list string) : Run :=
  let a := parseArgs args in
  if help a then {| status := 0; spawned := None |}
  else
    match entries with
    | Failed _ => {| status := 1; spawned := None |}
    | Ok es =>
        let availableRegistries := Utils.getRegistryNames es in
        match registry a with
        | None => {| status := 1; spawned := None |}
        | Some registry =>
            if String.eqb registry "" then {| status := 1; spawned := None |}
            else if negb (includes availableRegistries registry)
            then {| status := 1; spawned := None |}
            else if negb (pathExists (syncPath registry))
            then {| status := 1; spawned := None |}
            else
              let syncArgs := ["bun"; "run"; syncPath registry] ++ flags a in
              let exitCode := exited syncArgs in
              {| status := exitCode; spawned := Some syncArgs |}
        end
    end.

End Main.
End SyncRegistry.


(** * Theorems *)

(** ** The validator of shared/validate *)

Section ValidatorFacts.
Import Validate.

(** C6.  The three boundary inputs of the validator: a minimal component is
    valid and carries the missing-schema warning and no other; an unknown
    type is rejected with a message that quotes it; a numeric name is
    rejected with the missing-name error. *)
Theorem validateRegistryItem_boundary :
  validateRegistryItem
    (JObj [("name", JStr "x"); ("type", JStr "registry:component")])
  = Returned {| valid := true; error := None;
                warnings := Some ["Missing $schema field"] |}
  /\ validateRegistryItem (JObj [("name", JStr "x"); ("type", JStr "bogus")])
     = Returned {| valid := false; error := Some "Invalid type: bogus";
                   warnings := None |}
  /\ (exists pre post, "Invalid type: bogus" = pre +:+ "bogus" +:+ post)
  /\ validateRegistryItem (JObj [("name", JNum 1); ("type", JStr "registry:ui")])
     = Returned {| valid := false; error := Some "Missing or invalid name field";
                   warnings := None |}.
Proof.
  repeat split; try reflexivity.
  exists "Invalid type: ", "". reflexivity.
Qed.

(** C10 (the failing input).  A [null] element of [files] makes the
    validator throw where it reads [file.path]: no [ValidationResult] is
    returned, although name and type are in order. *)
Theorem validateRegistryItem_null_file_throws :
  validateRegistryItem
    (JObj [("name", JStr "x"); ("type", JStr "registry:ui");
           ("files", JArr [JNull])])
  = Threw TypeError.
Proof. reflexivity. Qed.

(** Elements of [files] that are not objects but not [null] either are
    reported, not thrown on. *)
Example validateRegistryItem_number_file :
  validateRegistryItem
    (JObj [("name", JStr "x"); ("type", JStr "registry:ui");
           ("files", JArr [JNum 7])])
  = Returned {| valid := false; error := Some "files[0]: missing path";
                warnings := None |}.
Proof. reflexivity. Qed.

Lemma checkFiles_total (files : list json) :
  forall i, JNull ∉ files -> exists r, checkFiles i files = Returned r.
Proof.
  induction files as [|file rest IH]; intros i Hnull; [by eexists|].
  apply not_elem_of_cons in Hnull as [Hfile Hrest].
  cbn [checkFiles].
  assert (exists p, getProp file "path" = Returned p) as [p ->]
    by (destruct file; by eauto).
  assert (exists t, getProp file "type" = Returned t) as [t ->]
    by (destruct file; by eauto).
  cbn [obind].
  destruct (negb (truthy p) || negb (is_string p)); [by eexists|].
  destruct (negb (truthy t) || negb (is_string t)); [by eexists|].
  apply IH, Hrest.
Qed.

(** Away from that case the validator does return: when [$schema] is absent
    or a string and [files] holds no [null], it yields a result. *)
Lemma validateRegistryItem_total_without_null (item : json) :
  (field item "$schema" = None \/ is_string (field item "$schema") = true) ->
  (forall files, field item "files" = Some (JArr files) -> JNull ∉ files) ->
  exists r, validateRegistryItem item = Returned r.
Proof.
  intros Hschema Hfiles. unfold validateRegistryItem, invalid.
  destruct (negb (truthy (Some item)) || negb (typeof_object item)); [by eexists|].
  assert (exists ws, schemaWarnings item = Returned ws) as [ws ->].
  { unfold schemaWarnings. destruct Hschema as [->|Hs]; [by eexists|].
    destruct (field item "$schema") as [[]|]; try discriminate.
    destruct (negb _); [by eexists|]. destruct (String.eqb _ _); by eexists. }
  cbn [obind].
  destruct (negb (truthy (field item "name")) || _); [by eexists|].
  destruct (negb (truthy (field item "type")) || _); [by eexists|].
  destruct (field item "type") as [[]|]; try by eexists.
  destruct (negb (includes VALID_ITEM_TYPES s)); [by eexists|].
  assert (exists fe,
    match field item "files" with
    | None => Returned None
    | Some (JArr files) => checkFiles 0 files
    | Some _ => Returned (Some "files must be an array")
    end = Returned fe) as [fe ->].
  { destruct (field item "files") as [[]|] eqn:E; try by eexists.
    apply checkFiles_total. by apply Hfiles. }
  cbn [obind]. destruct fe; [by eexists|].
  destruct (checkStringArray "dependencies" _); [by eexists|].
  destruct (checkStringArray "registryDependencies" _); by eexists.
Qed.

End ValidatorFacts.

(** ** The retrying fetch of shared/fetch.ts *)

Section RetryFacts.
Import Fetch.
Context {T : Type}.
Variable http : nat -> string -> response T.
Variable url : string.
Variable retries : nat.
Variable baseDelay : Z.

Local Abbreviation stepEvents := (Fetch.stepEvents url baseDelay).

Lemma retryLoop_step (rem a : nat) (last : option string) (w : World) :
  retryLoop http url retries baseDelay (S rem) a last w =
  match http (requests w) url with
  | Ok body => (Ok body, issue url w)
  | Failed err =>
      retryLoop http url retries baseDelay rem (S a) (Some err)
        (if (a <? retries)%nat
         then sleep (baseDelay * 2 ^ Z.of_nat a) (issue url w)
         else issue url w)
  end.
Proof. reflexivity. Qed.

Lemma retryLoop_all_fail (errs : nat -> string) (r : nat) :
  forall (a : nat) (last : option string) (w : World),
    (a + r = retries)%nat ->
    (forall k, (k <= r)%nat ->
       http (requests w + k)%nat url = Failed (errs (a + k)%nat)) ->
    retryLoop http url retries baseDelay (S r) a last w =
      (Failed (errs retries),
       {| requests := (requests w + S r)%nat;
          files := files w;
          dirs := dirs w;
          trace := trace w ++ EFetch url :: flat_map stepEvents (seq (S a) r) |}).
Proof.
  induction r as [|r IH]; intros a last w Hsum Hfail;
    rewrite retryLoop_step;
    pose proof (Hfail 0%nat ltac:(lia)) as H0;
    rewrite !Nat.add_0_r in H0; rewrite H0.
  - assert (a = retries) as -> by lia.
    rewrite Nat.ltb_irrefl. cbn.
    unfold issue. do 2 f_equal. lia.
  - assert ((a <? retries)%nat = true) as -> by (apply Nat.ltb_lt; lia).
    rewrite IH.
    + cbn [requests files dirs trace sleep issue seq flat_map stepEvents].
      f_equal. f_equal; [lia|].
      rewrite <- !app_assoc. reflexivity.
    + lia.
    + intros k Hk. cbn [requests sleep issue].
      replace (S (requests w) + k)%nat with (requests w + S k)%nat by lia.
      rewrite Hfail by lia. do 2 f_equal. lia.
Qed.

Lemma exponentialSchedule_unfold :
  exponentialSchedule url retries baseDelay =
  EFetch url :: flat_map stepEvents (seq 1 retries).
Proof. reflexivity. Qed.

Lemma attempts_steps (l : list nat) :
  attempts (flat_map stepEvents l) = length l.
Proof.
  unfold attempts. induction l as [|k l IH]; [reflexivity|].
  cbn [flat_map]. rewrite filter_app, length_app, IH.
  destruct k; reflexivity.
Qed.

Lemma sleeps_steps (l : list nat) :
  Forall (fun k => k <> 0%nat) l ->
  sleeps (flat_map stepEvents l) =
  map (fun k => baseDelay * 2 ^ (Z.of_nat k - 1)) l.
Proof.
  unfold sleeps. induction 1 as [|k l Hk _ IH]; [reflexivity|].
  cbn [flat_map map]. rewrite omap_app, IH.
  destruct k as [|k]; [done|]. cbn. do 3 f_equal. lia.
Qed.

(** When every attempt fails, [fetchWithRetry] of shared/fetch.ts makes
    [retries + 1] requests, starts with a request (no sleep before attempt
    0), sleeps [baseDelay * 2^(k-1)] ms before attempt [k >= 1] and nothing
    else, and fails with the error of the last attempt; it touches no
    file. *)
Lemma shared_fetchWithRetry_exhausts (errs : nat -> string) (w : World) :
  (forall k, (k <= retries)%nat ->
     http (requests w + k)%nat url = Failed (errs k)) ->
  let run := fetchWithRetry http url retries baseDelay w in
  let evs := exponentialSchedule url retries baseDelay in
  fst run = Failed (errs retries)
  /\ trace (snd run) = trace w ++ evs
  /\ attempts evs = S retries
  /\ head evs = Some (EFetch url)
  /\ sleeps evs = map (fun k => baseDelay * 2 ^ (Z.of_nat k - 1)) (seq 1 retries)
  /\ requests (snd run) = (requests w + S retries)%nat
  /\ files (snd run) = files w
  /\ dirs (snd run) = dirs w.
Proof.
  intros Hfail run evs. subst run evs. unfold fetchWithRetry.
  rewrite (retryLoop_all_fail errs retries 0 None w) by (auto with lia).
  rewrite exponentialSchedule_unfold. cbn [fst snd trace requests files dirs].
  repeat split.
  - change (EFetch url :: ?l) with (stepEvents 0%nat ++ l).
    change (stepEvents 0%nat ++ flat_map stepEvents (seq 1 retries))
      with (flat_map stepEvents (seq 0 (S retries))).
    rewrite attempts_steps. now rewrite length_seq.
  - change (sleeps (EFetch url :: ?l)) with (sleeps l).
    apply sleeps_steps. apply Forall_forall. intros k Hk.
    apply elem_of_seq in Hk. lia.
Qed.

End RetryFacts.

(** ** Paths and URLs *)

Lemma length_append (a b : string) :
  String.length (a +:+ b) = (String.length a + String.length b)%nat.
Proof. induction a as [|c a IH]; simpl; [reflexivity|]. now rewrite IH. Qed.

Lemma append_suffix_inj (s a b : string) : a +:+ s = b +:+ s -> a = b.
Proof.
  revert b. induction a as [|c a IH]; intros [|c' b] H.
  - reflexivity.
  - apply (f_equal String.length) in H. rewrite !length_append in H. simpl in H. lia.
  - apply (f_equal String.length) in H. rewrite !length_append in H. simpl in H. lia.
  - cbn in H. injection H as -> H. f_equal. now apply IH.
Qed.

Lemma append_cons (c : ascii) (a b : string) : String c a +:+ b = String c (a +:+ b).
Proof. reflexivity. Qed.

Lemma append_nil_l (s : string) : "" +:+ s = s.
Proof. reflexivity. Qed.

Lemma append_nil_r (s : string) : s +:+ "" = s.
Proof. induction s as [|c s IH]; [reflexivity|]. rewrite append_cons. by f_equal. Qed.

Lemma append_assoc (a b c : string) : (a +:+ b) +:+ c = a +:+ b +:+ c.
Proof. induction a as [|x a IH]; [reflexivity|]. rewrite !append_cons. by f_equal. Qed.

Lemma append_prefix_inj (s a b : string) : s +:+ a = s +:+ b -> a = b.
Proof.
  induction s as [|c s IH]; [done|]. rewrite !append_cons. intros H.
  injection H as H. auto.
Qed.

Lemma startsWith_char (c d : ascii) (s : string) :
  Text.startsWith (String c s) (String d EmptyString) = Ascii.eqb d c.
Proof.
  unfold Text.startsWith. cbn [String.prefix].
  destruct (ascii_dec d c) as [->|Hne].
  - rewrite Ascii.eqb_refl. by destruct s.
  - symmetry. by apply Ascii.eqb_neq.
Qed.

Lemma has_slash_append (a b : string) :
  has_slash (a +:+ b) = has_slash a || has_slash b.
Proof.
  induction a as [|c a IH]; [reflexivity|]. rewrite append_cons. cbn [has_slash].
  by rewrite IH, orb_assoc.
Qed.

Lemma split_nonempty (sep : ascii) (s : string) :
  exists part parts, Text.split sep s = part :: parts.
Proof.
  induction s as [|c s (part & parts & IH)]; [by eexists _, _|].
  cbn. destruct (Ascii.eqb c sep); [by eexists _, _|]. rewrite IH. by eexists _, _.
Qed.

Lemma split_plain (s : string) : has_slash s = false -> Text.split "/" s = [s].
Proof.
  induction s as [|c s IH]; [done|]. cbn. intros H.
  apply orb_false_iff in H as [Hc Hs]. rewrite Hc, (IH Hs). done.
Qed.

Lemma split_append (a b : string) :
  Text.split "/" (a +:+ String "/" b) = Text.split "/" a ++ Text.split "/" b.
Proof.
  induction a as [|c a IH]; [reflexivity|].
  rewrite append_cons. cbn [Text.split]. destruct (Ascii.eqb c "/"); [by rewrite IH|].
  rewrite IH. destruct (split_nonempty "/" a) as (part & parts & ->). reflexivity.
Qed.

Lemma join_snoc (sep : string) (l : list string) (x : string) :
  join sep (l ++ [x]) =
  match l with
  | [] => x
  | _ => join sep l +:+ sep +:+ x
  end.
Proof.
  induction l as [|p l IH]; [reflexivity|].
  cbn [app]. destruct l as [|q l]; [reflexivity|].
  change (join sep (p :: (q :: l) ++ [x]))
    with (p +:+ sep +:+ join sep ((q :: l) ++ [x])).
  rewrite IH. change (join sep (p :: q :: l)) with (p +:+ sep +:+ join sep (q :: l)).
  by rewrite !append_assoc.
Qed.

Lemma endsWith_cons (c : ascii) (s p : string) :
  Text.endsWith (String c s) p = String.eqb (String c s) p || Text.endsWith s p.
Proof. reflexivity. Qed.

Lemma endsWith_append (a b : string) :
  b <> EmptyString -> Text.endsWith (a +:+ b) "/" = Text.endsWith b "/".
Proof.
  intros Hb. induction a as [|c a IH]; [reflexivity|].
  rewrite append_cons. cbn [Text.endsWith]. rewrite IH.
  destruct (a +:+ b) eqn:Hab.
  - destruct a; [done|discriminate].
  - replace (String.eqb (String c (String a0 s)) "/") with false; [done|].
    cbn. by destruct (Ascii.eqb c "/").
Qed.

Lemma endsWith_plain (s : string) : has_slash s = false -> Text.endsWith s "/" = false.
Proof.
  induction s as [|c s IH]; [done|]. cbn [has_slash Text.endsWith]. intros H.
  apply orb_false_iff in H as [Hc Hs]. rewrite (IH Hs), orb_false_r.
  cbn. rewrite Hc. done.
Qed.

Lemma normalizeStep_plain (allow : bool) (res : list string) (file : string) :
  file <> "" -> file <> "." -> file <> ".." ->
  Path.normalizeStep allow res file = file :: res.
Proof.
  intros H0 H1 H2. unfold Path.normalizeStep.
  apply String.eqb_neq in H0, H1, H2. by rewrite H0, H1, H2.
Qed.

(** Joining a directory with a file name that is one plain segment puts
    the name behind something the directory alone decides. *)
Lemma joinPath_plain (dir : string) :
  exists prefix, forall file,
    has_slash file = false -> file <> "" -> file <> "." -> file <> ".." ->
    joinPath dir file = prefix +:+ file.
Proof.
  destruct dir as [|d dir].
  - exists "". intros file Hs H0 H1 H2. unfold joinPath.
    destruct file as [|c file]; [done|]. unfold Path.normalize.
    change (String.eqb (String c file) "") with false. cbv zeta. cbn match.
    rewrite startsWith_char, (endsWith_plain _ Hs).
    cbn [has_slash] in Hs. apply orb_false_iff in Hs as [Hc Hs'].
    rewrite Ascii.eqb_sym, Hc. cbn [negb].
    unfold Path.normalizeString. rewrite split_plain by (cbn; by rewrite Hc, Hs').
    cbn [fold_left]. rewrite normalizeStep_plain by done. cbn [rev app join].
    change (String.eqb (String c file) "") with false. cbn match.
    by rewrite append_nil_l, append_nil_r.
  - set (abs := Ascii.eqb "/" d).
    set (kept := rev (fold_left (Path.normalizeStep (negb abs))
                        (Text.split "/" (String d dir)) [])).
    exists ((if abs then "/" else "")
            +:+ match kept with [] => "" | _ => join "/" kept +:+ "/" end).
    intros file Hs H0 H1 H2. unfold joinPath.
    destruct file as [|c file]; [done|]. unfold Path.normalize.
    change (String.eqb (String d dir +:+ "/" +:+ String c file) "") with false.
    cbv zeta. cbn match.
    change (String d dir +:+ "/" +:+ String c file)
      with (String d (dir +:+ String "/" (String c file))).
    rewrite startsWith_char. fold abs.
    change (String d (dir +:+ String "/" (String c file)))
      with (String d dir +:+ String "/" (String c file)).
    rewrite endsWith_append by done.
    replace (Text.endsWith (String "/" (String c file)) "/") with false.
    2:{ rewrite endsWith_cons, (endsWith_plain _ Hs). reflexivity. }
    unfold Path.normalizeString.
    rewrite split_append, (split_plain (String c file)) by done.
    rewrite fold_left_app. cbn [fold_left].
    rewrite normalizeStep_plain by done. cbn [rev]. fold kept.
    rewrite join_snoc, append_nil_r.
    destruct kept as [|k kept'].
    + change (String.eqb (String c file) "") with false. cbn match.
      by rewrite append_nil_r.
    + set (body := join "/" (k :: kept')).
      replace (String.eqb (body +:+ "/" +:+ String c file) "") with false.
      2:{ symmetry. apply String.eqb_neq. intros H.
          apply (f_equal String.length) in H. rewrite !length_append in H.
          cbn in H. lia. }
      cbn match. by rewrite !append_assoc.
Qed.

Lemma json_plain (n : string) :
  has_slash n = false ->
  has_slash (n +:+ ".json") = false
  /\ n +:+ ".json" <> "" /\ n +:+ ".json" <> "." /\ n +:+ ".json" <> "..".
Proof.
  intros Hn. split; [by rewrite has_slash_append, Hn|].
  repeat split; intros H; apply (f_equal String.length) in H;
    rewrite length_append in H; cbn in H; lia.
Qed.

(** Names without a separator go to files of their own. *)
Lemma joinPath_json_inj (dir n m : string) :
  has_slash n = false -> has_slash m = false ->
  joinPath dir (n +:+ ".json") = joinPath dir (m +:+ ".json") -> n = m.
Proof.
  intros Hn Hm H. destruct (joinPath_plain dir) as [prefix Hplain].
  destruct (json_plain n Hn) as (? & ? & ? & ?).
  destruct (json_plain m Hm) as (? & ? & ? & ?).
  rewrite !Hplain in H by done.
  apply append_prefix_inj in H. by apply append_suffix_inj in H.
Qed.


(** ** Frame of the retrying fetch *)

Section RetryFrame.
Context {T : Type}.
Variable http : nat -> string -> response T.
Variable url : string.

Lemma shared_retryLoop_frame (retries : nat) (baseDelay : Z) (rem : nat) :
  forall a last w,
    netOnly url w (snd (Fetch.retryLoop http url retries baseDelay (S rem) a last w)).
Proof.
  induction rem as [|rem IH]; intros a last w; rewrite retryLoop_step;
    destruct (http (requests w) url) as [body|err].
  1,3: by (repeat split; exists []).
  - destruct (a <? retries)%nat; unfold netOnly, sleep, issue;
      cbn [Fetch.retryLoop snd trace files dirs requests]; repeat split.
    + exists [ESleep (baseDelay * 2 ^ Z.of_nat a)]. rewrite <- app_assoc.
      split; [done|]. constructor; [right; by eexists|constructor].
    + by exists [].
  - destruct (a <? retries)%nat.
    + destruct (IH (S a) (Some err) (sleep (baseDelay * 2 ^ Z.of_nat a) (issue url w)))
        as (Hf & Hd & evs & Ht & Hall).
      repeat split; [done..|].
      exists (ESleep (baseDelay * 2 ^ Z.of_nat a) :: EFetch url :: evs).
      split.
      * rewrite Ht. cbn. now rewrite <- !app_assoc.
      * constructor; [right; by eexists|]. constructor; [by left|done].
    + destruct (IH (S a) (Some err) (issue url w)) as (Hf & Hd & evs & Ht & Hall).
      repeat split; [done..|].
      exists (EFetch url :: evs). split.
      * rewrite Ht. cbn. now rewrite <- !app_assoc.
      * constructor; [by left|done].
Qed.

Lemma shared_fetchWithRetry_frame (retries : nat) (baseDelay : Z) (w : World) :
  netOnly url w (snd (Fetch.fetchWithRetry http url retries baseDelay w)).
Proof. apply shared_retryLoop_frame. Qed.

(** A reply that is always the same settles the outcome. *)
Lemma shared_fetchWithRetry_ok (retries : nat) (baseDelay : Z) (w : World) (body : T) :
  http (requests w) url = Ok body ->
  Fetch.fetchWithRetry http url retries baseDelay w = (Ok body, issue url w).
Proof. intros H. unfold Fetch.fetchWithRetry. now rewrite retryLoop_step, H. Qed.

Lemma shared_retryLoop_served (retries : nat) (baseDelay : Z) (rem : nat) :
  forall a last w body w1,
    Fetch.retryLoop http url retries baseDelay rem a last w = (Ok body, w1) ->
    exists k, http k url = Ok body.
Proof.
  induction rem as [|rem IH]; intros a last w body w1 H; [discriminate|].
  cbn [Fetch.retryLoop] in H. destruct (http (requests w) url) as [b|err] eqn:Hreply.
  - injection H as <- _. by eexists.
  - by apply IH in H.
Qed.

Lemma shared_fetchWithRetry_failed (retries : nat) (baseDelay : Z) (w : World) (err : string) :
  (forall k, http k url = Failed err) ->
  fst (Fetch.fetchWithRetry http url retries baseDelay w) = Failed err.
Proof.
  intros H. unfold Fetch.fetchWithRetry.
  now rewrite (retryLoop_all_fail http url retries baseDelay (fun _ => err) retries 0)
    by auto with lia.
Qed.

End RetryFrame.

(** ** The shared-library pipeline [sync] *)

Section SyncFacts.
Import Sync.
Variable config : Config.RegistryConfig.
Variable OUTPUT_DIR : string.
Variable httpIndex : nat -> string -> response Entry.RegistryIndex.
Variable httpItem : nat -> string -> response json.
Variable timestamp : string.
Variables startTime endTime : Z.
Variable exnMessage : js_exn -> string.

Local Abbreviation syncItems := (Sync.syncItems config OUTPUT_DIR httpItem exnMessage).
Local Abbreviation sync :=
  (Sync.sync config OUTPUT_DIR httpIndex httpItem timestamp startTime endTime exnMessage).
Local Abbreviation fetchRegistryIndex := (Sync.fetchRegistryIndex config httpIndex).
Local Abbreviation fetchComponentDetail := (Sync.fetchComponentDetail config httpItem).
Local Abbreviation workingSet := (Sync.workingSet config).
Local Abbreviation detailUrl := (Sync.detailUrl config).
Local Abbreviation itemPath := (Sync.itemPath OUTPUT_DIR).
Local Abbreviation itemEvent := (Sync.itemEvent config OUTPUT_DIR).
Local Abbreviation indexPath := (Sync.indexPath OUTPUT_DIR).
Local Abbreviation registryPath := (Sync.registryPath OUTPUT_DIR).
Local Abbreviation aggregateIndex := (Sync.aggregateIndex config timestamp).
Local Abbreviation names := (map Entry.name).

Lemma fetchRegistryIndex_frame (w : World) :
  netOnly (Config.indexUrl (Config.source config)) w (snd (fetchRegistryIndex w)).
Proof.
  unfold Sync.fetchRegistryIndex.
  pose proof (shared_fetchWithRetry_frame httpIndex
                (Config.indexUrl (Config.source config))
                Fetch.DEFAULT_retryCount Fetch.DEFAULT_retryDelay w) as H.
  by destruct (Fetch.fetchWithRetry _ _ _ _ _) as [[?|?] ?].
Qed.

Lemma fetchComponentDetail_frame (n : string) (w : World) :
  netOnly (detailUrl n) w (snd (fetchComponentDetail n w)).
Proof. apply shared_fetchWithRetry_frame. Qed.

(** In a dry run the loop touches nothing and reports every entry. *)
Lemma syncItems_dry (filtered : list Entry.RegistryIndexItem) :
  forall (result : SyncResult) (w : World),
    syncItems true filtered result w =
    ({| success := success result ++ names filtered;
        failed := failed result;
        skipped := skipped result;
        stats := stats result |}, w).
Proof.
  induction filtered as [|item rest IH]; intros result w; cbn [Sync.syncItems map].
  - rewrite app_nil_r. by destruct result.
  - rewrite IH. cbn. by rewrite <- app_assoc.
Qed.

(** One turn of the loop in a normal run. *)
Lemma syncItems_cons (item : Entry.RegistryIndexItem)
    (rest : list Entry.RegistryIndexItem) (result : SyncResult) (w : World) :
  syncItems false (item :: rest) result w =
  let n := Entry.name item in
  match fetchComponentDetail n w with
  | (Failed err, w1) => syncItems false rest (pushFailed n err result) w1
  | (Ok detail, w1) =>
      match Validate.validateRegistryItem (transformItem detail) with
      | Threw e => syncItems false rest (pushFailed n (exnMessage e) result) w1
      | Returned validation =>
          if negb (Validate.valid validation)
          then syncItems false rest
                 (pushFailed n (default "" (Validate.error validation)) result) w1
          else syncItems false rest (pushSuccess n result)
                 (writeFile (itemPath n) (transformItem detail)
                    (ensureParentDir (itemPath n) w1))
      end
  end.
Proof. reflexivity. Qed.


Lemma netOnly_itemEvents (n : string) (w w' : World) (entries : list string) :
  n ∈ entries -> netOnly (detailUrl n) w w' ->
  files w' = files w /\ dirs w' = dirs w /\
  exists evs, trace w' = trace w ++ EFetch (detailUrl n) :: evs
              /\ Forall (itemEvent entries) evs.
Proof.
  intros Hn (Hf & Hd & evs & Ht & Hall). repeat split; [done..|].
  exists evs. split; [done|].
  eapply Forall_impl; [exact Hall|]. intros e [->|[ms ->]]; cbn; eauto.
Qed.

(** One turn of the loop, by cases: either the entry is recorded as failed
    and the disk is untouched, or its detail passed validation and is
    written to its file. *)
Lemma syncItems_step (item : Entry.RegistryIndexItem)
    (rest : list Entry.RegistryIndexItem) (result : SyncResult) (w : World) :
  let n := Entry.name item in
  exists result1 w1 evs,
    syncItems false (item :: rest) result w = syncItems false rest result1 w1
    /\ Forall (netEvent (detailUrl n)) evs
    /\ ((exists msg, result1 = pushFailed n msg result)
          /\ trace w1 = trace w ++ EFetch (detailUrl n) :: evs
          /\ files w1 = files w /\ dirs w1 = dirs w
        \/ exists d,
            result1 = pushSuccess n result
            /\ Validate.passes d = true
            /\ trace w1 = trace w ++ EFetch (detailUrl n) :: evs
                          ++ [EMkdir (dirname (itemPath n)); EWrite (itemPath n) d]
            /\ files w1 = <[ itemPath n := d ]> (files w)
            /\ dirs w1 = {[ dirname (itemPath n) ]} ∪ dirs w).
Proof.
  intros n. rewrite syncItems_cons. cbv zeta. fold n.
  pose proof (fetchComponentDetail_frame n w) as (Hf & Hd & evs & Ht & Hall).
  destruct (fetchComponentDetail n w) as [[detail|err] w1]; cbn [snd] in *.
  - unfold transformItem.
    destruct (Validate.validateRegistryItem detail) as [validation|e] eqn:Hv.
    + destruct (Validate.valid validation) eqn:Hvalid; cbn [negb].
      * eexists _, _, evs. split; [reflexivity|]. split; [done|]. right.
        exists detail. split; [done|]. split.
        { unfold Validate.passes. by rewrite Hv. }
        unfold writeFile, Sync.ensureParentDir, mkdir.
        cbn [trace files dirs]. rewrite Ht, Hf, Hd.
        split; [|done]. rewrite <- !app_assoc. reflexivity.
      * eexists _, _, evs. split; [reflexivity|]. split; [done|]. left. eauto.
    + eexists _, _, evs. split; [reflexivity|]. split; [done|]. left. eauto.
  - eexists _, _, evs. split; [reflexivity|]. split; [done|]. left. eauto.
Qed.



(** The loop appends to [success] and [failed], in order, and every entry
    ends in exactly one of them. *)
Lemma syncItems_partition (filtered : list Entry.RegistryIndexItem) :
  forall (result : SyncResult) (w : World),
    exists ok ko,
      success (fst (syncItems false filtered result w)) = success result ++ ok
      /\ failed (fst (syncItems false filtered result w)) = failed result ++ ko
      /\ skipped (fst (syncItems false filtered result w)) = skipped result
      /\ sublist ok (names filtered)
      /\ sublist (map Sync.name ko) (names filtered)
      /\ (length ok + length ko = length filtered)%nat.
Proof.
  induction filtered as [|item rest IH]; intros result w.
  - exists [], []. cbn. rewrite !app_nil_r. by repeat split.
  - destruct (syncItems_step item rest result w)
      as (result1 & w1 & evs1 & -> & _ & Hcase).
    destruct (IH result1 w1) as (ok & ko & Hok & Hko & Hsk & Hs1 & Hs2 & Hlen).
    destruct Hcase as [([msg ->] & _) | (d & -> & _)].
    + exists ok, ({| Sync.name := Entry.name item; error := msg |} :: ko).
      rewrite Hok, Hko, Hsk. cbn. rewrite <- app_assoc.
      repeat split; [by apply sublist_cons | by apply sublist_skip | lia].
    + exists (Entry.name item :: ok), ko.
      rewrite Hok, Hko, Hsk. cbn. rewrite <- app_assoc.
      repeat split; [by apply sublist_skip | by apply sublist_cons | lia].
Qed.

Lemma includes_spec (l : list string) (s : string) :
  includes l s = true <-> s ∈ l.
Proof.
  unfold includes. rewrite existsb_exists. split.
  - intros (x & Hx & Heq). apply String.eqb_eq in Heq as ->.
    by apply list_elem_of_In.
  - intros Hs. exists s. split; [by apply list_elem_of_In|apply String.eqb_refl].
Qed.




Lemma itemCount_aggregateIndex (filtered : list Entry.RegistryIndexItem)
    (succeeded : list string) :
  field (aggregateIndex filtered succeeded) "itemCount"
  = Some (JNum (Z.of_nat (length succeeded))).
Proof. reflexivity. Qed.


(** [sync], phase by phase. *)
Lemma sync_unfold (opts : SyncOptions) (w : World) :
  sync opts w =
  match fetchRegistryIndex w with
  | (Failed err, w1) => (Rejected err, w1)
  | (Ok items, w1) =>
      let filtered := workingSet opts items in
      let run :=
        syncItems (dryRun opts) filtered (emptyResult (length items))
          (if negb (dryRun opts) then mkdir OUTPUT_DIR w1 else w1) in
      (Resolved
         {| success := success (fst run);
            failed := failed (fst run);
            skipped := skipped (fst run);
            stats := {| Stats.total := length items;
                        Stats.synced := length (success (fst run));
                        Stats.failed := length (failed (fst run));
                        Stats.skipped := length (skipped (fst run));
                        Stats.duration := endTime - startTime |} |},
       if negb (dryRun opts) && Config.generateIndex (Config.output config)
       then writeFile registryPath (aggregateIndex filtered (success (fst run)))
              (writeFile indexPath (aggregateIndex filtered (success (fst run)))
                 (snd run))
       else snd run)
  end.
Proof.
  unfold Sync.sync. destruct (fetchRegistryIndex w) as [[items|err] w1]; [|done].
  cbv zeta. by destruct (syncItems _ _ _ _).
Qed.





Lemma passes_true (d : json) :
  Validate.passes d = true ->
  exists v, Validate.validateRegistryItem d = Returned v /\ Validate.valid v = true.
Proof.
  unfold Validate.passes. destruct (Validate.validateRegistryItem d); [|done].
  intros H. by eexists.
Qed.

Lemma itemPath_inj (n m : string) :
  has_slash n = false -> has_slash m = false -> itemPath n = itemPath m -> n = m.
Proof. apply joinPath_json_inj. Qed.

(** The loop when one entry's detail can never be fetched and every other
    entry's detail is served and valid: the others are written, the failing
    one is recorded with the error of its fetch, and no other path of the
    disk changes. *)
Lemma syncItems_isolated (detail : string -> json) (bad err : string)
    (filtered : list Entry.RegistryIndexItem) :
  (forall n, n ∈ names filtered -> has_slash n = false) ->
  (forall k n, n ∈ names filtered -> n <> bad ->
     httpItem k (detailUrl n) = Ok (detail n)) ->
  (forall n, n ∈ names filtered -> n <> bad -> Validate.passes (detail n) = true) ->
  (forall k, httpItem k (detailUrl bad) = Failed err) ->
  forall (result : SyncResult) (w : World),
    let run := syncItems false filtered result w in
    success (fst run) =
      success result ++ List.filter (fun n => negb (String.eqb n bad)) (names filtered)
    /\ failed (fst run) =
        failed result
        ++ map (fun n => {| Sync.name := n; error := err |})
             (List.filter (fun n => String.eqb n bad) (names filtered))
    /\ (forall n, n ∈ names filtered -> n <> bad ->
          files (snd run) !! itemPath n = Some (detail n))
    /\ (forall p, (forall n, n ∈ names filtered -> n <> bad -> p <> itemPath n) ->
          files (snd run) !! p = files w !! p).
Proof.
  induction filtered as [|item rest IH]; intros Hplain Hok Hvalid Hbad result w run.
  - subst run. cbn. rewrite !app_nil_r. repeat split.
    intros n Hn. by apply elem_of_nil in Hn.
  - subst run. rewrite syncItems_cons. cbv zeta.
    assert (forall n, n ∈ names rest -> has_slash n = false) as Hplain'
      by (intros n Hn; apply Hplain; cbn; apply elem_of_cons; by right).
    assert (forall k n, n ∈ names rest -> n <> bad ->
              httpItem k (detailUrl n) = Ok (detail n)) as Hok'
      by (intros k n Hn; apply Hok; cbn; apply elem_of_cons; by right).
    assert (forall n, n ∈ names rest -> n <> bad -> Validate.passes (detail n) = true)
      as Hvalid'
      by (intros n Hn; apply Hvalid; cbn; apply elem_of_cons; by right).
    specialize (IH Hplain' Hok' Hvalid' Hbad).
    cbn [map List.filter].
    destruct (String.eqb_spec (Entry.name item) bad) as [Heq|Hne]; cbn [negb].
    + (* the failing entry *)
      pose proof (fetchComponentDetail_frame (Entry.name item) w)
        as (Hf & _ & _).
      pose proof (shared_fetchWithRetry_failed httpItem (detailUrl bad)
                    Fetch.DEFAULT_retryCount Fetch.DEFAULT_retryDelay w err Hbad)
        as Hfail.
      rewrite <- Heq in Hfail.
      unfold Sync.fetchComponentDetail in *.
      destruct (Fetch.fetchWithRetry httpItem _ _ _ w) as [[d|e] w1];
        cbn [fst snd] in *; [discriminate|]. injection Hfail as ->.
      destruct (IH (pushFailed (Entry.name item) err result) w1)
        as (Hs & Hfl & Hgood & Hframe).
      rewrite Hs, Hfl. cbn [success failed pushFailed map]. rewrite <- app_assoc.
      repeat split.
      * intros n [->|Hn]%elem_of_cons Hnb; [done|]. by apply Hgood.
      * intros p Hp. rewrite Hframe, Hf; [done|].
        intros n Hn. apply Hp. cbn. apply elem_of_cons. by right.
    + (* an entry that is served *)
      assert (Entry.name item ∈ names (item :: rest)) as Hin
        by (cbn; apply elem_of_cons; by left).
      unfold Sync.fetchComponentDetail.
      rewrite (shared_fetchWithRetry_ok httpItem _ _ _ w (detail (Entry.name item)))
        by (by apply Hok).
      unfold transformItem.
      destruct (passes_true _ (Hvalid _ Hin Hne)) as (v & -> & ->). cbn [negb].
      set (w2 := writeFile _ _ _).
      destruct (IH (pushSuccess (Entry.name item) result) w2)
        as (Hs & Hfl & Hgood & Hframe).
      rewrite Hs, Hfl. cbn [success failed pushSuccess]. rewrite <- app_assoc.
      repeat split.
      * intros n [->|Hn]%elem_of_cons Hnb; [|by apply Hgood].
        destruct (decide (Entry.name item ∈ names rest)) as [Hr|Hr];
          [by apply Hgood|].
        rewrite Hframe.
        -- subst w2. unfold writeFile. cbn [files]. apply lookup_insert_eq.
        -- intros m Hm _ Hpath.
           apply itemPath_inj in Hpath; [by subst m|by apply Hplain|by apply Hplain'].
      * intros p Hp. rewrite Hframe.
        -- subst w2. unfold writeFile, Sync.ensureParentDir, mkdir, issue.
           cbn [files]. apply lookup_insert_ne. apply not_eq_sym. by apply Hp.
        -- intros n Hn. apply Hp. cbn. apply elem_of_cons. by right.
Qed.

Lemma filter_eqb_absent (x : string) (l : list string) :
  x ∉ l -> List.filter (fun n => String.eqb n x) l = [].
Proof.
  induction l as [|y l IH]; [done|]. intros [Hne Hnot]%not_elem_of_cons.
  cbn. destruct (String.eqb_spec y x); [congruence|]. by apply IH.
Qed.

Lemma filter_eqb_NoDup (x : string) (l : list string) :
  NoDup l -> x ∈ l -> List.filter (fun n => String.eqb n x) l = [x].
Proof.
  induction 1 as [|y l Hy Hnd IH]; intros Hx; [by apply elem_of_nil in Hx|].
  cbn. destruct (String.eqb_spec y x) as [->|Hne].
  - f_equal. by apply filter_eqb_absent.
  - apply elem_of_cons in Hx as [->|Hx]; [done|]. by apply IH.
Qed.

Lemma length_filter_neqb (x : string) (l : list string) :
  NoDup l -> x ∈ l ->
  length (List.filter (fun n => negb (String.eqb n x)) l) = (length l - 1)%nat.
Proof.
  intros Hnd Hx.
  pose proof (List.filter_length (fun n => String.eqb n x) l) as Hlen.
  rewrite (filter_eqb_NoDup x l Hnd Hx) in Hlen. cbn in Hlen. lia.
Qed.

Lemma itemPath_index (n : string) :
  has_slash n = false -> itemPath n = indexPath -> n = "index".
Proof. intros Hn. by apply (joinPath_json_inj OUTPUT_DIR n "index"). Qed.

Lemma itemPath_registry (n : string) :
  has_slash n = false -> itemPath n = registryPath -> n = "registry".
Proof. intros Hn. by apply (joinPath_json_inj OUTPUT_DIR n "registry"). Qed.

(** Partial failure in [sync]: one entry whose detail can never be fetched
    does not stop the run; it is reported with its error, the others are
    reported as succeeded and are on disk, and its own file is untouched. *)
Lemma sync_isolates_failure (names_only : list string) (w w1 : World)
    (items : list Entry.RegistryIndexItem)
    (detail : string -> json) (bad err : string) :
  let opts := {| only := names_only; dryRun := false |} in
  let filtered := workingSet opts items in
  fetchRegistryIndex w = (Ok items, w1) ->
  NoDup (names filtered) ->
  (forall n, n ∈ names filtered -> has_slash n = false) ->
  bad ∈ names filtered ->
  (forall k n, n ∈ names filtered -> n <> bad ->
     httpItem k (detailUrl n) = Ok (detail n)) ->
  (forall n, n ∈ names filtered -> n <> bad -> Validate.passes (detail n) = true) ->
  (forall k, httpItem k (detailUrl bad) = Failed err) ->
  exists res,
    fst (sync opts w) = Resolved res
    /\ success res = List.filter (fun n => negb (String.eqb n bad)) (names filtered)
    /\ failed res = [{| Sync.name := bad; error := err |}]
    /\ Stats.synced (stats res) = (length filtered - 1)%nat
    /\ Stats.failed (stats res) = 1%nat
    /\ (forall n, n ∈ names filtered -> n <> bad -> n <> "index" -> n <> "registry" ->
          files (snd (sync opts w)) !! itemPath n = Some (detail n))
    /\ (bad <> "index" -> bad <> "registry" ->
          files (snd (sync opts w)) !! itemPath bad = files w !! itemPath bad).
Proof.
  intros opts filtered Hindex Hnd Hplain Hin Hok Hvalid Hbad.
  pose proof (fetchRegistryIndex_frame w) as (Hf0 & _).
  rewrite sync_unfold, Hindex in *. cbn [snd] in Hf0.
  cbv zeta. cbn [dryRun opts negb andb fst snd]. fold filtered.
  destruct (syncItems_isolated detail bad err filtered Hplain Hok Hvalid Hbad
              (emptyResult (length items)) (mkdir OUTPUT_DIR w1))
    as (Hs & Hfl & Hgood & Hframe).
  cbn [success failed emptyResult app] in Hs, Hfl.
  rewrite (filter_eqb_NoDup bad _ Hnd Hin) in Hfl. cbn [map] in Hfl.
  eexists. split; [reflexivity|]. cbn [success failed stats Stats.synced Stats.failed].
  rewrite Hs, Hfl. repeat split.
  - rewrite (length_filter_neqb bad _ Hnd Hin). by rewrite length_map.
  - intros n Hn Hnb Hni Hnr.
    destruct (Config.generateIndex (Config.output config)); [|by apply Hgood].
    unfold writeFile. cbn [files].
    rewrite !lookup_insert_ne; [by apply Hgood|..].
    + intros Heq. symmetry in Heq. apply itemPath_index in Heq; [done|by apply Hplain].
    + intros Heq. symmetry in Heq. apply itemPath_registry in Heq; [done|by apply Hplain].
  - intros Hni Hnr.
    assert (files (syncItems false filtered (emptyResult (length items))
                     (mkdir OUTPUT_DIR w1)).2 !! itemPath bad
            = files w !! itemPath bad) as Hloop.
    { rewrite Hframe; [by rewrite <- Hf0|].
      intros n Hn Hnb Hpath.
      apply itemPath_inj in Hpath; [by subst n|by apply Hplain..]. }
    destruct (Config.generateIndex (Config.output config)); [|done].
    unfold writeFile. cbn [files].
    rewrite !lookup_insert_ne; [done|..].
    + intros Heq. symmetry in Heq. apply itemPath_index in Heq; [done|by apply Hplain].
    + intros Heq. symmetry in Heq. apply itemPath_registry in Heq; [done|by apply Hplain].
Qed.

Lemma sublist_List_filter {A : Type} (f : A -> bool) (l : list A) :
  sublist (List.filter f l) l.
Proof.
  induction l as [|x l IH]; [constructor|]. cbn.
  destruct (f x); [by apply sublist_skip | by apply sublist_cons].
Qed.

Lemma elem_of_List_filter {A : Type} (f : A -> bool) (l : list A) (x : A) :
  x ∈ List.filter f l <-> x ∈ l /\ f x = true.
Proof. by rewrite !list_elem_of_In, filter_In. Qed.

Lemma length_pos_nil {A : Type} (l : list A) : (0 <? length l)%nat = false -> l = [].
Proof. destruct l; [done|]. cbn. discriminate. Qed.

Lemma List_filter_true {A : Type} (f : A -> bool) (l : list A) :
  (forall x, f x = true) -> List.filter f l = l.
Proof.
  intros Hf. induction l as [|x l IH]; [done|]. cbn. by rewrite Hf, IH.
Qed.

(** The working set of [sync]: the entries, in index order, that the three
    filters let through. *)
Lemma workingSet_spec (opts : SyncOptions) (items : list Entry.RegistryIndexItem)
    (e : Entry.RegistryIndexItem) :
  e ∈ workingSet opts items <->
  e ∈ items
  /\ (only opts = [] \/ Entry.name e ∈ only opts)
  /\ (Config.include (Config.sync config) = []
      \/ Entry.name e ∈ Config.include (Config.sync config))
  /\ Entry.name e ∉ Config.exclude (Config.sync config).
Proof using config.
  clear OUTPUT_DIR httpIndex httpItem timestamp startTime endTime exnMessage.
  unfold Sync.workingSet.
  destruct (only opts) as [|o os] eqn:Ho;
    destruct (Config.include (Config.sync config)) as [|i is_] eqn:Hi;
    destruct (Config.exclude (Config.sync config)) as [|x xs] eqn:Hx;
    cbn [length Nat.ltb Nat.leb];
    rewrite ?elem_of_List_filter, ?negb_true_iff, <- ?not_true_iff_false,
      ?includes_spec;
    split; intros H; repeat split; try tauto; try (by apply not_elem_of_nil).
  all: try (destruct H as (? & [?|?] & [?|?] & ?); by try tauto).
Qed.

Lemma workingSet_sublist (opts : SyncOptions) (items : list Entry.RegistryIndexItem) :
  sublist (workingSet opts items) items.
Proof.
  unfold Sync.workingSet.
  repeat match goal with
         | |- context [if ?b then _ else _] => destruct b
         end;
    repeat (etransitivity; [apply sublist_List_filter|]); done.
Qed.

Lemma workingSet_filterChain (opts : SyncOptions)
    (items : list Entry.RegistryIndexItem) :
  workingSet opts items =
  filterChain (match only opts with [] => None | names => Some names end)
    (Config.include (Config.sync config)) (Config.exclude (Config.sync config))
    items.
Proof.
  unfold Sync.workingSet, filterChain.
  destruct (only opts) as [|o os];
    destruct (Config.include (Config.sync config)) as [|i is_];
    destruct (Config.exclude (Config.sync config)) as [|x xs];
    cbn [length Nat.ltb Nat.leb]; try reflexivity;
    symmetry; by apply List_filter_true.
Qed.

(** Whatever [sync] reports, as succeeded or as failed, is an entry of the
    working set; nothing is reported as skipped. *)
Lemma sync_reports_working_set (opts : SyncOptions) (w w1 : World)
    (items : list Entry.RegistryIndexItem) (res : SyncResult) :
  fetchRegistryIndex w = (Ok items, w1) ->
  fst (sync opts w) = Resolved res ->
  (forall n, n ∈ success res -> n ∈ names (workingSet opts items))
  /\ (forall f, f ∈ failed res -> Sync.name f ∈ names (workingSet opts items))
  /\ skipped res = [].
Proof.
  intros Hindex. rewrite sync_unfold, Hindex. cbv zeta. cbn [fst].
  intros [= <-]. cbn [success failed skipped].
  destruct (dryRun opts); cbn [negb].
  - rewrite syncItems_dry. cbn. repeat split; [done|].
    intros f Hf. by apply elem_of_nil in Hf.
  - destruct (syncItems_partition (workingSet opts items)
                (emptyResult (length items)) (mkdir OUTPUT_DIR w1))
      as (ok & ko & -> & -> & -> & Hs1 & Hs2 & _).
    cbn. repeat split.
    + intros n Hn. by eapply elem_of_sublist.
    + intros f Hf. eapply elem_of_sublist; [|exact Hs2].
      apply list_elem_of_fmap. by exists f.
Qed.

End SyncFacts.

(** ** The standalone limeplay script *)

Section LimeplayRetry.
Context {T : Type}.
Variable http : nat -> string -> response T.
Variable url : string.

Lemma limeplay_retryLoop_step (retries rem i : nat) (last : option string) (w : World) :
  Limeplay.retryLoop http url retries (S rem) i last w =
  match http (requests w) url with
  | Ok body => (Ok body, issue url w)
  | Failed err =>
      Limeplay.retryLoop http url retries rem (S i) (Some err)
        (if (i <? retries)%nat
         then sleep (Limeplay.RETRY_DELAY * (Z.of_nat i + 1)) (issue url w)
         else issue url w)
  end.
Proof. reflexivity. Qed.

Lemma limeplay_retryLoop_frame (retries rem : nat) :
  forall i last w,
    netOnly url w (snd (Limeplay.retryLoop http url retries (S rem) i last w)).
Proof.
  induction rem as [|rem IH]; intros i last w; rewrite limeplay_retryLoop_step;
    destruct (http (requests w) url) as [body|err].
  1,3: by (repeat split; exists []).
  - destruct (i <? retries)%nat; unfold netOnly, sleep, issue;
      cbn [Limeplay.retryLoop snd trace files dirs requests]; repeat split.
    + eexists [ESleep _]. rewrite <- app_assoc.
      split; [done|]. constructor; [right; by eexists|constructor].
    + by exists [].
  - destruct (i <? retries)%nat.
    + destruct (IH (S i) (Some err)
                  (sleep (Limeplay.RETRY_DELAY * (Z.of_nat i + 1)) (issue url w)))
        as (Hf & Hd & evs & Ht & Hall).
      repeat split; [done..|].
      exists (ESleep (Limeplay.RETRY_DELAY * (Z.of_nat i + 1)) :: EFetch url :: evs).
      split.
      * rewrite Ht. cbn. now rewrite <- !app_assoc.
      * constructor; [right; by eexists|]. constructor; [by left|done].
    + destruct (IH (S i) (Some err) (issue url w)) as (Hf & Hd & evs & Ht & Hall).
      repeat split; [done..|].
      exists (EFetch url :: evs). split.
      * rewrite Ht. cbn. now rewrite <- !app_assoc.
      * constructor; [by left|done].
Qed.

Lemma limeplay_fetchWithRetry_frame (retries : nat) (w : World) :
  netOnly url w (snd (Limeplay.fetchWithRetry http url retries w)).
Proof. apply limeplay_retryLoop_frame. Qed.

Lemma limeplay_fetchWithRetry_ok (retries : nat) (w : World) (body : T) :
  http (requests w) url = Ok body ->
  Limeplay.fetchWithRetry http url retries w = (Ok body, issue url w).
Proof.
  intros H. unfold Limeplay.fetchWithRetry. now rewrite limeplay_retryLoop_step, H.
Qed.

Lemma limeplay_retryLoop_served (retries rem : nat) :
  forall i last w body w1,
    Limeplay.retryLoop http url retries rem i last w = (Ok body, w1) ->
    exists k, http k url = Ok body.
Proof.
  induction rem as [|rem IH]; intros i last w body w1 H; [discriminate|].
  cbn [Limeplay.retryLoop] in H. destruct (http (requests w) url) as [b|err] eqn:Hreply.
  - injection H as <- _. by eexists.
  - by apply IH in H.
Qed.

Lemma limeplay_retryLoop_failed (err : string) (retries rem : nat) :
  (forall k, http k url = Failed err) ->
  forall i last w,
    fst (Limeplay.retryLoop http url retries (S rem) i last w) = Failed err.
Proof.
  intros Hfail. induction rem as [|rem IH]; intros i last w;
    rewrite limeplay_retryLoop_step, Hfail; [reflexivity|apply IH].
Qed.

Lemma limeplay_retryLoop_all_fail (retries : nat) (errs : nat -> string) (r : nat) :
  forall (i : nat) (last : option string) (w : World),
    (i + r = retries)%nat ->
    (forall k, (k <= r)%nat ->
       http (requests w + k)%nat url = Failed (errs (i + k)%nat)) ->
    Limeplay.retryLoop http url retries (S r) i last w =
      (Failed (errs retries),
       {| requests := (requests w + S r)%nat;
          files := files w;
          dirs := dirs w;
          trace := trace w
                   ++ EFetch url :: flat_map (Limeplay.stepEvents url) (seq (S i) r) |}).
Proof.
  induction r as [|r IH]; intros i last w Hsum Hfail;
    rewrite limeplay_retryLoop_step;
    pose proof (Hfail 0%nat ltac:(lia)) as H0;
    rewrite !Nat.add_0_r in H0; rewrite H0.
  - assert (i = retries) as -> by lia.
    rewrite Nat.ltb_irrefl. cbn.
    unfold issue. do 2 f_equal. lia.
  - assert ((i <? retries)%nat = true) as -> by (apply Nat.ltb_lt; lia).
    rewrite IH.
    + cbn [requests files dirs trace sleep issue seq flat_map Limeplay.stepEvents].
      f_equal. f_equal; [lia|].
      rewrite <- !app_assoc.
      change (Limeplay.stepEvents url (S i))
        with ([ESleep (Limeplay.RETRY_DELAY * Z.of_nat (S i))] ++ [EFetch url]).
      cbn [app]. do 4 f_equal. lia.
    + lia.
    + intros k Hk. cbn [requests sleep issue].
      replace (S (requests w) + k)%nat with (requests w + S k)%nat by lia.
      rewrite Hfail by lia. do 2 f_equal. lia.
Qed.

Lemma limeplay_attempts_steps (l : list nat) :
  attempts (flat_map (Limeplay.stepEvents url) l) = length l.
Proof.
  unfold attempts. induction l as [|k l IH]; [reflexivity|].
  cbn [flat_map]. rewrite filter_app, length_app, IH.
  destruct k; reflexivity.
Qed.

Lemma limeplay_sleeps_steps (l : list nat) :
  Forall (fun k => k <> 0%nat) l ->
  sleeps (flat_map (Limeplay.stepEvents url) l) =
  map (fun k => Limeplay.RETRY_DELAY * Z.of_nat k) l.
Proof.
  unfold sleeps. induction 1 as [|k l Hk _ IH]; [reflexivity|].
  cbn [flat_map map]. rewrite omap_app, IH.
  destruct k as [|k]; [done|]. reflexivity.
Qed.

(** When every attempt fails, the script's own [fetchWithRetry] makes
    [retries + 1] requests, sleeps [RETRY_DELAY * k] ms before attempt
    [k >= 1] and fails with the error of the last attempt. *)
Lemma limeplay_fetchWithRetry_exhausts (retries : nat) (errs : nat -> string)
    (w : World) :
  (forall k, (k <= retries)%nat ->
     http (requests w + k)%nat url = Failed (errs k)) ->
  let run := Limeplay.fetchWithRetry http url retries w in
  let evs := Limeplay.linearSchedule url retries in
  fst run = Failed (errs retries)
  /\ trace (snd run) = trace w ++ evs
  /\ attempts evs = S retries
  /\ head evs = Some (EFetch url)
  /\ sleeps evs = map (fun k => Limeplay.RETRY_DELAY * Z.of_nat k) (seq 1 retries)
  /\ requests (snd run) = (requests w + S retries)%nat
  /\ files (snd run) = files w
  /\ dirs (snd run) = dirs w.
Proof.
  intros Hfail run evs. subst run evs. unfold Limeplay.fetchWithRetry.
  rewrite (limeplay_retryLoop_all_fail retries errs retries 0 None w) by (auto with lia).
  change (Limeplay.linearSchedule url retries)
    with (EFetch url :: flat_map (Limeplay.stepEvents url) (seq 1 retries)).
  cbn [fst snd trace requests files dirs].
  repeat split.
  - change (EFetch url :: ?l) with (Limeplay.stepEvents url 0%nat ++ l).
    change (Limeplay.stepEvents url 0%nat
            ++ flat_map (Limeplay.stepEvents url) (seq 1 retries))
      with (flat_map (Limeplay.stepEvents url) (seq 0 (S retries))).
    rewrite limeplay_attempts_steps. now rewrite length_seq.
  - change (sleeps (EFetch url :: ?l)) with (sleeps l).
    apply limeplay_sleeps_steps. apply Forall_forall. intros k Hk.
    apply elem_of_seq in Hk. lia.
Qed.

End LimeplayRetry.

(** C3, as the code has it.  When every attempt fails, [fetchWithRetry] of
    shared/fetch.ts makes [retries + 1] requests, the first at once,
    sleeps [baseDelay * 2^(k-1)] ms before attempt [k >= 1] and nothing
    else, and fails with the error of the last attempt.  The
    [fetchWithRetry] that the limeplay and aceternity scripts define for
    themselves makes [retries + 1] requests and fails with the last error
    too, but its sleep before attempt [k >= 1] is [RETRY_DELAY * k] ms. *)
Theorem retrying_fetch_backoff :
  (forall (T : Type) (http : nat -> string -> response T) (url : string)
     (retries : nat) (baseDelay : Z) (errs : nat -> string) (w : World),
     (forall k, (k <= retries)%nat ->
        http (requests w + k)%nat url = Failed (errs k)) ->
     let run := Fetch.fetchWithRetry http url retries baseDelay w in
     let evs := Fetch.exponentialSchedule url retries baseDelay in
     fst run = Failed (errs retries)
     /\ trace (snd run) = trace w ++ evs
     /\ attempts evs = S retries
     /\ head evs = Some (EFetch url)
     /\ sleeps evs = map (fun k => baseDelay * 2 ^ (Z.of_nat k - 1)) (seq 1 retries)
     /\ requests (snd run) = (requests w + S retries)%nat
     /\ files (snd run) = files w
     /\ dirs (snd run) = dirs w)
  /\ (forall (T : Type) (http : nat -> string -> response T) (url : string)
        (retries : nat) (errs : nat -> string) (w : World),
        (forall k, (k <= retries)%nat ->
           http (requests w + k)%nat url = Failed (errs k)) ->
        let run := Limeplay.fetchWithRetry http url retries w in
        let evs := Limeplay.linearSchedule url retries in
        fst run = Failed (errs retries)
        /\ trace (snd run) = trace w ++ evs
        /\ attempts evs = S retries
        /\ head evs = Some (EFetch url)
        /\ sleeps evs = map (fun k => Limeplay.RETRY_DELAY * Z.of_nat k) (seq 1 retries)
        /\ requests (snd run) = (requests w + S retries)%nat
        /\ files (snd run) = files w
        /\ dirs (snd run) = dirs w).
Proof.
  split.
  - intros T http url retries baseDelay errs w. apply shared_fetchWithRetry_exhausts.
  - intros T http url retries errs w. apply limeplay_fetchWithRetry_exhausts.
Qed.

(** The script's own retry loop backs off linearly: with its three retries
    from 1000 ms the sleeps are 1000, 2000 and 3000 ms, where doubling
    gives 1000, 2000 and 4000 ms. *)
Lemma limeplay_backoff_is_linear :
  let run :=
    Limeplay.fetchWithRetry
      (fun _ _ => @Failed json "HTTP 503: Service Unavailable")
      "https://r.test/x.json" Limeplay.RETRY_COUNT emptyWorld in
  fst run = Failed "HTTP 503: Service Unavailable"
  /\ attempts (trace (snd run)) = 4%nat
  /\ sleeps (trace (snd run)) = [1000; 2000; 3000]
  /\ map (fun k => Limeplay.RETRY_DELAY * 2 ^ (Z.of_nat k - 1)) (seq 1 3)
     = [1000; 2000; 4000].
Proof. repeat split. Qed.

(** The instance quoted with the claim, two retries from 100 ms, and the
    limeplay script's three retries from 1000 ms. *)
Lemma retrying_fetch_backoff_witness :
  let http := fun (n : nat) (_ : string) => @Failed json ("attempt " +:+ show_nat n) in
  let url := "https://example.com/registry.json" in
  let shared := Fetch.fetchWithRetry http url 2 100 emptyWorld in
  let own := Limeplay.fetchWithRetry http url 3 emptyWorld in
  (forall k, (k <= 3)%nat ->
     http (requests emptyWorld + k)%nat url = Failed ("attempt " +:+ show_nat k))
  /\ fst shared = Failed "attempt 2"
  /\ attempts (trace (snd shared)) = 3%nat
  /\ sleeps (trace (snd shared)) = [100; 200]
  /\ sumZ (sleeps (trace (snd shared))) = 300
  /\ fst own = Failed "attempt 3"
  /\ attempts (trace (snd own)) = 4%nat
  /\ sleeps (trace (snd own)) = [1000; 2000; 3000].
Proof.
  intros http url shared own.
  assert (forall k, (k <= 3)%nat ->
     http (requests emptyWorld + k)%nat url = Failed ("attempt " +:+ show_nat k))
    as Hfail by reflexivity.
  split; [exact Hfail|].
  destruct retrying_fetch_backoff as [Hshared Hown].
  destruct (Hshared json http url 2%nat 100 (fun k => "attempt " +:+ show_nat k)
              emptyWorld)
    as (Herr & Htrace & _); [intros k Hk; apply Hfail; lia|].
  destruct (Hown json http url 3%nat (fun k => "attempt " +:+ show_nat k) emptyWorld
              Hfail)
    as (Herr' & Htrace' & _).
  split; [exact Herr|]. subst shared own. rewrite Htrace, Htrace'.
  split; [reflexivity|]. split; [reflexivity|]. split; [reflexivity|].
  split; [exact Herr'|]. split; reflexivity.
Defined.

Section DedupFacts.
Local Abbreviation names := (map Entry.name).
Local Abbreviation dedupLoop := Limeplay.dedupLoop.
Local Abbreviation deduplicateItems := Limeplay.deduplicateItems.

Lemma dedupLoop_acc (items : list Entry.RegistryIndexItem) :
  forall seen result,
    dedupLoop items seen result = result ++ dedupLoop items seen [].
Proof.
  induction items as [|x l IH]; intros seen result; cbn [Limeplay.dedupLoop].
  - by rewrite app_nil_r.
  - destruct (decide (Entry.name x ∈ seen)); [apply IH|].
    rewrite (IH _ (result ++ [x])), (IH _ ([] ++ [x])).
    by rewrite <- app_assoc.
Qed.

Lemma dedupLoop_cons (x : Entry.RegistryIndexItem)
    (l : list Entry.RegistryIndexItem) (seen : gset string) :
  dedupLoop (x :: l) seen [] =
  if decide (Entry.name x ∈ seen) then dedupLoop l seen []
  else x :: dedupLoop l ({[ Entry.name x ]} ∪ seen) [].
Proof.
  cbn [Limeplay.dedupLoop]. destruct (decide _); [done|].
  by rewrite dedupLoop_acc.
Qed.

Lemma dedupLoop_sublist (l : list Entry.RegistryIndexItem) :
  forall seen, sublist (dedupLoop l seen []) l.
Proof.
  induction l as [|x l IH]; intros seen; [constructor|].
  rewrite dedupLoop_cons. destruct (decide _);
    [by apply sublist_cons | by apply sublist_skip].
Qed.

Lemma dedupLoop_unseen (l : list Entry.RegistryIndexItem) :
  forall seen n, n ∈ names (dedupLoop l seen []) -> n ∉ seen.
Proof.
  induction l as [|x l IH]; intros seen n; [by intros ?%elem_of_nil|].
  rewrite dedupLoop_cons. destruct (decide _) as [Hin|Hnot]; [apply IH|].
  cbn [map]. intros [->|Hn]%elem_of_cons; [done|].
  apply IH in Hn. set_solver.
Qed.

Lemma dedupLoop_NoDup (l : list Entry.RegistryIndexItem) :
  forall seen, NoDup (names (dedupLoop l seen [])).
Proof.
  induction l as [|x l IH]; intros seen; [constructor|].
  rewrite dedupLoop_cons. destruct (decide _); [apply IH|].
  cbn [map]. apply NoDup_cons. split; [|apply IH].
  intros Hn. apply dedupLoop_unseen in Hn. set_solver.
Qed.

Lemma dedupLoop_covers (l : list Entry.RegistryIndexItem) :
  forall seen n, n ∈ names l -> n ∈ seen \/ n ∈ names (dedupLoop l seen []).
Proof.
  induction l as [|x l IH]; intros seen n; [by intros ?%elem_of_nil|].
  cbn [map]. rewrite dedupLoop_cons. intros [->|Hn]%elem_of_cons.
  - destruct (decide _); [by left|]. right. cbn. apply elem_of_cons. by left.
  - destruct (decide _) as [Hin|Hnot]; [by apply IH|].
    destruct (IH ({[ Entry.name x ]} ∪ seen) n Hn) as [Hs|Hd].
    + apply elem_of_union in Hs as [->%elem_of_singleton|Hs]; [|by left].
      right. cbn. apply elem_of_cons. by left.
    + right. cbn. apply elem_of_cons. by right.
Qed.

(** The loop over [l1 ++ l2] is the loop over [l2] started from the state
    the loop over [l1] leaves. *)
Lemma dedupLoop_app (l1 l2 : list Entry.RegistryIndexItem) :
  forall seen result,
    dedupLoop (l1 ++ l2) seen result =
    dedupLoop l2 (list_to_set (names l1) ∪ seen) (dedupLoop l1 seen result).
Proof.
  induction l1 as [|x l1 IH]; intros seen result; cbn [app map list_to_set].
  - by rewrite (left_id_L ∅ (∪)).
  - cbn [Limeplay.dedupLoop]. destruct (decide (Entry.name x ∈ seen)) as [Hin|Hnot].
    + rewrite IH. f_equal. set_solver.
    + rewrite IH. f_equal. set_solver.
Qed.

Lemma dedupLoop_id (l : list Entry.RegistryIndexItem) :
  forall seen,
    (forall n, n ∈ names l -> n ∉ seen) -> NoDup (names l) ->
    dedupLoop l seen [] = l.
Proof.
  induction l as [|x l IH]; intros seen Hfresh Hnd; [done|].
  cbn [map] in Hfresh, Hnd. apply NoDup_cons in Hnd as [Hx Hnd].
  rewrite dedupLoop_cons.
  destruct (decide _) as [Hin|_];
    [exfalso; by apply (Hfresh (Entry.name x)); [apply elem_of_cons; left|]|].
  f_equal. apply IH; [|done]. intros n Hn.
  apply not_elem_of_union. split.
  - apply not_elem_of_singleton. intros ->. done.
  - apply Hfresh, elem_of_cons. by right.
Qed.

End DedupFacts.

Section LimeplayFacts.
Variable config : Config.RegistryConfig.
Variable OUTPUT_DIR : string.
Variable httpIndex : nat -> string -> response Entry.RegistryIndex.
Variable httpItem : nat -> string -> response json.
Variable timestamp : string.
Variable sched : nat -> nat.

Local Abbreviation names := (map Entry.name).
Local Abbreviation fetchRegistryIndex := (Limeplay.fetchRegistryIndex config httpIndex).
Local Abbreviation fetchComponent := (Limeplay.fetchComponent config httpItem).
Local Abbreviation componentUrl := (Limeplay.componentUrl config).
Local Abbreviation workingSet := (Limeplay.workingSet config).
Local Abbreviation complete := (Limeplay.complete config httpItem).
Local Abbreviation runPool := (Limeplay.runPool config httpItem sched).
Local Abbreviation downloadComponents :=
  (Limeplay.downloadComponents config httpItem sched).
Local Abbreviation saveComponent := (Limeplay.saveComponent OUTPUT_DIR).
Local Abbreviation saveComponents := (Limeplay.saveComponents OUTPUT_DIR).
Local Abbreviation saveRegistryIndex :=
  (Limeplay.saveRegistryIndex config OUTPUT_DIR timestamp).
Local Abbreviation registryIndex := (Limeplay.registryIndex config timestamp).
Local Abbreviation main :=
  (Limeplay.main config OUTPUT_DIR httpIndex httpItem timestamp sched).

Lemma limeplay_fetchRegistryIndex_frame (w : World) :
  netOnly (Config.indexUrl (Config.source config)) w (snd (fetchRegistryIndex w)).
Proof.
  unfold Limeplay.fetchRegistryIndex.
  pose proof (limeplay_fetchWithRetry_frame httpIndex
                (Config.indexUrl (Config.source config)) Limeplay.RETRY_COUNT w) as H.
  by destruct (Limeplay.fetchWithRetry _ _ _ _) as [[?|?] ?].
Qed.

Lemma fetchComponent_frame (n : string) (w : World) :
  netOnly (componentUrl n) w (snd (fetchComponent n w)).
Proof.
  unfold Limeplay.fetchComponent.
  pose proof (limeplay_fetchWithRetry_frame httpItem (componentUrl n)
                Limeplay.RETRY_COUNT w) as H.
  by destruct (Limeplay.fetchWithRetry _ _ _ _) as [[?|?] ?].
Qed.

(** The downloads leave the disk alone. *)
Lemma complete_disk (j : nat) (st : Limeplay.Pool) :
  files (Limeplay.world (complete j st)) = files (Limeplay.world st)
  /\ dirs (Limeplay.world (complete j st)) = dirs (Limeplay.world st).
Proof.
  unfold Limeplay.complete. destruct (Limeplay.inflight st !! j); [|done].
  pose proof (fetchComponent_frame (Entry.name r) (Limeplay.world st))
    as (Hf & Hd & _).
  by destruct (fetchComponent _ _).
Qed.

Lemma runPool_disk (fuel : nat) :
  forall t st,
    files (Limeplay.world (runPool fuel t st)) = files (Limeplay.world st)
    /\ dirs (Limeplay.world (runPool fuel t st)) = dirs (Limeplay.world st).
Proof.
  induction fuel as [|fuel IH]; intros t st; cbn [Limeplay.runPool]; [done|].
  destruct (Limeplay.inflight st); [done|].
  destruct (IH (S t) (complete (sched t mod length (r :: l)) st)) as [-> ->].
  apply complete_disk.
Qed.



(** *** The worker pool, for any order of completion *)

Section Pool.
(** The upstream answers each component request the same way every time. *)
Variable reply : string -> response json.
Variable all : list Entry.RegistryIndexItem.
Hypothesis Hreply :
  forall k e, e ∈ all -> httpItem k (componentUrl (Entry.name e)) = reply (Entry.name e).

Local Abbreviation E := (Limeplay.expectedResults reply).
Local Abbreviation F := (Limeplay.expectedFailed reply).

Lemma fetchComponent_settled (e : Entry.RegistryIndexItem) (w : World) :
  e ∈ all -> fst (fetchComponent (Entry.name e) w) = Limeplay.settled reply (Entry.name e).
Proof.
  intros He. unfold Limeplay.fetchComponent, Limeplay.settled.
  destruct (reply (Entry.name e)) as [d|err] eqn:Hr.
  - rewrite (limeplay_fetchWithRetry_ok httpItem _ _ w d); [done|].
    by rewrite Hreply.
  - pose proof (limeplay_retryLoop_failed httpItem (componentUrl (Entry.name e)) err
                  Limeplay.RETRY_COUNT Limeplay.RETRY_COUNT) as Hfail.
    unfold Limeplay.fetchWithRetry.
    rewrite <- Hr in Hfail. specialize (Hfail (fun k => Hreply k e He) 0%nat None w).
    destruct (Limeplay.retryLoop _ _ _ _ _ _ _) as [[?|?] ?]; cbn in *;
      congruence.
Qed.

Lemma complete_fields (j : nat) (st : Limeplay.Pool) (item : Entry.RegistryIndexItem) :
  Limeplay.inflight st !! j = Some item -> item ∈ all ->
  let c := Limeplay.settled reply (Entry.name item) in
  Limeplay.results (complete j st)
    = (if truthy (Some c) then Limeplay.results st ++ [c] else Limeplay.results st)
  /\ Limeplay.failed (complete j st)
      = (if truthy (Some c) then Limeplay.failed st
         else Limeplay.failed st ++ [Entry.name item])
  /\ Limeplay.queue (complete j st) = tail (Limeplay.queue st)
  /\ Limeplay.inflight (complete j st)
      = match Limeplay.queue st with
        | [] => delete j (Limeplay.inflight st)
        | next :: _ => <[ j := next ]> (Limeplay.inflight st)
        end.
Proof.
  intros Hj Hin c. unfold Limeplay.complete. rewrite Hj.
  pose proof (fetchComponent_settled item (Limeplay.world st) Hin) as Hc.
  destruct (fetchComponent _ _) as [c' w1]. cbn [fst] in Hc. subst c'. by fold c.
Qed.

Lemma insert_middle {A : Type} (l1 l2 : list A) (x y : A) :
  <[ length l1 := y ]> (l1 ++ x :: l2) = l1 ++ y :: l2.
Proof. induction l1 as [|z l1 IH]; [done|]. simpl. by f_equal. Qed.

(** Completing a download takes its entry out of the work still to do. *)
Lemma complete_remaining (j : nat) (st : Limeplay.Pool) (item : Entry.RegistryIndexItem) :
  Limeplay.inflight st !! j = Some item -> item ∈ all ->
  item :: (Limeplay.inflight (complete j st) ++ Limeplay.queue (complete j st))
    ≡ₚ Limeplay.inflight st ++ Limeplay.queue st
  /\ (Limeplay.inflight (complete j st) = [] -> Limeplay.queue (complete j st) = []).
Proof.
  intros Hj Hin. destruct (complete_fields j st item Hj Hin) as (_ & _ & -> & ->).
  apply list_elem_of_split_length in Hj as (l1 & l2 & Hl & ->). rewrite Hl.
  destruct (Limeplay.queue st) as [|next q]; cbn [tail].
  - rewrite delete_middle, !app_nil_r. split; [apply Permutation_middle|done].
  - rewrite insert_middle. split; [|by destruct l1].
    rewrite <- !app_assoc. cbn [app].
    rewrite <- (Permutation_middle l1 (l2 ++ next :: q) item).
    constructor. apply Permutation_app_head. apply Permutation_middle.
Qed.

Lemma expected_cons (e : Entry.RegistryIndexItem) (l : list Entry.RegistryIndexItem) :
  let c := Limeplay.settled reply (Entry.name e) in
  E (e :: l) = (if truthy (Some c) then [c] else []) ++ E l
  /\ F (e :: l) = (if truthy (Some c) then [] else [Entry.name e]) ++ F l.
Proof.
  intros c. unfold Limeplay.expectedResults, Limeplay.expectedFailed.
  cbn [omap list_omap]. fold c. by destruct (truthy (Some c)).
Qed.

Lemma expectedResults_perm (l l' : list Entry.RegistryIndexItem) :
  l ≡ₚ l' -> E l ≡ₚ E l'.
Proof. apply omap_Permutation. Qed.

Lemma expectedFailed_perm (l l' : list Entry.RegistryIndexItem) :
  l ≡ₚ l' -> F l ≡ₚ F l'.
Proof. apply omap_Permutation. Qed.

(** Run to the end, the pool has fetched every entry it was given exactly
    once: what it kept and what it reported as skipped are, up to order,
    what the upstream's replies decide. *)
Lemma runPool_complete (fuel : nat) :
  forall t st,
    (forall e, e ∈ Limeplay.inflight st ++ Limeplay.queue st -> e ∈ all) ->
    (Limeplay.inflight st = [] -> Limeplay.queue st = []) ->
    (length (Limeplay.inflight st) + length (Limeplay.queue st) <= fuel)%nat ->
    Limeplay.results (runPool fuel t st)
      ≡ₚ Limeplay.results st ++ E (Limeplay.inflight st ++ Limeplay.queue st)
    /\ Limeplay.failed (runPool fuel t st)
        ≡ₚ Limeplay.failed st ++ F (Limeplay.inflight st ++ Limeplay.queue st)
    /\ Limeplay.inflight (runPool fuel t st) = []
    /\ Limeplay.queue (runPool fuel t st) = [].
Proof.
  induction fuel as [|fuel IH]; intros t st Hall Hidle Hlen; cbn [Limeplay.runPool].
  - destruct (Limeplay.inflight st) as [|? ?] eqn:Hi; [|cbn in Hlen; lia].
    rewrite (Hidle eq_refl). cbn. by rewrite !app_nil_r.
  - destruct (Limeplay.inflight st) as [|e0 rest] eqn:Hi.
    { rewrite (Hidle eq_refl). cbn. by rewrite !app_nil_r. }
    set (j := (sched t mod length (e0 :: rest))%nat).
    assert (j < length (e0 :: rest))%nat as Hj
      by (apply Nat.mod_upper_bound; cbn; lia).
    apply lookup_lt_is_Some in Hj as [item Hitem]. rewrite <- Hi in Hitem.
    assert (item ∈ all) as Hin.
    { apply Hall, elem_of_app. left. rewrite <- Hi.
      apply list_elem_of_lookup. eauto. }
    destruct (complete_remaining j st item Hitem Hin) as [Hperm Hidle'].
    destruct (complete_fields j st item Hitem Hin) as (Hres & Hfail & _ & _).
    destruct (expected_cons item
                (Limeplay.inflight (complete j st) ++ Limeplay.queue (complete j st)))
      as [HE HF].
    destruct (IH (S t) (complete j st)) as (IHr & IHf & IHi & IHq).
    + intros e He. apply Hall. rewrite <- Hi, <- Hperm. apply elem_of_cons. by right.
    + exact Hidle'.
    + apply Permutation_length in Hperm. cbn [length] in Hperm.
      rewrite !length_app, Hi in Hperm. cbn [length] in Hperm, Hlen. lia.
    + rewrite <- Hi. split; [|split; [|done]].
      * rewrite IHr, Hres.
        etransitivity; [|apply Permutation_app_head, expectedResults_perm, Hperm].
        rewrite HE. destruct (truthy _); [by rewrite <- app_assoc|done].
      * rewrite IHf, Hfail.
        etransitivity; [|apply Permutation_app_head, expectedFailed_perm, Hperm].
        rewrite HF. destruct (truthy _); [done|by rewrite <- app_assoc].
Qed.

End Pool.

Lemma downloadComponents_complete (reply : string -> response json)
    (items : list Entry.RegistryIndexItem) (only : option (list string)) (w : World) :
  (forall k e, e ∈ workingSet only items ->
     httpItem k (componentUrl (Entry.name e)) = reply (Entry.name e)) ->
  let st := downloadComponents items only w in
  Limeplay.results st ≡ₚ Limeplay.expectedResults reply (workingSet only items)
  /\ Limeplay.failed st ≡ₚ Limeplay.expectedFailed reply (workingSet only items)
  /\ files (Limeplay.world st) = files w
  /\ dirs (Limeplay.world st) = dirs w.
Proof.
  intros Hreply st. subst st. unfold Limeplay.downloadComponents.
  set (ws := workingSet only items) in *.
  set (n := Nat.min Limeplay.CONCURRENCY (length ws)).
  match goal with
  | |- context [Limeplay.runPool _ _ _ ?fuel ?t ?st] =>
      pose proof (runPool_disk fuel t st) as [Hpf Hpd];
      pose proof (runPool_complete reply ws Hreply fuel t st) as Hrun
  end.
  cbn [Limeplay.world Limeplay.inflight Limeplay.queue Limeplay.results
       Limeplay.failed] in *.
  rewrite take_drop in Hrun.
  destruct Hrun as (Hr & Hf & _); [done| |by rewrite length_take, length_drop; lia|].
  - intros Htake. destruct ws as [|e ws']; [by rewrite drop_nil|].
    subst n. cbn in Htake. discriminate.
  - by repeat split.
Qed.

Local Abbreviation componentPath n := (joinPath OUTPUT_DIR (n +:+ ".json")) (only parsing).

Lemma saveComponent_named (c : json) (n : string) (w : World) :
  Limeplay.nameOf c = Some n ->
  saveComponent c false w =
  (Returned tt, writeFile (componentPath n) c (Limeplay.ensureDir (componentPath n) w)).
Proof.
  unfold Limeplay.nameOf, Limeplay.saveComponent.
  destruct (field c "name") as [[]|]; try discriminate. by intros [= ->].
Qed.

(** Saving components that all carry a string name: every one ends up in
    its file, and no other path changes. *)
Lemma saveComponents_writes (components : list json) :
  forall w,
    (forall c, c ∈ components -> is_Some (Limeplay.nameOf c)) ->
    (forall c n, c ∈ components -> Limeplay.nameOf c = Some n -> has_slash n = false) ->
    fst (saveComponents components false w) = Returned tt
    /\ (forall p, (forall c n, c ∈ components -> Limeplay.nameOf c = Some n ->
                    p <> componentPath n) ->
          files (snd (saveComponents components false w)) !! p = files w !! p)
    /\ (forall c n, c ∈ components -> Limeplay.nameOf c = Some n ->
          (forall c', c' ∈ components -> Limeplay.nameOf c' = Some n -> c' = c) ->
          files (snd (saveComponents components false w)) !! componentPath n = Some c).
Proof.
  induction components as [|c0 rest IH]; intros w Hnamed Hplain.
  - repeat split. intros c n Hc. by apply elem_of_nil in Hc.
  - destruct (Hnamed c0) as [n0 Hn0]; [apply elem_of_cons; by left|].
    cbn [Limeplay.saveComponents]. rewrite (saveComponent_named c0 n0 w Hn0).
    set (w1 := writeFile _ _ _).
    destruct (IH w1) as (Hret & Hframe & Hsaved).
    { intros c Hc. apply Hnamed, elem_of_cons. by right. }
    { intros c n Hc. apply Hplain, elem_of_cons. by right. }
    split; [done|]. split.
    + intros p Hp. rewrite Hframe.
      * subst w1. unfold writeFile. cbn [files]. apply lookup_insert_ne.
        apply not_eq_sym. apply (Hp c0 n0); [apply elem_of_cons; by left|done].
      * intros c n Hc. apply Hp, elem_of_cons. by right.
    + intros c n Hc Hn Huniq.
      destruct (decide (n ∈ omap Limeplay.nameOf rest)) as [Hin|Hnotin].
      * apply list_elem_of_omap in Hin as (c' & Hc' & Hn').
        assert (c' = c) as -> by (apply Huniq; [apply elem_of_cons; by right|done]).
        apply Hsaved; [done..|]. intros c'' Hc''. apply Huniq, elem_of_cons. by right.
      * assert (c = c0) as ->.
        { apply elem_of_cons in Hc as [->|Hc]; [done|]. exfalso. apply Hnotin.
          apply list_elem_of_omap. by exists c. }
        assert (n = n0) as -> by congruence.
        rewrite Hframe.
        -- subst w1. unfold writeFile. cbn [files]. apply lookup_insert_eq.
        -- intros c' n' Hc' Hn' Hpath. apply joinPath_json_inj in Hpath.
           ++ subst n'. apply Hnotin. apply list_elem_of_omap. by exists c'.
           ++ apply (Hplain c0); [apply elem_of_cons; by left|done].
           ++ apply (Hplain c'); [apply elem_of_cons; by right|done].
Qed.


Lemma expected_isolated (detail : string -> json) (bad err : string)
    (l : list Entry.RegistryIndexItem) :
  let reply := fun n => if String.eqb n bad then Failed err else Ok (detail n) in
  (forall n, n ∈ names l -> n <> bad -> truthy (Some (detail n)) = true) ->
  Limeplay.expectedResults reply l
    = map detail (List.filter (fun n => negb (String.eqb n bad)) (names l))
  /\ Limeplay.expectedFailed reply l
      = List.filter (fun n => String.eqb n bad) (names l).
Proof.
  intros reply. induction l as [|e l IH]; intros Htruthy; [done|].
  destruct IH as [IHE IHF].
  { intros n Hn. apply Htruthy. cbn. apply elem_of_cons. by right. }
  destruct (expected_cons reply e l) as [-> ->]. rewrite IHE, IHF.
  assert (Limeplay.settled reply (Entry.name e)
          = if String.eqb (Entry.name e) bad then JNull else detail (Entry.name e))
    as -> by (unfold Limeplay.settled, reply; by destruct (String.eqb _ _)).
  cbn [map List.filter].
  destruct (String.eqb_spec (Entry.name e) bad) as [Heq|Hne]; cbn [negb].
  - done.
  - by rewrite (Htruthy (Entry.name e));
      [| cbn; apply elem_of_cons; by left | done].
Qed.

(** Partial failure in the limeplay script: an entry whose component can
    never be fetched is reported by name in the list of skipped entries
    (the error itself is dropped by [fetchComponent]); whatever the order in
    which the downloads finish, every other component is fetched and saved
    under its own name, and the failing entry's file is untouched. *)
Lemma limeplay_isolates_failure (only : option (list string)) (w w1 : World)
    (items : list Entry.RegistryIndexItem)
    (detail : string -> json) (bad err : string) :
  let ws := workingSet only items in
  let st := downloadComponents items only w1 in
  fetchRegistryIndex w = (Ok items, w1) ->
  NoDup (names ws) ->
  (forall n, n ∈ names ws -> has_slash n = false) ->
  bad ∈ names ws ->
  (forall k n, n ∈ names ws -> n <> bad ->
     httpItem k (componentUrl n) = Ok (detail n)) ->
  (forall n, n ∈ names ws -> n <> bad ->
     truthy (Some (detail n)) = true /\ Limeplay.nameOf (detail n) = Some n) ->
  (forall k, httpItem k (componentUrl bad) = Failed err) ->
  Limeplay.failed st = [bad]
  /\ Limeplay.results st
      ≡ₚ map detail (List.filter (fun n => negb (String.eqb n bad)) (names ws))
  /\ fst (main only false w) = 0
  /\ (forall n, n ∈ names ws -> n <> bad -> n <> "index" -> n <> "registry" ->
        files (snd (main only false w)) !! componentPath n = Some (detail n))
  /\ (bad <> "index" -> bad <> "registry" ->
        files (snd (main only false w)) !! componentPath bad
        = files w !! componentPath bad).
Proof.
  intros ws st Hindex Hnd Hplain Hin Hok Hgood Hbad.
  set (reply := fun n => if String.eqb n bad then Failed err else Ok (detail n)).
  assert (forall k e, e ∈ ws ->
            httpItem k (componentUrl (Entry.name e)) = reply (Entry.name e)) as Hreply.
  { intros k e He. unfold reply.
    destruct (String.eqb_spec (Entry.name e) bad) as [->|Hne]; [done|].
    apply Hok; [|done]. apply list_elem_of_fmap. by exists e. }
  destruct (downloadComponents_complete reply items only w1 Hreply)
    as (Hres & Hfail & Hfiles & _). fold st in Hres, Hfail, Hfiles. fold ws in Hres, Hfail.
  destruct (expected_isolated detail bad err ws) as [HE HF].
  { intros n Hn Hnb. by apply Hgood. }
  fold reply in HE, HF. rewrite HE in Hres. rewrite HF in Hfail.
  rewrite (filter_eqb_NoDup bad _ Hnd Hin) in Hfail.
  apply Permutation_singleton_r in Hfail.
  pose proof (limeplay_fetchRegistryIndex_frame w) as (Hf0 & _).
  rewrite Hindex in Hf0. cbn [snd] in Hf0.
  set (good := List.filter (fun n => negb (String.eqb n bad)) (names ws)) in *.
  assert (forall n, n ∈ good <-> n ∈ names ws /\ n <> bad) as Hgoodspec.
  { intros n. subst good. rewrite elem_of_List_filter, negb_true_iff.
    split; intros [? Hb]; (split; [done|]).
    - intros ->. by rewrite String.eqb_refl in Hb.
    - by apply String.eqb_neq. }
  assert (forall c, c ∈ Limeplay.results st ->
            exists n, n ∈ good /\ c = detail n /\ Limeplay.nameOf c = Some n) as Hcomp.
  { intros c Hc. rewrite Hres in Hc. apply list_elem_of_fmap in Hc as (n & -> & Hn).
    exists n. split; [done|]. split; [done|]. apply Hgood; by apply Hgoodspec. }
  destruct (saveComponents_writes (Limeplay.results st) (Limeplay.world st))
    as (Hret & Hframe & Hsaved).
  { intros c Hc. destruct (Hcomp c Hc) as (n & _ & _ & ->). by eexists. }
  { intros c n Hc Hn. destruct (Hcomp c Hc) as (m & Hm & _ & Hm').
    assert (n = m) as -> by congruence. apply Hplain. by apply Hgoodspec. }
  split; [done|]. split; [done|].
  unfold Limeplay.main. rewrite Hindex. fold st.
  destruct (Limeplay.results st) as [|c0 l] eqn:Hresults.
  { (* nothing was fetched: there is no other entry *)
    cbn [fst snd]. split; [done|]. split.
    - intros n Hn Hnb _ _. exfalso.
      assert (n ∈ good) as Hng by (by apply Hgoodspec).
      apply Permutation_nil_l in Hres. apply (f_equal length) in Hres.
      rewrite length_map in Hres. destruct good; [by apply elem_of_nil in Hng|done].
    - intros _ _. by rewrite Hfiles, Hf0. }
  destruct (saveComponents (c0 :: l) false (Limeplay.world st)) as [[[]|e] w2];
    cbn [fst snd] in *; [|discriminate].
  split; [done|].
  unfold Limeplay.saveRegistryIndex, writeFile, Limeplay.ensureDir, mkdir. cbn [files].
  split.
  - intros n Hn Hnb Hni Hnr.
    rewrite !lookup_insert_ne.
    + apply Hsaved.
      * rewrite Hres. apply list_elem_of_fmap. exists n. split; [done|].
        by apply Hgoodspec.
      * by apply Hgood.
      * intros c' Hc' Hn'. destruct (Hcomp c' Hc') as (m & _ & -> & Hm). congruence.
    + intros Heq. symmetry in Heq.
      apply (joinPath_json_inj OUTPUT_DIR n "index") in Heq; [done|by apply Hplain|done].
    + intros Heq. symmetry in Heq.
      apply (joinPath_json_inj OUTPUT_DIR n "registry") in Heq;
        [done|by apply Hplain|done].
  - intros Hni Hnr. rewrite !lookup_insert_ne.
    + rewrite Hframe; [by rewrite Hfiles, Hf0|].
      intros c n Hc Hn Hpath.
      destruct (Hcomp c Hc) as (m & Hm & _ & Hm'). apply Hgoodspec in Hm as [Hmws Hm].
      assert (n = m) as -> by congruence.
      apply joinPath_json_inj in Hpath; [congruence|by apply Hplain..].
    + intros Heq. symmetry in Heq.
      apply (joinPath_json_inj OUTPUT_DIR bad "index") in Heq;
        [done|by apply Hplain|done].
    + intros Heq. symmetry in Heq.
      apply (joinPath_json_inj OUTPUT_DIR bad "registry") in Heq;
        [done|by apply Hplain|done].
Qed.

End LimeplayFacts.

Section LimeplayFilters.
Variable config : Config.RegistryConfig.
Local Abbreviation names := (map Entry.name).

(** The limeplay script filters by the caller's list and by the configured
    deny-list; the configured allow-list plays no part. *)
Lemma limeplay_workingSet_filterChain (only : option (list string))
    (items : list Entry.RegistryIndexItem) :
  Limeplay.workingSet config only items =
  filterChain only [] (Config.exclude (Config.sync config)) items.
Proof.
  unfold Limeplay.workingSet, filterChain.
  destruct (Config.exclude (Config.sync config)) as [|x xs];
    cbn [length Nat.ltb Nat.leb]; [|done].
  symmetry. by apply List_filter_true.
Qed.

Lemma aceternity_workingSet_filterChain (only : option (list string))
    (items : list Entry.RegistryIndexItem) :
  Aceternity.workingSet only items = filterChain only [] [] items.
Proof.
  unfold Aceternity.workingSet, filterChain. symmetry. by apply List_filter_true.
Qed.

Lemma limeplay_workingSet_sublist (only : option (list string))
    (items : list Entry.RegistryIndexItem) :
  sublist (Limeplay.workingSet config only items) items.
Proof.
  unfold Limeplay.workingSet.
  destruct (0 <? _)%nat; destruct only;
    repeat (etransitivity; [apply sublist_List_filter|]); done.
Qed.

(** What the limeplay script hands to the downloads: the index without
    repeated names, fetched with requests to the index URL only. *)
Lemma limeplay_index_deduplicated
    (httpIndex : nat -> string -> response Entry.RegistryIndex)
    (w w1 : World) (items : list Entry.RegistryIndexItem) :
  Limeplay.fetchRegistryIndex config httpIndex w = (Ok items, w1) ->
  (exists raw, items = Limeplay.deduplicateItems raw)
  /\ NoDup (names items)
  /\ netOnly (Config.indexUrl (Config.source config)) w w1
  /\ forall only, NoDup (names (Limeplay.workingSet config only items)).
Proof.
  intros Hindex.
  pose proof (limeplay_fetchRegistryIndex_frame config httpIndex w) as Hframe.
  rewrite Hindex in Hframe. cbn [snd] in Hframe.
  unfold Limeplay.fetchRegistryIndex in Hindex.
  destruct (Limeplay.fetchWithRetry _ _ _ _) as [[index|err] w']; [|discriminate].
  injection Hindex as <- <-.
  assert (NoDup (names (Limeplay.deduplicateItems (Entry.items index)))) as Hnd
    by apply dedupLoop_NoDup.
  split; [by eexists|]. split; [done|]. split; [done|].
  intros only. eapply sublist_NoDup; [exact Hnd|].
  apply fmap_sublist, limeplay_workingSet_sublist.
Qed.

(** The index the limeplay script works on is the deduplication of an
    index the upstream served; nothing but the index has been requested by
    then. *)
Lemma limeplay_index_served
    (httpIndex : nat -> string -> response Entry.RegistryIndex)
    (w w1 : World) (items : list Entry.RegistryIndexItem) :
  Limeplay.fetchRegistryIndex config httpIndex w = (Ok items, w1) ->
  (exists k raw,
     httpIndex k (Config.indexUrl (Config.source config)) = Ok raw
     /\ items = Limeplay.deduplicateItems (Entry.items raw))
  /\ NoDup (names items)
  /\ netOnly (Config.indexUrl (Config.source config)) w w1
  /\ forall only,
       NoDup (names (Limeplay.workingSet config only items))
       /\ sublist (Limeplay.workingSet config only items) items.
Proof.
  intros Hindex.
  destruct (limeplay_index_deduplicated httpIndex w w1 items Hindex)
    as (_ & Hnd & Hnet & Hws).
  split; [|split; [done|split; [done|]]].
  - unfold Limeplay.fetchRegistryIndex, Limeplay.fetchWithRetry in Hindex.
    destruct (Limeplay.retryLoop _ _ _ _ _ _ _) as [[index|err] w'] eqn:Hloop;
      [|discriminate].
    injection Hindex as <- <-.
    apply limeplay_retryLoop_served in Hloop as [k Hk]. by exists k, index.
  - intros only. split; [apply Hws|apply limeplay_workingSet_sublist].
Qed.

(** The aceternity script and [sync] hand on the entries of an index the
    upstream served, as they are. *)
Lemma aceternity_index_served
    (httpIndex : nat -> string -> response Entry.RegistryIndex)
    (w w1 : World) (items : list Entry.RegistryIndexItem) :
  Aceternity.fetchRegistryIndex config httpIndex w = (Ok items, w1) ->
  exists k raw,
    httpIndex k (Config.indexUrl (Config.source config)) = Ok raw
    /\ items = Entry.items raw.
Proof.
  unfold Aceternity.fetchRegistryIndex, Limeplay.fetchWithRetry. intros Hindex.
  destruct (Limeplay.retryLoop _ _ _ _ _ _ _) as [[index|err] w'] eqn:Hloop;
    [|discriminate].
  injection Hindex as <- <-.
  apply limeplay_retryLoop_served in Hloop as [k Hk]. by exists k, index.
Qed.

Lemma sync_index_served
    (httpIndex : nat -> string -> response Entry.RegistryIndex)
    (w w1 : World) (items : list Entry.RegistryIndexItem) :
  Sync.fetchRegistryIndex config httpIndex w = (Ok items, w1) ->
  exists k raw,
    httpIndex k (Config.indexUrl (Config.source config)) = Ok raw
    /\ items = Entry.items raw.
Proof.
  unfold Sync.fetchRegistryIndex, Fetch.fetchWithRetry. intros Hindex.
  destruct (Fetch.retryLoop _ _ _ _ _ _ _ _) as [[index|err] w'] eqn:Hloop;
    [|discriminate].
  injection Hindex as <- <-.
  apply shared_retryLoop_served in Hloop as [k Hk]. by exists k, index.
Qed.

End LimeplayFilters.

(** ** The multi-source runner of scripts/sync-all.ts *)

Section RunnerFacts.
Import SyncAll.
Variable REGISTRIES_DIR : string.
Variable env : Env.
Variable isDryRun : bool.

Local Abbreviation one := (SyncAll.syncOne REGISTRIES_DIR env isDryRun).
Local Abbreviation syncEach := (SyncAll.syncEach REGISTRIES_DIR env isDryRun).
Local Abbreviation block := (fun i n => fst (one i n) ++ [Push (snd (one i n))]).
Local Abbreviation starts := (fun n => startsMain (load env n)).






End RunnerFacts.

(** * The claims *)

Section DedupClaim.
Local Abbreviation names := (map Entry.name).
Local Abbreviation deduplicateItems := Limeplay.deduplicateItems.

Lemma deduplicateItems_snoc (items : list Entry.RegistryIndexItem)
    (e : Entry.RegistryIndexItem) :
  deduplicateItems (items ++ [e]) =
  if decide (Entry.name e ∈ names items) then deduplicateItems items
  else deduplicateItems items ++ [e].
Proof.
  unfold Limeplay.deduplicateItems. rewrite dedupLoop_app.
  cbn [Limeplay.dedupLoop].
  destruct (decide (Entry.name e ∈ names items)) as [Hin|Hnot];
    destruct (decide _) as [Hin'|Hnot']; try done; exfalso.
  - apply Hnot'. apply elem_of_union. left. by apply elem_of_list_to_set.
  - apply Hnot. apply elem_of_union in Hin' as [Hin'|Hin'];
      [by apply elem_of_list_to_set in Hin' | by apply not_elem_of_empty in Hin'].
Qed.

Lemma deduplicateItems_names (items : list Entry.RegistryIndexItem) (n : string) :
  n ∈ names (deduplicateItems items) <-> n ∈ names items.
Proof.
  split.
  - intros Hn. eapply elem_of_sublist; [exact Hn|].
    apply fmap_sublist, dedupLoop_sublist.
  - intros Hn. destruct (dedupLoop_covers items ∅ n Hn) as [Hempty|Hd]; [|done].
    by apply not_elem_of_empty in Hempty.
Qed.

(** C8, as the code has it.  [deduplicateItems] keeps, in index order,
    the first entry of each name: an entry is kept exactly when no earlier
    entry has its name.  The result has no repeated name, names every name
    of the input, is a fixed point of deduplication, and a list without
    repeated names is returned as it is.  The limeplay script deduplicates
    the entries of the index the upstream served before it requests
    anything but the index, so its working set, a sublist of the
    deduplicated entries, has pairwise distinct names.  The aceternity
    script and [sync] do not deduplicate: they work on the entries of the
    index as served. *)
Theorem deduplicateItems_first_occurrence :
  (forall items : list Entry.RegistryIndexItem,
     NoDup (names (deduplicateItems items))
     /\ sublist (deduplicateItems items) items
     /\ (forall n, n ∈ names (deduplicateItems items) <-> n ∈ names items)
     /\ deduplicateItems (deduplicateItems items) = deduplicateItems items
     /\ (NoDup (names items) -> deduplicateItems items = items))
  /\ deduplicateItems [] = []
  /\ (forall (items : list Entry.RegistryIndexItem) (e : Entry.RegistryIndexItem),
        deduplicateItems (items ++ [e]) =
        if decide (Entry.name e ∈ names items) then deduplicateItems items
        else deduplicateItems items ++ [e])
  /\ (forall (config : Config.RegistryConfig)
        (httpIndex : nat -> string -> response Entry.RegistryIndex)
        (w w1 : World) (items : list Entry.RegistryIndexItem),
        Limeplay.fetchRegistryIndex config httpIndex w = (Ok items, w1) ->
        (exists k raw,
           httpIndex k (Config.indexUrl (Config.source config)) = Ok raw
           /\ items = deduplicateItems (Entry.items raw))
        /\ NoDup (names items)
        /\ netOnly (Config.indexUrl (Config.source config)) w w1
        /\ forall only,
             NoDup (names (Limeplay.workingSet config only items))
             /\ sublist (Limeplay.workingSet config only items) items)
  /\ (forall (config : Config.RegistryConfig)
        (httpIndex : nat -> string -> response Entry.RegistryIndex)
        (w : World) (raw : Entry.RegistryIndex),
        httpIndex (requests w) (Config.indexUrl (Config.source config)) = Ok raw ->
        Limeplay.fetchRegistryIndex config httpIndex w
        = (Ok (deduplicateItems (Entry.items raw)),
           issue (Config.indexUrl (Config.source config)) w))
  /\ (forall (config : Config.RegistryConfig)
        (httpIndex : nat -> string -> response Entry.RegistryIndex)
        (w w1 : World) (items : list Entry.RegistryIndexItem),
        (Aceternity.fetchRegistryIndex config httpIndex w = (Ok items, w1) ->
         exists k raw,
           httpIndex k (Config.indexUrl (Config.source config)) = Ok raw
           /\ items = Entry.items raw)
        /\ (Sync.fetchRegistryIndex config httpIndex w = (Ok items, w1) ->
            exists k raw,
              httpIndex k (Config.indexUrl (Config.source config)) = Ok raw
              /\ items = Entry.items raw)).
Proof.
  split; [|split; [done|split; [apply deduplicateItems_snoc|split; [|split]]]];
    cycle 2.
  { intros config httpIndex w raw Hreply. unfold Limeplay.fetchRegistryIndex.
    by rewrite (limeplay_fetchWithRetry_ok _ _ _ _ _ Hreply). }
  { intros config httpIndex w w1 items.
    split; [apply aceternity_index_served|apply sync_index_served]. }
  - intros items.
    assert (NoDup (names (deduplicateItems items))) as Hnd by apply dedupLoop_NoDup.
    split; [done|]. split; [apply dedupLoop_sublist|].
    split; [apply deduplicateItems_names|].
    split; apply dedupLoop_id; try done; intros n _; apply not_elem_of_empty.
  - intros config httpIndex w w1 items. apply limeplay_index_served.
Qed.

End DedupClaim.

(** The aceternity script and [sync] keep an index with a repeated name as
    it is served; the limeplay script drops the repetition. *)
Lemma aceternity_keeps_duplicates :
  let cfg := Demo.configWith [] [] true in
  let served := Demo.indexOf ["a"; "b"; "a"] in
  fst (Aceternity.fetchRegistryIndex cfg served emptyWorld)
    = Ok (map Demo.entry ["a"; "b"; "a"])
  /\ map Entry.name (Aceternity.workingSet None (map Demo.entry ["a"; "b"; "a"]))
     = ["a"; "b"; "a"]
  /\ fst (Sync.fetchRegistryIndex cfg served emptyWorld)
     = Ok (map Demo.entry ["a"; "b"; "a"])
  /\ map Entry.name (Sync.workingSet cfg Demo.normal (map Demo.entry ["a"; "b"; "a"]))
     = ["a"; "b"; "a"]
  /\ fst (Limeplay.fetchRegistryIndex cfg served emptyWorld)
     = Ok (map Demo.entry ["a"; "b"])
  /\ ~ NoDup ["a"; "b"; "a"].
Proof.
  repeat split. intros Hnd. apply NoDup_cons in Hnd as [Hnot _].
  apply Hnot. apply list_elem_of_further, list_elem_of_here.
Qed.

(** The index of the limeplay registry lists [index] twice. *)
Lemma deduplicateItems_first_occurrence_witness :
  let raw := map Demo.entry ["media-provider"; "index"; "mute-control"; "index"] in
  let served := Demo.indexOf ["media-provider"; "index"; "mute-control"; "index"] in
  let url := "https://limeplay.winoffrg.dev/r/registry.json" in
  Limeplay.deduplicateItems raw = map Demo.entry ["media-provider"; "index"; "mute-control"]
  /\ NoDup (map Entry.name (Limeplay.deduplicateItems raw))
  /\ NoDup (map Entry.name (map Demo.entry ["media-provider"; "mute-control"]))
  /\ Limeplay.deduplicateItems (map Demo.entry ["media-provider"; "mute-control"])
     = map Demo.entry ["media-provider"; "mute-control"]
  /\ served (requests emptyWorld) url = Ok {| Entry.items := raw |}
  /\ Limeplay.fetchRegistryIndex Demo.limeplayConfig served emptyWorld
     = (Ok (map Demo.entry ["media-provider"; "index"; "mute-control"]),
        issue url emptyWorld)
  /\ map Entry.name
       (Limeplay.workingSet Demo.limeplayConfig None
          (map Demo.entry ["media-provider"; "index"; "mute-control"]))
     = ["media-provider"; "mute-control"].
Proof.
  intros raw served url.
  destruct deduplicateItems_first_occurrence as (Hall & _ & _ & _ & Hfirst & _).
  assert (NoDup (map Entry.name (map Demo.entry ["media-provider"; "mute-control"])))
    as Hnd.
  { cbn. apply NoDup_cons. split; [|apply NoDup_singleton].
    intros Hin. apply list_elem_of_singleton in Hin. discriminate. }
  assert (served (requests emptyWorld) url = Ok {| Entry.items := raw |}) as Hserved
    by reflexivity.
  split; [reflexivity|].
  split; [exact (proj1 (Hall raw))|].
  split; [exact Hnd|].
  split; [exact (proj2 (proj2 (proj2 (proj2 (Hall _)))) Hnd)|].
  split; [exact Hserved|].
  split; [exact (Hfirst Demo.limeplayConfig served emptyWorld _ Hserved)|].
  reflexivity.
Defined.

Section RunnerClaim.
Import SyncAll.
Variable REGISTRIES_DIR : string.
Variable env : Env.




End RunnerClaim.



Section PipelineClaims.
Variable config : Config.RegistryConfig.
Variable OUTPUT_DIR : string.
Variable httpIndex : nat -> string -> response Entry.RegistryIndex.
Variable httpItem : nat -> string -> response json.
Variable timestamp : string.
Variables startTime endTime : Z.
Variable exnMessage : js_exn -> string.
Variable sched : nat -> nat.

Local Abbreviation sync :=
  (Sync.sync config OUTPUT_DIR httpIndex httpItem timestamp startTime endTime exnMessage).
Local Abbreviation limeplay :=
  (Limeplay.main config OUTPUT_DIR httpIndex httpItem timestamp sched).
Local Abbreviation names := (map Entry.name).



(** C4, as the code has it.  [sync] builds its working set from the index
    entries as fetched by applying, in this order, the caller's [only] list
    when it is not empty, the configured [include] list when it is not
    empty, and the configured [exclude] list; the working set keeps the
    index order, and whatever [sync] reports as succeeded or failed is in
    it, with nothing reported as skipped.  The limeplay script applies the
    caller's list and the [exclude] list to the deduplicated index and never
    reads [include]; the aceternity script applies the caller's list alone. *)
Theorem working_set_filters :
  (forall (opts : Sync.SyncOptions) (items : list Entry.RegistryIndexItem),
     Sync.workingSet config opts items
       = filterChain (match Sync.only opts with [] => None | l => Some l end)
           (Config.include (Config.sync config))
           (Config.exclude (Config.sync config)) items
     /\ sublist (Sync.workingSet config opts items) items
     /\ forall e, e ∈ Sync.workingSet config opts items <->
          e ∈ items
          /\ (Sync.only opts = [] \/ Entry.name e ∈ Sync.only opts)
          /\ (Config.include (Config.sync config) = []
              \/ Entry.name e ∈ Config.include (Config.sync config))
          /\ Entry.name e ∉ Config.exclude (Config.sync config))
  /\ (forall (opts : Sync.SyncOptions) (w w1 : World)
        (items : list Entry.RegistryIndexItem) (res : Sync.SyncResult),
        Sync.fetchRegistryIndex config httpIndex w = (Ok items, w1) ->
        fst (sync opts w) = Resolved res ->
        (forall n, n ∈ Sync.success res -> n ∈ names (Sync.workingSet config opts items))
        /\ (forall f, f ∈ Sync.failed res ->
              Sync.name f ∈ names (Sync.workingSet config opts items))
        /\ Sync.skipped res = [])
  /\ (forall (only : option (list string)) (items : list Entry.RegistryIndexItem),
        Limeplay.workingSet config only items
          = filterChain only [] (Config.exclude (Config.sync config)) items
        /\ Aceternity.workingSet only items = filterChain only [] [] items)
  /\ (forall (w w1 : World) (items : list Entry.RegistryIndexItem),
        Limeplay.fetchRegistryIndex config httpIndex w = (Ok items, w1) ->
        exists raw, items = Limeplay.deduplicateItems raw).
Proof.
  split; [|split; [|split]].
  - intros opts items. split; [apply workingSet_filterChain|].
    split; [apply workingSet_sublist|]. intros e. apply workingSet_spec.
  - intros opts w w1 items res. apply sync_reports_working_set.
  - intros only items. split;
      [apply limeplay_workingSet_filterChain | apply aceternity_workingSet_filterChain].
  - intros w w1 items Hindex.
    by destruct (limeplay_index_deduplicated config httpIndex w w1 items Hindex).
Qed.


(** C7, as the code has it.  Take a working set whose names are pairwise
    distinct and hold no path separator.  When the detail of exactly one
    entry can never be fetched and every other entry's detail is served and
    well-formed, [sync] completes, reports the other entries as succeeded
    and that one as failed with the error of its fetch.  Every other entry
    that is not called [index] or [registry] has its file on disk, and the
    failing entry's file, unless the entry is called [index] or [registry],
    is left as it was: those two names are the names of the index files,
    which the run writes last.  The limeplay script, whatever the order in
    which its workers finish, fetches and saves every other component under
    the same provisos and exits with status 0; it records the failing entry
    by name, without the error. *)
Theorem failure_isolation :
  (forall (names_only : list string) (w w1 : World)
     (items : list Entry.RegistryIndexItem)
     (detail : string -> json) (bad err : string),
     let opts := {| Sync.only := names_only; Sync.dryRun := false |} in
     let filtered := Sync.workingSet config opts items in
     Sync.fetchRegistryIndex config httpIndex w = (Ok items, w1) ->
     NoDup (names filtered) ->
     (forall n, n ∈ names filtered -> has_slash n = false) ->
     bad ∈ names filtered ->
     (forall k n, n ∈ names filtered -> n <> bad ->
        httpItem k (Sync.detailUrl config n) = Ok (detail n)) ->
     (forall n, n ∈ names filtered -> n <> bad -> Validate.passes (detail n) = true) ->
     (forall k, httpItem k (Sync.detailUrl config bad) = Failed err) ->
     exists res,
       fst (sync opts w) = Resolved res
       /\ Sync.success res
          = List.filter (fun n => negb (String.eqb n bad)) (names filtered)
       /\ Sync.failed res = [{| Sync.name := bad; Sync.error := err |}]
       /\ Stats.synced (Sync.stats res) = (length filtered - 1)%nat
       /\ Stats.failed (Sync.stats res) = 1%nat
       /\ (forall n, n ∈ names filtered -> n <> bad ->
             n <> "index" -> n <> "registry" ->
             files (snd (sync opts w)) !! Sync.itemPath OUTPUT_DIR n = Some (detail n))
       /\ (bad <> "index" -> bad <> "registry" ->
             files (snd (sync opts w)) !! Sync.itemPath OUTPUT_DIR bad
             = files w !! Sync.itemPath OUTPUT_DIR bad))
  /\ (forall (only : option (list string)) (w w1 : World)
        (items : list Entry.RegistryIndexItem)
        (detail : string -> json) (bad err : string),
        let ws := Limeplay.workingSet config only items in
        let st := Limeplay.downloadComponents config httpItem sched items only w1 in
        Limeplay.fetchRegistryIndex config httpIndex w = (Ok items, w1) ->
        NoDup (names ws) ->
        (forall n, n ∈ names ws -> has_slash n = false) ->
        bad ∈ names ws ->
        (forall k n, n ∈ names ws -> n <> bad ->
           httpItem k (Limeplay.componentUrl config n) = Ok (detail n)) ->
        (forall n, n ∈ names ws -> n <> bad ->
           truthy (Some (detail n)) = true /\ Limeplay.nameOf (detail n) = Some n) ->
        (forall k, httpItem k (Limeplay.componentUrl config bad) = Failed err) ->
        Limeplay.failed st = [bad]
        /\ Limeplay.results st
           ≡ₚ map detail (List.filter (fun n => negb (String.eqb n bad)) (names ws))
        /\ fst (limeplay only false w) = 0
        /\ (forall n, n ∈ names ws -> n <> bad -> n <> "index" -> n <> "registry" ->
              files (snd (limeplay only false w)) !! joinPath OUTPUT_DIR (n +:+ ".json")
              = Some (detail n))
        /\ (bad <> "index" -> bad <> "registry" ->
              files (snd (limeplay only false w)) !! joinPath OUTPUT_DIR (bad +:+ ".json")
              = files w !! joinPath OUTPUT_DIR (bad +:+ ".json"))).
Proof.
  split.
  - intros names_only w w1 items detail bad err. apply sync_isolates_failure.
  - intros only w w1 items detail bad err. apply limeplay_isolates_failure.
Qed.

End PipelineClaims.

(** ** The claims on sample runs *)





(** The caller's list is all that the aceternity script applies (on the
    entries a, b, c with only = a, b and exclude = b it keeps b), the
    limeplay script never reads [include], and neither the aceternity script
    nor [sync] removes a repeated name. *)
Lemma standalone_scripts_skip_filters :
  let entries := map Demo.entry ["a"; "b"; "c"] in
  let twice := map Demo.entry ["a"; "a"] in
  filterChain (Some ["a"; "b"]) [] ["b"] entries = [Demo.entry "a"]
  /\ Aceternity.workingSet (Some ["a"; "b"]) entries = map Demo.entry ["a"; "b"]
  /\ filterChain None ["a"] [] entries = [Demo.entry "a"]
  /\ Limeplay.workingSet (Demo.configWith ["a"] [] true) None entries = entries
  /\ fst (Aceternity.fetchRegistryIndex (Demo.configWith [] [] true)
            (Demo.indexOf ["a"; "a"]) emptyWorld) = Ok twice
  /\ Aceternity.workingSet None twice = twice
  /\ fst (Sync.fetchRegistryIndex (Demo.configWith [] [] true)
            (Demo.indexOf ["a"; "a"]) emptyWorld) = Ok twice
  /\ Sync.workingSet (Demo.configWith [] [] true) Demo.normal twice = twice
  /\ filterChain None [] [] (Limeplay.deduplicateItems twice) = [Demo.entry "a"].
Proof. vm_compute. repeat split. Qed.

(** The example of the filter chain, run through [sync] and through the
    limeplay script. *)
Lemma working_set_filters_witness :
  let cfg := Demo.configWith [] ["b"] true in
  let opts := {| Sync.only := ["a"; "b"]; Sync.dryRun := false |} in
  let entries := map Demo.entry ["a"; "b"; "c"] in
  let w1 := snd (Sync.fetchRegistryIndex cfg (Demo.indexOf ["a"; "b"; "c"]) emptyWorld) in
  let run := Demo.sync cfg ["a"; "b"; "c"] [("a", Ok (Demo.item "a"))] opts in
  Sync.workingSet cfg opts entries = [Demo.entry "a"]
  /\ Limeplay.workingSet cfg (Some ["a"; "b"]) entries = [Demo.entry "a"]
  /\ Sync.fetchRegistryIndex cfg (Demo.indexOf ["a"; "b"; "c"]) emptyWorld
     = (Ok entries, w1)
  /\ exists res,
       fst run = Resolved res
       /\ (forall n, n ∈ Sync.success res ->
             n ∈ map Entry.name (Sync.workingSet cfg opts entries))
       /\ (forall f, f ∈ Sync.failed res ->
             Sync.name f ∈ map Entry.name (Sync.workingSet cfg opts entries))
       /\ Sync.skipped res = []
       /\ Sync.success res = ["a"]
       /\ Sync.failed res = [].
Proof.
  intros cfg opts entries w1 run.
  destruct (working_set_filters cfg "out" (Demo.indexOf ["a"; "b"; "c"])
              (Demo.upstream [("a", Ok (Demo.item "a"))]) Demo.timestamp 0 1500
              Demo.exnMessage) as (Hchain & Hreport & Hscripts & _).
  assert (Sync.fetchRegistryIndex cfg (Demo.indexOf ["a"; "b"; "c"]) emptyWorld
          = (Ok entries, w1)) as Hindex by reflexivity.
  split; [rewrite (proj1 (Hchain opts entries)); reflexivity|].
  split; [rewrite (proj1 (Hscripts (Some ["a"; "b"]) entries)); reflexivity|].
  split; [exact Hindex|].
  eexists. split; [reflexivity|].
  destruct (Hreport opts emptyWorld w1 entries _ Hindex eq_refl) as (Hs & Hf & Hk).
  split; [exact Hs|]. split; [exact Hf|]. split; [exact Hk|]. split; reflexivity.
Defined.


(** When the index names a twice and only the first of the two downloads
    succeeds, the aggregate index of [sync] counts one item and lists both
    entries: items are picked by name. *)
Example sync_index_lists_by_name :
  let cfg := Demo.configWith [] [] true in
  let once := fun (k : nat) (_ : string) =>
    if (k <? 2)%nat then Ok (Demo.item "a")
    else Failed "HTTP 500: Internal Server Error" in
  let run :=
    Sync.sync cfg "out" (Demo.indexOf ["a"; "a"]) once Demo.timestamp 0 1500
      Demo.exnMessage Demo.normal emptyWorld in
  (exists stats,
     fst run =
     Resolved {| Sync.success := ["a"];
                 Sync.failed := [{| Sync.name := "a";
                                    Sync.error := "HTTP 500: Internal Server Error" |}];
                 Sync.skipped := [];
                 Sync.stats := stats |})
  /\ (indexNames <$> files (snd run) !! "out/index.json") = Some ["a"; "a"]
  /\ (files (snd run) !! "out/index.json" ≫= fun index => field index "itemCount")
     = Some (JNum 1).
Proof. vm_compute. split; [by eexists|]. split; reflexivity. Qed.


(** The limeplay script run against two upstreams that differ in the error
    of item3 alone: the two runs are one and the same, and the entry is
    recorded by its name. *)
Lemma limeplay_drops_error_message :
  let cfg := Demo.configWith [] [] true in
  let download err :=
    Limeplay.downloadComponents cfg (Demo.upstream (Demo.fiveReplies err)) Demo.fifo
      (map Demo.entry Demo.five) None emptyWorld in
  Demo.limeplay cfg Demo.five (Demo.fiveReplies "HTTP 404: Not Found") None false
  = Demo.limeplay cfg Demo.five (Demo.fiveReplies "HTTP 500: Internal Server Error")
      None false
  /\ download "HTTP 404: Not Found" = download "HTTP 500: Internal Server Error"
  /\ Limeplay.failed (download "HTTP 404: Not Found") = ["item3"]
  /\ Limeplay.results (download "HTTP 404: Not Found")
     = map Demo.item ["item1"; "item2"; "item4"; "item5"].
Proof. vm_compute. repeat split. Qed.

(** [sync] over five entries, the third of which is answered 404 at every
    attempt. *)
Lemma failure_isolation_witness :
  let cfg := Demo.configWith [] [] true in
  let run := Demo.sync cfg Demo.five (Demo.fiveReplies "HTTP 404: Not Found") Demo.normal in
  exists res,
    fst run = Resolved res
    /\ Sync.success res = ["item1"; "item2"; "item4"; "item5"]
    /\ Sync.failed res
       = [{| Sync.name := "item3"; Sync.error := "HTTP 404: Not Found" |}]
    /\ Stats.synced (Sync.stats res) = 4%nat
    /\ Stats.failed (Sync.stats res) = 1%nat
    /\ files (snd run) !! "out/item1.json" = Some (Demo.item "item1")
    /\ files (snd run) !! "out/item2.json" = Some (Demo.item "item2")
    /\ files (snd run) !! "out/item4.json" = Some (Demo.item "item4")
    /\ files (snd run) !! "out/item5.json" = Some (Demo.item "item5")
    /\ files (snd run) !! "out/item3.json" = None.
Proof.
  intros cfg run.
  destruct (failure_isolation cfg "out" (Demo.indexOf Demo.five)
              (Demo.upstream (Demo.fiveReplies "HTTP 404: Not Found"))
              Demo.timestamp 0 1500 Demo.exnMessage Demo.fifo) as [Hsync _].
  assert (forall n : string, n ∈ Demo.five -> n <> "item3" ->
            n = "item1" \/ n = "item2" \/ n = "item4" \/ n = "item5") as Hcases.
  { intros n Hn Hne. unfold Demo.five in Hn.
    repeat (apply elem_of_cons in Hn as [Hn|Hn]; [auto; try done|]).
    by apply elem_of_nil in Hn. }
  destruct (Hsync [] emptyWorld
              (snd (Sync.fetchRegistryIndex cfg (Demo.indexOf Demo.five) emptyWorld))
              (map Demo.entry Demo.five) Demo.item "item3" "HTTP 404: Not Found")
    as (res & Hres & Hs & Hf & Hn & Hfn & Hfiles & Hbad).
  - reflexivity.
  - change (NoDup Demo.five). unfold Demo.five.
    repeat (apply NoDup_cons; split;
            [intros Hin; repeat (apply elem_of_cons in Hin as [Hin|Hin]; [discriminate|]);
             by apply elem_of_nil in Hin|]).
    apply NoDup_nil_2.
  - intros n Hin. change (n ∈ Demo.five) in Hin. unfold Demo.five in Hin.
    repeat (apply elem_of_cons in Hin as [->|Hin]; [reflexivity|]).
    by apply elem_of_nil in Hin.
  - change ("item3" ∈ Demo.five). unfold Demo.five.
    do 2 apply list_elem_of_further. apply list_elem_of_here.
  - intros k n Hin Hne.
    destruct (Hcases n Hin Hne) as [->|[->|[->| ->]]]; reflexivity.
  - intros n Hin Hne.
    destruct (Hcases n Hin Hne) as [->|[->|[->| ->]]]; reflexivity.
  - intros k. reflexivity.
  - exists res. split; [exact Hres|]. split; [exact Hs|]. split; [exact Hf|].
    split; [exact Hn|]. split; [exact Hfn|].
    assert (forall n : string, n ∈ Demo.five -> n <> "item3" ->
              files (snd run) !! joinPath "out" (n +:+ ".json") = Some (Demo.item n))
      as Hfile.
    { intros n Hin Hne. apply Hfiles; [exact Hin|exact Hne| |];
        destruct (Hcases n Hin Hne) as [->|[->|[->| ->]]]; discriminate. }
    unfold Demo.five in Hfile.
    split; [apply (Hfile "item1"); [apply list_elem_of_here|discriminate]|].
    split; [apply (Hfile "item2");
            [apply list_elem_of_further, list_elem_of_here|discriminate]|].
    split; [apply (Hfile "item4");
            [do 3 apply list_elem_of_further; apply list_elem_of_here|discriminate]|].
    split; [apply (Hfile "item5");
            [do 4 apply list_elem_of_further; apply list_elem_of_here|discriminate]|].
    exact (Hbad ltac:(discriminate) ltac:(discriminate)).
Defined.

(** * Further properties of the scripts *)

(** ** Strings *)

Section TextFacts.

Lemma length_substring (s : string) :
  forall n m, String.length (String.substring n m s) = Nat.min m (String.length s - n).
Proof.
  induction s as [|c s IH]; intros n m.
  - destruct n, m; reflexivity.
  - destruct n as [|n]; [destruct m as [|m]; [reflexivity|]|].
    + cbn [String.substring String.length]. rewrite IH. cbn. lia.
    + cbn [String.substring String.length]. rewrite IH. reflexivity.
Qed.

Lemma substring_all (s : string) : String.substring 0 (String.length s) s = s.
Proof. induction s as [|c s IH]; [reflexivity|]. cbn. by rewrite IH. Qed.

End TextFacts.

(** ** shared/utils.ts: [slugify] and [truncate] *)

Section SlugFacts.
Import Utils.

Lemma isSlugChar_not_hyphen (c : ascii) : isSlugChar c = true -> Ascii.eqb c "-" = false.
Proof. destruct (Ascii.eqb_spec c "-") as [->|]; [discriminate|reflexivity]. Qed.

Lemma isSlugChar_lowerChar (c : ascii) : isSlugChar c = true -> Text.lowerChar c = c.
Proof. destruct c as [[] [] [] [] [] [] [] []]; first [reflexivity|discriminate]. Qed.

Lemma dropFinalHyphen_cons (c : ascii) (s : string) :
  Ascii.eqb c "-" = false \/ s <> EmptyString ->
  dropFinalHyphen (String c s) = String c (dropFinalHyphen s).
Proof.
  intros H. destruct s as [|d s]; [|reflexivity].
  destruct H as [H|H]; [|done]. cbn. by rewrite H.
Qed.

Lemma replaceRuns_slug (s : string) :
  isSlugFrom true (dropFinalHyphen (replaceRuns false s)) = true
  /\ (replaceRuns true s = EmptyString
      \/ isSlugFrom false (dropFinalHyphen (replaceRuns true s)) = true).
Proof.
  induction s as [|c s [IHa IHb]]; [split; [reflexivity|by left]|].
  cbn [replaceRuns]. destruct (isSlugChar c) eqn:Hc.
  - pose proof (isSlugChar_not_hyphen c Hc) as Hh.
    rewrite dropFinalHyphen_cons by (by left).
    cbn [isSlugFrom]. rewrite Hc. split; [done|]. by right.
  - split; [|done].
    destruct IHb as [Hnil|Hslug].
    + rewrite Hnil. reflexivity.
    + rewrite dropFinalHyphen_cons.
      * cbn [isSlugFrom]. by rewrite Hslug.
      * right. intros Hnil. rewrite Hnil in Hslug. discriminate.
Qed.

Lemma slugify_isSlug (str : string) : isSlug (slugify str) = true.
Proof.
  unfold slugify. destruct (Text.toLowerCase str) as [|c s]; [reflexivity|].
  cbn [replaceRuns]. destruct (isSlugChar c) eqn:Hc.
  - pose proof (isSlugChar_not_hyphen c Hc) as Hh.
    cbn [stripHyphens]. rewrite Hh. rewrite dropFinalHyphen_cons by (by left).
    cbn [isSlug isSlugFrom]. rewrite Hc. apply replaceRuns_slug.
  - cbn [stripHyphens]. change (Ascii.eqb "-" "-") with true. cbn match.
    destruct (proj2 (replaceRuns_slug s)) as [->|Hslug]; [reflexivity|].
    unfold isSlug. by destruct (dropFinalHyphen _).
Qed.

Lemma isSlugFrom_lower (s : string) :
  forall prev, isSlugFrom prev s = true -> Text.toLowerCase s = s.
Proof.
  induction s as [|c s IH]; intros prev H; [reflexivity|].
  cbn [isSlugFrom] in H. cbn [Text.toLowerCase].
  destruct (isSlugChar c) eqn:Hc.
  - rewrite (isSlugChar_lowerChar c Hc). f_equal. by eapply IH.
  - apply andb_true_iff in H as [H Hrest]. apply andb_true_iff in H as [Hh _].
    apply Ascii.eqb_eq in Hh. subst c. f_equal. by eapply IH.
Qed.

Lemma isSlugFrom_replaceRuns (s : string) :
  forall prev inRun,
    isSlugFrom prev s = true -> (prev = true -> inRun = false) ->
    replaceRuns inRun s = s.
Proof.
  induction s as [|c s IH]; intros prev inRun H Hrun; [reflexivity|].
  cbn [isSlugFrom] in H. cbn [replaceRuns].
  destruct (isSlugChar c) eqn:Hc.
  - f_equal. by apply (IH true).
  - apply andb_true_iff in H as [H Hrest]. apply andb_true_iff in H as [Hh Hprev].
    apply Ascii.eqb_eq in Hh. subst c. rewrite (Hrun Hprev).
    f_equal. by apply (IH false).
Qed.

Lemma isSlugFrom_dropFinalHyphen (s : string) :
  forall prev, isSlugFrom prev s = true -> dropFinalHyphen s = s.
Proof.
  induction s as [|c s IH]; intros prev H; [reflexivity|].
  cbn [isSlugFrom] in H. destruct (isSlugChar c) eqn:Hc.
  - rewrite dropFinalHyphen_cons by (left; by apply isSlugChar_not_hyphen).
    f_equal. by eapply IH.
  - apply andb_true_iff in H as [H Hrest].
    rewrite dropFinalHyphen_cons.
    + f_equal. by eapply IH.
    + right. intros ->. discriminate.
Qed.

Lemma isSlug_slugify (s : string) : isSlug s = true -> slugify s = s.
Proof.
  destruct s as [|c s]; [reflexivity|]. intros H. unfold isSlug in H.
  unfold slugify. rewrite (isSlugFrom_lower _ _ H).
  rewrite (isSlugFrom_replaceRuns _ false false H) by done.
  cbn [isSlugFrom] in H. destruct (isSlugChar c) eqn:Hc.
  - cbn [stripHyphens]. rewrite (isSlugChar_not_hyphen c Hc).
    apply (isSlugFrom_dropFinalHyphen _ false). cbn [isSlugFrom]. by rewrite Hc.
  - apply andb_true_iff in H as [H _]. apply andb_true_iff in H as [_ H]. discriminate.
Qed.

Lemma isSlug_head (c : ascii) (s : string) :
  isSlug (String c s) = true -> isSlugChar c = true.
Proof.
  cbn. destruct (isSlugChar c); [done|]. rewrite andb_false_r. done.
Qed.

Lemma isSlugFrom_endsWith (s : string) :
  forall prev, isSlugFrom prev s = true -> s <> EmptyString -> Text.endsWith s "-" = false.
Proof.
  induction s as [|c s IH]; intros prev H Hne; [done|].
  cbn [isSlugFrom] in H. cbn [Text.endsWith].
  assert (isSlugFrom (isSlugChar c) s = true) as Hrest.
  { destruct (isSlugChar c); [done|]. by apply andb_true_iff in H as [_ H]. }
  destruct s as [|d s].
  - cbn in Hrest. cbn. destruct (Ascii.eqb_spec c "-") as [->|]; [discriminate|].
    by rewrite orb_false_r.
  - rewrite (IH _ Hrest) by done. rewrite orb_false_r.
    cbn. destruct (Ascii.eqb c "-"); [|done]. by destruct s.
Qed.

Lemma hasSlugChar_replaceRuns (s : string) :
  forall inRun,
    existsb isSlugChar (list_ascii_of_string (replaceRuns inRun s))
    = existsb isSlugChar (list_ascii_of_string s).
Proof.
  induction s as [|c s IH]; intros inRun; [reflexivity|].
  cbn [replaceRuns list_ascii_of_string existsb].
  destruct (isSlugChar c) eqn:Hc.
  - cbn [list_ascii_of_string existsb]. by rewrite Hc.
  - destruct inRun; [apply IH|]. cbn [list_ascii_of_string existsb].
    change (isSlugChar "-") with false. apply IH.
Qed.

Lemma hasSlugChar_dropFinalHyphen (s : string) :
  existsb isSlugChar (list_ascii_of_string (dropFinalHyphen s))
  = existsb isSlugChar (list_ascii_of_string s).
Proof.
  induction s as [|c s IH]; [reflexivity|].
  destruct s as [|d s].
  - cbn. destruct (Ascii.eqb_spec c "-") as [->|]; reflexivity.
  - rewrite dropFinalHyphen_cons by (by right).
    cbn [list_ascii_of_string existsb] in *. by rewrite IH.
Qed.

Lemma hasSlugChar_stripHyphens (s : string) :
  existsb isSlugChar (list_ascii_of_string (stripHyphens s))
  = existsb isSlugChar (list_ascii_of_string s).
Proof.
  destruct s as [|c s]; [reflexivity|]. cbn [stripHyphens].
  destruct (Ascii.eqb_spec c "-") as [->|]; rewrite hasSlugChar_dropFinalHyphen;
    reflexivity.
Qed.

Lemma isSlugFrom_hasSlugChar (s : string) :
  forall prev, isSlugFrom prev s = true -> s <> EmptyString ->
    existsb isSlugChar (list_ascii_of_string s) = true.
Proof.
  induction s as [|c s IH]; intros prev H Hne; [done|].
  cbn [isSlugFrom] in H. cbn [list_ascii_of_string existsb].
  destruct (isSlugChar c); [done|]. apply andb_true_iff in H as [_ H].
  cbn [orb]. apply (IH false H). intros ->. discriminate.
Qed.

(** X1.  The result of [slugify] is a slug: lower-case letters and digits in
    groups joined by single hyphens, with no hyphen at either end.  It is
    empty exactly when the lower-cased input has no letter or digit. *)
Theorem slugify_is_slug (str : string) :
  isSlug (slugify str) = true
  /\ Text.startsWith (slugify str) "-" = false
  /\ Text.endsWith (slugify str) "-" = false
  /\ (slugify str = EmptyString <->
      existsb isSlugChar (list_ascii_of_string (Text.toLowerCase str)) = false).
Proof.
  pose proof (slugify_isSlug str) as Hslug.
  assert (existsb isSlugChar (list_ascii_of_string (slugify str))
          = existsb isSlugChar (list_ascii_of_string (Text.toLowerCase str))) as Hhas.
  { unfold slugify. by rewrite hasSlugChar_stripHyphens, hasSlugChar_replaceRuns. }
  split; [done|]. destruct (slugify str) as [|c s] eqn:Hs; [by repeat split|].
  pose proof (isSlug_head c s Hslug) as Hc.
  split; [|split].
  - rewrite startsWith_char. destruct (Ascii.eqb_spec "-" c) as [<-|]; [discriminate|done].
  - by apply (isSlugFrom_endsWith _ false).
  - split; [discriminate|]. intros Hnone. rewrite <- Hhas in Hnone.
    rewrite (isSlugFrom_hasSlugChar _ false) in Hnone; done.
Qed.

(** X2.  The strings that [slugify] leaves as they are are exactly the slugs,
    and [slugify] is idempotent. *)
Theorem slugify_fixed_points :
  (forall s, slugify s = s <-> isSlug s = true)
  /\ (forall str, slugify (slugify str) = slugify str).
Proof.
  split.
  - intros s. split; [|apply isSlug_slugify].
    intros H. rewrite <- H. apply slugify_isSlug.
  - intros str. apply isSlug_slugify, slugify_isSlug.
Qed.

(** X3.  A directory named by [slugify] is never hidden from [getRegistryNames]:
    a slug starts with neither an underscore nor a dot. *)
Theorem slugified_registry_is_listed (str : string) (entries : list Dirent) :
  {| name := slugify str; isDirectory := true |} ∈ entries ->
  slugify str ∈ getRegistryNames entries.
Proof.
  intros Hin. unfold getRegistryNames, listDirectories.
  apply elem_of_List_filter. split.
  - apply list_elem_of_fmap. exists {| name := slugify str; isDirectory := true |}.
    split; [done|]. by apply elem_of_List_filter.
  - pose proof (slugify_isSlug str) as Hslug.
    destruct (slugify str) as [|c s]; [reflexivity|].
    pose proof (isSlug_head c s Hslug) as Hc.
    rewrite !startsWith_char.
    destruct (Ascii.eqb_spec "_" c) as [<-|]; [discriminate|].
    destruct (Ascii.eqb_spec "." c) as [<-|]; [discriminate|]. reflexivity.
Qed.

End SlugFacts.

Lemma slugified_registry_is_listed_witness :
  Utils.slugify "My Registry_UI!" = "my-registry-ui"
  /\ "my-registry-ui"
     ∈ Utils.getRegistryNames
         [ {| Utils.name := "_template"; Utils.isDirectory := true |};
           {| Utils.name := "README.md"; Utils.isDirectory := false |};
           {| Utils.name := "my-registry-ui"; Utils.isDirectory := true |} ].
Proof.
  split; [reflexivity|].
  apply (slugified_registry_is_listed "My Registry_UI!").
  do 2 apply list_elem_of_further. apply list_elem_of_here.
Defined.

Section TruncateFacts.
Import Utils.

(** X4.  [truncate] returns a string within the limit as it is; a longer one is
    cut to exactly [maxLength] units, the last three being dots, when
    [maxLength] is 3 or more; below 3 the negative end position counts from
    the end of the string and the result is longer than the limit. *)
Theorem truncate_length (str : string) (maxLength : Z) :
  let len := Z.of_nat (String.length str) in
  let out := Z.of_nat (String.length (truncate str maxLength)) in
  (len <= maxLength -> truncate str maxLength = str)
  /\ (maxLength < len -> 3 <= maxLength ->
        out = maxLength
        /\ truncate str maxLength
           = String.substring 0 (Z.to_nat (maxLength - 3)) str +:+ "...")
  /\ (maxLength < len -> maxLength < 3 ->
        out = Z.max (len + maxLength - 3) 0 + 3 /\ maxLength < out).
Proof.
  intros len out. subst len out. unfold truncate.
  destruct (Z.leb_spec (Z.of_nat (String.length str)) maxLength) as [Hle|Hlt].
  - split; [done|]. split; intros; lia.
  - split; [lia|]. unfold Text.slice. cbn [from_option]. unfold id.
    change (0 <? 0) with false. cbv zeta.
    rewrite (Z.min_l 0) by lia. change (Z.to_nat 0) with 0%nat.
    rewrite Z.sub_0_r.
    split; intros _ Hm.
    + replace (maxLength - 3 <? 0) with false by (symmetry; apply Z.ltb_ge; lia).
      rewrite Z.min_l by lia. rewrite Z.max_l by lia.
      split; [|done]. rewrite length_append, length_substring. cbn [String.length]. lia.
    + replace (maxLength - 3 <? 0) with true by (symmetry; apply Z.ltb_lt; lia).
      rewrite Z.max_l by lia.
      rewrite length_append, length_substring. cbn [String.length]. lia.
Qed.

End TruncateFacts.

Lemma truncate_length_witness :
  Utils.truncate "registry" 8 = "registry"
  /\ Utils.truncate "registries" 8 = "regis..."
  /\ Utils.truncate "registries" 2 = "registrie..."
  /\ Utils.truncate "ab" 0 = "...".
Proof.
  destruct (truncate_length "registry" 8) as (Hsame & _).
  destruct (truncate_length "registries" 8) as (_ & Hcut & _).
  split; [apply Hsame; cbn; lia|].
  split; [exact (proj2 (Hcut ltac:(cbn; lia) ltac:(lia)))|].
  split; reflexivity.
Defined.

(** ** Command lines: scripts/sync-registry.ts and the scripts it starts *)

Section CliFacts.
Import Cli.

Lemma split_free (sep : ascii) (s : string) :
  hasChar sep s = false -> Text.split sep s = [s].
Proof.
  induction s as [|c s IH]; [done|]. cbn. intros H.
  apply orb_false_iff in H as [Hc Hs]. by rewrite Hc, (IH Hs).
Qed.

Lemma split_at (sep : ascii) (a b : string) :
  hasChar sep a = false ->
  Text.split sep (a +:+ String sep b) = a :: Text.split sep b.
Proof.
  induction a as [|c a IH]; intros H.
  - rewrite append_nil_l. cbn [Text.split]. by rewrite Ascii.eqb_refl.
  - cbn [hasChar] in H. apply orb_false_iff in H as [Hc Ha].
    rewrite append_cons. cbn [Text.split]. by rewrite Hc, (IH Ha).
Qed.

Lemma split_parts_free (sep : ascii) (s : string) :
  Forall (fun part => hasChar sep part = false) (Text.split sep s).
Proof.
  induction s as [|c s IH]; [by repeat constructor|].
  cbn [Text.split]. destruct (Ascii.eqb c sep) eqn:Hc; [by constructor|].
  destruct (Text.split sep s) as [|part parts]; [by repeat constructor; cbn; rewrite Hc|].
  apply Forall_cons in IH as [Hpart Hparts].
  constructor; [|done]. cbn. by rewrite Hc, Hpart.
Qed.

Lemma split_join (sep : ascii) (l : list string) :
  l <> [] -> Forall (fun part => hasChar sep part = false) l ->
  Text.split sep (join (String sep EmptyString) l) = l.
Proof.
  induction l as [|p l IH]; [done|]. intros _ Hall.
  apply Forall_cons in Hall as [Hp Hl].
  destruct l as [|q l]; [by apply split_free|].
  change (join (String sep "") (p :: q :: l))
    with (p +:+ String sep "" +:+ join (String sep "") (q :: l)).
  rewrite append_cons, append_nil_l, (split_at _ _ _ Hp). f_equal. by apply IH.
Qed.

Lemma hasChar_trimStart (c : ascii) (s : string) :
  hasChar c s = false -> hasChar c (Text.trimStart s) = false.
Proof.
  induction s as [|d s IH]; [done|]. intros H. cbn [Text.trimStart].
  destruct (Text.isWhiteSpace d); [|done].
  cbn [hasChar] in H. apply orb_false_iff in H as [_ H]. by apply IH.
Qed.

Lemma hasChar_trimEnd (c : ascii) (s : string) :
  hasChar c s = false -> hasChar c (Text.trimEnd s) = false.
Proof.
  induction s as [|d s IH]; [done|]. intros H. cbn [Text.trimEnd].
  cbn [hasChar] in H. apply orb_false_iff in H as [Hd Hs].
  specialize (IH Hs). destruct (Text.trimEnd s) as [|e kept].
  - destruct (Text.isWhiteSpace d); [done|]. cbn. by rewrite Hd.
  - cbn [hasChar]. cbn [hasChar] in IH. by rewrite Hd, IH.
Qed.

Lemma trimEnd_idem (s : string) : Text.trimEnd (Text.trimEnd s) = Text.trimEnd s.
Proof.
  induction s as [|c s IH]; [done|]. cbn [Text.trimEnd].
  destruct (Text.trimEnd s) as [|d kept] eqn:Hk.
  - destruct (Text.isWhiteSpace c) eqn:Hc; [done|]. cbn [Text.trimEnd]. by rewrite Hc.
  - change (Text.trimEnd (String c (String d kept)))
      with (match Text.trimEnd (String d kept) with
            | EmptyString =>
                if Text.isWhiteSpace c then EmptyString else String c EmptyString
            | kept' => String c kept'
            end).
    by rewrite IH.
Qed.

Lemma trimEnd_head (c : ascii) (s : string) :
  Text.isWhiteSpace c = false ->
  exists kept, Text.trimEnd (String c s) = String c kept.
Proof.
  intros Hc. cbn [Text.trimEnd]. destruct (Text.trimEnd s) as [|d kept].
  - rewrite Hc. by eexists.
  - by eexists.
Qed.

Lemma trimStart_head (s : string) :
  Text.trimStart s = EmptyString
  \/ exists c rest, Text.trimStart s = String c rest /\ Text.isWhiteSpace c = false.
Proof.
  induction s as [|c s IH]; [by left|]. cbn [Text.trimStart].
  destruct (Text.isWhiteSpace c) eqn:Hc; [done|]. right. by eexists _, _.
Qed.

Lemma trim_idem (s : string) : Text.trim (Text.trim s) = Text.trim s.
Proof.
  unfold Text.trim. destruct (trimStart_head s) as [->|(c & rest & -> & Hc)]; [done|].
  destruct (trimEnd_head c rest Hc) as (kept & Hkept).
  assert (Text.trimStart (Text.trimEnd (String c rest)) = Text.trimEnd (String c rest))
    as ->.
  { rewrite Hkept. cbn [Text.trimStart]. by rewrite Hc. }
  apply trimEnd_idem.
Qed.

Lemma hasChar_trim (c : ascii) (s : string) :
  hasChar c s = false -> hasChar c (Text.trim s) = false.
Proof. intros H. by apply hasChar_trimEnd, hasChar_trimStart. Qed.

Lemma onlyNames_clean (arg : string) : Forall clean (onlyNames arg).
Proof.
  unfold onlyNames. apply Forall_fmap.
  eapply Forall_impl; [apply split_parts_free|].
  intros part Hpart. split; [by apply hasChar_trim|apply trim_idem].
Qed.

Lemma prefix_append (p s : string) : String.prefix p (p +:+ s) = true.
Proof.
  induction p as [|c p IH]; [by destruct s|].
  rewrite append_cons. cbn [String.prefix]. by destruct (ascii_dec c c).
Qed.

Lemma substring_drop (p s : string) :
  String.substring (String.length p) (String.length s) (p +:+ s) = s.
Proof.
  induction p as [|c p IH]; [apply substring_all|].
  rewrite append_cons. cbn [String.length String.substring]. exact IH.
Qed.

Lemma slice_drop (p s : string) :
  Text.slice (p +:+ s) (Z.of_nat (String.length p)) None = s.
Proof.
  unfold Text.slice. cbn [from_option]. unfold id. rewrite length_append.
  replace (Z.of_nat (String.length p) <? 0) with false by (symmetry; apply Z.ltb_ge; lia).
  replace (Z.of_nat (String.length p + String.length s) <? 0) with false
    by (symmetry; apply Z.ltb_ge; lia).
  rewrite Z.min_id, Z.min_l by lia. rewrite Nat2Z.id.
  replace (Z.to_nat _) with (String.length s) by lia.
  apply substring_drop.
Qed.

Lemma onlyNames_flag (l : list string) :
  l <> [] -> Forall clean l -> onlyNames ("--only=" +:+ join "," l) = l.
Proof.
  intros Hne Hclean. unfold onlyNames.
  pose proof (slice_drop "--only=" (join "," l)) as Hslice.
  change (Z.of_nat (String.length "--only=")) with 7 in Hslice. rewrite Hslice.
  rewrite split_join; [|done|by eapply Forall_impl; [exact Hclean|]; intros n [Hn _]].
  clear Hne Hslice. induction Hclean as [|n l [_ Hn] _ IH]; [done|].
  cbn [map]. by rewrite Hn, IH.
Qed.

End CliFacts.

Section ParseFacts.
Import Cli.

Local Abbreviation positional := (fun arg : string => negb (Text.startsWith arg "-")).
Local Abbreviation onlyOf :=
  (fun args : list string => concat (map onlyNames (List.filter isOnly args))).

Lemma includes_cons (l : list string) (x s : string) :
  includes (x :: l) s = String.eqb x s || includes l s.
Proof. unfold includes. cbn [existsb]. by rewrite String.eqb_sym. Qed.

Lemma isOnly_dash (arg : string) : isOnly arg = true -> Text.startsWith arg "-" = true.
Proof.
  destruct arg as [|c s]; [done|]. unfold isOnly, Text.startsWith.
  cbn [String.prefix]. destruct (ascii_dec "-" c) as [<-|]; [|done].
  intros _. by destruct s.
Qed.

Lemma last_filter_cons {A : Type} (p : A -> bool) (x : A) (l : list A) (d : option A) :
  match last (List.filter p (x :: l)) with Some y => Some y | None => d end
  = match last (List.filter p l) with
    | Some y => Some y
    | None => if p x then Some x else d
    end.
Proof.
  cbn [List.filter]. destruct (p x); [|done].
  rewrite last_cons. by destruct (last (List.filter p l)).
Qed.

Lemma syncRegistry_fold (args : list string) :
  forall a : SyncRegistry.Args,
    fold_left SyncRegistry.parseArg args a
    = {| SyncRegistry.registry :=
           match last (List.filter positional args) with
           | Some r => Some r
           | None => SyncRegistry.registry a
           end;
         SyncRegistry.dryRun := SyncRegistry.dryRun a || includes args "--dry-run";
         SyncRegistry.only := SyncRegistry.only a ++ onlyOf args;
         SyncRegistry.help :=
           SyncRegistry.help a || includes args "--help" || includes args "-h" |}.
Proof.
  induction args as [|arg args IH]; intros a.
  - destruct a. cbn. by rewrite !orb_false_r, app_nil_r.
  - cbn [fold_left]. rewrite IH. rewrite (last_filter_cons positional).
    rewrite !includes_cons. unfold SyncRegistry.parseArg.
    destruct (String.eqb_spec arg "--dry-run") as [->|Hdry].
    { cbn [SyncRegistry.registry SyncRegistry.dryRun SyncRegistry.only SyncRegistry.help].
      change (positional "--dry-run") with false.
      change (List.filter isOnly ("--dry-run" :: args)) with (List.filter isOnly args).
      change ("--dry-run" =? "--help")%string with false.
      change ("--dry-run" =? "-h")%string with false.
      cbn [orb]. f_equal. by rewrite orb_true_r. }
    destruct (String.eqb_spec arg "--help") as [->|Hhelp].
    { cbn [orb SyncRegistry.registry SyncRegistry.dryRun SyncRegistry.only
           SyncRegistry.help].
      change (positional "--help") with false.
      change (List.filter isOnly ("--help" :: args)) with (List.filter isOnly args).
      f_equal. by rewrite !orb_true_r. }
    destruct (String.eqb_spec arg "-h") as [->|Hh].
    { cbn [orb SyncRegistry.registry SyncRegistry.dryRun SyncRegistry.only
           SyncRegistry.help].
      change (positional "-h") with false.
      change (List.filter isOnly ("-h" :: args)) with (List.filter isOnly args).
      f_equal. by rewrite !orb_true_r. }
    cbn [orb List.filter].
    fold (isOnly arg). destruct (isOnly arg) eqn:Honly.
    + rewrite (isOnly_dash arg Honly).
      cbn [negb SyncRegistry.registry SyncRegistry.dryRun SyncRegistry.only
           SyncRegistry.help map concat].
      f_equal. by rewrite app_assoc.
    + destruct (Text.startsWith arg "-"); cbn [negb]; [done|].
      cbn [SyncRegistry.registry SyncRegistry.dryRun SyncRegistry.only
           SyncRegistry.help].
      reflexivity.
Qed.

Lemma syncCli_fold (args : list string) :
  forall o : Sync.SyncOptions,
    fold_left SyncCli.parseArg args o
    = {| Sync.only := Sync.only o ++ onlyOf args;
         Sync.dryRun := Sync.dryRun o || includes args "--dry-run" |}.
Proof.
  induction args as [|arg args IH]; intros o.
  - destruct o. cbn. by rewrite orb_false_r, app_nil_r.
  - cbn [fold_left]. rewrite IH. rewrite includes_cons. unfold SyncCli.parseArg.
    destruct (String.eqb_spec arg "--dry-run") as [->|Hdry].
    { cbn [Sync.only Sync.dryRun orb].
      change (List.filter isOnly ("--dry-run" :: args)) with (List.filter isOnly args).
      f_equal. by rewrite orb_true_r. }
    cbn [orb List.filter]. fold (isOnly arg). destruct (isOnly arg).
    + cbn [Sync.only Sync.dryRun map concat]. f_equal. by rewrite app_assoc.
    + done.
Qed.

Lemma limeplayCli_fold (args : list string) :
  forall (only : option (list string)) (dryRun : bool),
    fold_left LimeplayCli.parseArg args (only, dryRun)
    = (match last (List.filter isOnly args) with
       | Some arg => Some (onlyNames arg)
       | None => only
       end,
       dryRun || includes args "--dry-run").
Proof.
  induction args as [|arg args IH]; intros only dryRun.
  - cbn. by rewrite orb_false_r.
  - cbn [fold_left LimeplayCli.parseArg]. rewrite IH. rewrite includes_cons.
    cbn [List.filter]. fold (isOnly arg).
    destruct (String.eqb_spec arg "--dry-run") as [->|Hdry].
    { change (isOnly "--dry-run") with false. cbn [orb]. by rewrite orb_true_r. }
    cbn [orb]. destruct (isOnly arg); [|done].
    rewrite last_cons. by destruct (last (List.filter isOnly args)).
Qed.

Lemma onlyOf_clean (args : list string) : Forall clean (onlyOf args).
Proof.
  induction args as [|arg args IH]; [constructor|].
  cbn [List.filter]. destruct (isOnly arg); [|done].
  cbn [map concat]. apply Forall_app. split; [apply onlyNames_clean|done].
Qed.

Lemma parseArgs_folded (args : list string) :
  SyncRegistry.parseArgs args
  = {| SyncRegistry.registry := last (List.filter positional args);
       SyncRegistry.dryRun := includes args "--dry-run";
       SyncRegistry.only := onlyOf args;
       SyncRegistry.help := includes args "--help" || includes args "-h" |}
  /\ SyncCli.parseArgs args
     = {| Sync.only := onlyOf args; Sync.dryRun := includes args "--dry-run" |}
  /\ LimeplayCli.parseArgs args
     = (onlyNames <$> last (List.filter isOnly args), includes args "--dry-run").
Proof.
  split; [|split].
  - unfold SyncRegistry.parseArgs. rewrite syncRegistry_fold.
    cbn [SyncRegistry.registry SyncRegistry.dryRun SyncRegistry.only SyncRegistry.help
         orb app].
    f_equal. by destruct (last _).
  - unfold SyncCli.parseArgs. by rewrite syncCli_fold.
  - unfold LimeplayCli.parseArgs. rewrite limeplayCli_fold. cbn [orb].
    by destruct (last _).
Qed.

(** X5.  What the parsers make of a command line.  The parser of
    scripts/sync-registry.ts takes the last argument that does not start
    with a hyphen as the registry and collects the names of every [--only=]
    argument; so does the parser of the shared-library sync script, which
    has no registry argument; the parser of the limeplay and aceternity
    scripts keeps the names of the last [--only=] argument alone, and
    [null] when there is none.  In all three [dryRun] tells whether
    [--dry-run] is among the arguments. *)
Theorem parseArgs_spec (args : list string) :
  SyncRegistry.parseArgs args
  = {| SyncRegistry.registry := last (List.filter positional args);
       SyncRegistry.dryRun := includes args "--dry-run";
       SyncRegistry.only := onlyOf args;
       SyncRegistry.help := includes args "--help" || includes args "-h" |}
  /\ SyncCli.parseArgs args
     = {| Sync.only := onlyOf args; Sync.dryRun := includes args "--dry-run" |}
  /\ LimeplayCli.parseArgs args
     = (onlyNames <$> last (List.filter isOnly args), includes args "--dry-run").
Proof. apply parseArgs_folded. Qed.

(** X6.  The options reach the sync script as they were given.  The command
    line that scripts/sync-registry.ts builds for the sync script of a
    registry, [--dry-run] when it was given and one [--only=] argument with
    the names joined by commas when there are names, is parsed by the
    shared-library sync script into the options it would have read from the
    original command line.  The limeplay and aceternity scripts read from
    it every name given, also those of an earlier [--only=] argument, which
    they would have dropped had they been given the original command
    line. *)
Theorem only_flag_round_trip (args : list string) :
  let a := SyncRegistry.parseArgs args in
  SyncCli.parseArgs (SyncRegistry.flags a) = SyncCli.parseArgs args
  /\ SyncCli.parseArgs args
     = {| Sync.only := SyncRegistry.only a; Sync.dryRun := SyncRegistry.dryRun a |}
  /\ LimeplayCli.parseArgs (SyncRegistry.flags a)
     = (match SyncRegistry.only a with [] => None | l => Some l end,
        SyncRegistry.dryRun a)
  /\ LimeplayCli.parseArgs args
     = (onlyNames <$> last (List.filter isOnly args), SyncRegistry.dryRun a).
Proof.
  destruct (parseArgs_folded args) as (Hwrapper & Hdirect & Hown).
  cbv zeta. rewrite Hdirect, Hwrapper, Hown.
  apply and_assoc. apply and_assoc. split; [|done]. apply and_assoc.
  cbn [SyncRegistry.only SyncRegistry.dryRun].
  pose proof (onlyOf_clean args) as Hclean.
  unfold SyncCli.parseArgs, LimeplayCli.parseArgs, SyncRegistry.flags.
  rewrite syncCli_fold, limeplayCli_fold.
  cbn [Sync.only Sync.dryRun SyncRegistry.only SyncRegistry.dryRun orb app].
  split; [|split; [done|]].
  - destruct (includes args "--dry-run"), (onlyOf args) as [|n l] eqn:Hl; try done.
    + cbn [length Nat.ltb Nat.leb app List.filter].
      change (isOnly "--dry-run") with false.
      fold (isOnly ("--only=" +:+ join "," (n :: l))).
      replace (isOnly ("--only=" +:+ join "," (n :: l))) with true
        by (symmetry; apply prefix_append).
      cbn [map concat]. rewrite app_nil_r, onlyNames_flag by done. done.
    + cbn [length Nat.ltb Nat.leb app List.filter].
      fold (isOnly ("--only=" +:+ join "," (n :: l))).
      replace (isOnly ("--only=" +:+ join "," (n :: l))) with true
        by (symmetry; apply prefix_append).
      cbn [map concat]. rewrite app_nil_r, onlyNames_flag by done. done.
  - destruct (includes args "--dry-run"), (onlyOf args) as [|n l] eqn:Hl; try done.
    + cbn [length Nat.ltb Nat.leb app List.filter].
      change (isOnly "--dry-run") with false.
      fold (isOnly ("--only=" +:+ join "," (n :: l))).
      replace (isOnly ("--only=" +:+ join "," (n :: l))) with true
        by (symmetry; apply prefix_append).
      cbn [last]. rewrite onlyNames_flag by done. done.
    + cbn [length Nat.ltb Nat.leb app List.filter].
      fold (isOnly ("--only=" +:+ join "," (n :: l))).
      replace (isOnly ("--only=" +:+ join "," (n :: l))) with true
        by (symmetry; apply prefix_append).
      cbn [last]. rewrite onlyNames_flag by done. done.
Qed.

End ParseFacts.

Lemma only_flag_round_trip_witness :
  let args := ["limeplay"; "--only= a, b"; "--dry-run"; "--only=c"] in
  let a := SyncRegistry.parseArgs args in
  SyncRegistry.flags a = ["--dry-run"; "--only=a,b,c"]
  /\ SyncCli.parseArgs (SyncRegistry.flags a)
     = {| Sync.only := ["a"; "b"; "c"]; Sync.dryRun := true |}
  /\ SyncCli.parseArgs args = {| Sync.only := ["a"; "b"; "c"]; Sync.dryRun := true |}
  /\ LimeplayCli.parseArgs (SyncRegistry.flags a) = (Some ["a"; "b"; "c"], true)
  /\ LimeplayCli.parseArgs args = (Some ["c"], true).
Proof.
  intros args a.
  destruct (only_flag_round_trip args) as (Hround & Hdirect & Hlime & Hown).
  split; [reflexivity|]. split; [exact (eq_trans Hround Hdirect)|].
  split; [exact Hdirect|]. split; [exact Hlime|exact Hown].
Defined.

(** ** scripts/sync-registry.ts: [main] *)

Section SyncRegistryFacts.
Import SyncRegistry.
Variable REGISTRIES_DIR : string.
Variable entries : response (list Utils.Dirent).
Variable pathExists : string -> bool.
Variable exited : list string -> Z.

Lemma getRegistryNames_spec (es : list Utils.Dirent) (r : string) :
  r ∈ Utils.getRegistryNames es <->
  {| Utils.name := r; Utils.isDirectory := true |} ∈ es
  /\ Text.startsWith r "_" = false /\ Text.startsWith r "." = false.
Proof.
  unfold Utils.getRegistryNames, Utils.listDirectories.
  rewrite elem_of_List_filter, list_elem_of_fmap, andb_true_iff, !negb_true_iff.
  split.
  - intros [(d & -> & Hd) Hvis]. apply elem_of_List_filter in Hd as [Hd Hdir].
    split; [|done]. destruct d as [n dir]. cbn in *. by subst dir.
  - intros [Hd Hvis]. split; [|done]. eexists. split; [|by apply elem_of_List_filter].
    reflexivity.
Qed.

(** X7.  [main] of scripts/sync-registry.ts starts a sync script only for a
    registry that the command line names and [getRegistryNames] lists, a
    directory of the registries directory whose name starts with neither an
    underscore nor a dot, and only when its sync script exists; the command
    is [bun run <script>] with the flags passed on, and the exit status is
    that of the script.  Asked for help it exits with status 0 and starts
    nothing; in every other case it starts nothing and exits with status
    1. *)
Theorem sync_registry_spawns_listed (args : list string) :
  let run := main REGISTRIES_DIR entries pathExists exited args in
  let a := parseArgs args in
  (forall command, spawned run = Some command ->
     help a = false
     /\ exists es r,
          entries = Ok es
          /\ registry a = Some r
          /\ {| Utils.name := r; Utils.isDirectory := true |} ∈ es
          /\ Text.startsWith r "_" = false
          /\ Text.startsWith r "." = false
          /\ pathExists (syncPath REGISTRIES_DIR r) = true
          /\ command = ["bun"; "run"; syncPath REGISTRIES_DIR r] ++ flags a
          /\ status run = exited command)
  /\ (spawned run = None -> status run = if help a then 0 else 1)
  /\ (forall es r,
        help a = false -> entries = Ok es -> registry a = Some r -> r <> "" ->
        r ∈ Utils.getRegistryNames es ->
        pathExists (syncPath REGISTRIES_DIR r) = true ->
        run = {| status := exited (["bun"; "run"; syncPath REGISTRIES_DIR r] ++ flags a);
                 spawned := Some (["bun"; "run"; syncPath REGISTRIES_DIR r] ++ flags a) |}).
Proof.
  intros run a. subst run. unfold main. fold a.
  split; [|split].
  - intros command. destruct (help a); [done|].
    destruct entries as [es|err]; [|done].
    destruct (registry a) as [r|]; [|done].
    destruct (String.eqb r ""); [done|].
    destruct (includes (Utils.getRegistryNames es) r) eqn:Hlisted; [|done].
    destruct (pathExists (syncPath REGISTRIES_DIR r)) eqn:Hexists; [|done].
    cbn [negb spawned status]. intros [= <-]. split; [done|].
    apply includes_spec, getRegistryNames_spec in Hlisted as (Hdir & Hu & Hd).
    by exists es, r.
  - destruct (help a); [done|].
    destruct entries as [es|err]; [|done].
    destruct (registry a) as [r|]; [|done].
    destruct (String.eqb r ""); [done|].
    destruct (includes (Utils.getRegistryNames es) r); [|done].
    by destruct (pathExists (syncPath REGISTRIES_DIR r)).
  - intros es r -> -> -> Hne Hlisted ->.
    apply String.eqb_neq in Hne as ->.
    apply includes_spec in Hlisted as ->. reflexivity.
Qed.

End SyncRegistryFacts.

(** The registries directory of the repository, and a request for the
    template directory, which is not listed. *)
Lemma sync_registry_spawns_listed_witness :
  let es :=
    Ok [ {| Utils.name := "_template"; Utils.isDirectory := true |};
         {| Utils.name := "limeplay"; Utils.isDirectory := true |};
         {| Utils.name := "README.md"; Utils.isDirectory := false |} ] in
  let exited := fun _ : list string => 3 in
  SyncRegistry.main "registries" es (fun _ => true) exited
    ["limeplay"; "--only=a, b"; "--dry-run"]
  = {| SyncRegistry.status := 3;
       SyncRegistry.spawned :=
         Some ["bun"; "run"; "registries/limeplay/scripts/sync.ts"; "--dry-run";
               "--only=a,b"] |}
  /\ SyncRegistry.main "registries" es (fun _ => true) exited ["_template"]
     = {| SyncRegistry.status := 1; SyncRegistry.spawned := None |}
  /\ SyncRegistry.main "registries" es (fun _ => true) exited ["limeplay"; "-h"]
     = {| SyncRegistry.status := 0; SyncRegistry.spawned := None |}.
Proof.
  intros es exited.
  destruct (sync_registry_spawns_listed "registries" es (fun _ => true) exited
              ["limeplay"; "--only=a, b"; "--dry-run"]) as (_ & _ & Hrun).
  split; [|split; reflexivity].
  apply (Hrun [ {| Utils.name := "_template"; Utils.isDirectory := true |};
                {| Utils.name := "limeplay"; Utils.isDirectory := true |};
                {| Utils.name := "README.md"; Utils.isDirectory := false |} ]
           "limeplay"); try reflexivity; [done|].
  apply getRegistryNames_spec. split; [|done].
  apply list_elem_of_further, list_elem_of_here.
Defined.

(** ** The retry loops, when the upstream recovers *)

Section RecoverFacts.
Context {T : Type}.
Variable http : nat -> string -> response T.
Variable url : string.
Variable retries : nat.

Lemma shared_retryLoop_recovers (baseDelay : Z) (body : T) (k : nat) :
  forall (errs : nat -> string) (a rem : nat) (last : option string) (w : World),
    (a + k <= retries)%nat -> (k < rem)%nat ->
    (forall j, (j < k)%nat -> http (requests w + j)%nat url = Failed (errs j)) ->
    http (requests w + k)%nat url = Ok body ->
    Fetch.retryLoop http url retries baseDelay rem a last w =
      (Ok body,
       {| requests := (requests w + S k)%nat;
          files := files w;
          dirs := dirs w;
          trace := trace w
                   ++ EFetch url
                      :: flat_map (Fetch.stepEvents url baseDelay) (seq (S a) k) |}).
Proof.
  induction k as [|k IH]; intros errs a rem last w Ha Hrem Hfail Hok;
    (destruct rem as [|rem]; [lia|]); cbn [Fetch.retryLoop].
  - rewrite Nat.add_0_r in Hok. rewrite Hok. unfold issue. do 2 f_equal. lia.
  - pose proof (Hfail 0%nat ltac:(lia)) as H0. rewrite Nat.add_0_r in H0. rewrite H0.
    assert ((a <? retries)%nat = true) as -> by (apply Nat.ltb_lt; lia).
    rewrite (IH (fun j => errs (S j))).
    + cbn [requests files dirs trace sleep issue seq flat_map Fetch.stepEvents].
      f_equal. f_equal; [lia|]. rewrite <- !app_assoc. reflexivity.
    + lia.
    + lia.
    + intros j Hj. cbn [requests sleep issue].
      replace (S (requests w) + j)%nat with (requests w + S j)%nat by lia.
      apply Hfail. lia.
    + cbn [requests sleep issue].
      replace (S (requests w) + k)%nat with (requests w + S k)%nat by lia. exact Hok.
Qed.

Lemma limeplay_retryLoop_recovers (body : T) (k : nat) :
  forall (errs : nat -> string) (i rem : nat) (last : option string) (w : World),
    (i + k <= retries)%nat -> (k < rem)%nat ->
    (forall j, (j < k)%nat -> http (requests w + j)%nat url = Failed (errs j)) ->
    http (requests w + k)%nat url = Ok body ->
    Limeplay.retryLoop http url retries rem i last w =
      (Ok body,
       {| requests := (requests w + S k)%nat;
          files := files w;
          dirs := dirs w;
          trace := trace w
                   ++ EFetch url :: flat_map (Limeplay.stepEvents url) (seq (S i) k) |}).
Proof.
  induction k as [|k IH]; intros errs i rem last w Hi Hrem Hfail Hok;
    (destruct rem as [|rem]; [lia|]); cbn [Limeplay.retryLoop].
  - rewrite Nat.add_0_r in Hok. rewrite Hok. unfold issue. do 2 f_equal. lia.
  - pose proof (Hfail 0%nat ltac:(lia)) as H0. rewrite Nat.add_0_r in H0. rewrite H0.
    assert ((i <? retries)%nat = true) as -> by (apply Nat.ltb_lt; lia).
    rewrite (IH (fun j => errs (S j))).
    + cbn [requests files dirs trace sleep issue seq flat_map Limeplay.stepEvents].
      f_equal. f_equal; [lia|]. rewrite <- !app_assoc. cbn [app].
      unfold Limeplay.stepEvents at 2. cbn [app].
      replace (Z.of_nat (S i)) with (Z.of_nat i + 1) by lia. reflexivity.
    + lia.
    + lia.
    + intros j Hj. cbn [requests sleep issue].
      replace (S (requests w) + j)%nat with (requests w + S j)%nat by lia.
      apply Hfail. lia.
    + cbn [requests sleep issue].
      replace (S (requests w) + k)%nat with (requests w + S k)%nat by lia. exact Hok.
Qed.

End RecoverFacts.

(** X8.  A retrying fetch stops at the first attempt that succeeds.  When the
    first [k] attempts fail and attempt [k], one of the [retries + 1], is
    answered, [fetchWithRetry] returns that answer after [k + 1] requests
    and asks nothing more; before attempt [j >= 1] the function of
    shared/fetch.ts has slept [baseDelay * 2^(j-1)] ms, the function of the
    limeplay and aceternity scripts [RETRY_DELAY * j] ms.  No file is
    touched. *)
Theorem fetchWithRetry_recovers (T : Type) (http : nat -> string -> response T)
    (url : string) (retries k : nat) (errs : nat -> string) (body : T) (w : World) :
  (k <= retries)%nat ->
  (forall j, (j < k)%nat -> http (requests w + j)%nat url = Failed (errs j)) ->
  http (requests w + k)%nat url = Ok body ->
  (forall baseDelay : Z,
     let run := Fetch.fetchWithRetry http url retries baseDelay w in
     let evs := Fetch.exponentialSchedule url k baseDelay in
     fst run = Ok body
     /\ trace (snd run) = trace w ++ evs
     /\ attempts evs = S k
     /\ sleeps evs = map (fun j => baseDelay * 2 ^ (Z.of_nat j - 1)) (seq 1 k)
     /\ requests (snd run) = (requests w + S k)%nat
     /\ files (snd run) = files w
     /\ dirs (snd run) = dirs w)
  /\ (let run := Limeplay.fetchWithRetry http url retries w in
      let evs := Limeplay.linearSchedule url k in
      fst run = Ok body
      /\ trace (snd run) = trace w ++ evs
      /\ attempts evs = S k
      /\ sleeps evs = map (fun j => Limeplay.RETRY_DELAY * Z.of_nat j) (seq 1 k)
      /\ requests (snd run) = (requests w + S k)%nat
      /\ files (snd run) = files w
      /\ dirs (snd run) = dirs w).
Proof.
  intros Hk Hfail Hok. split.
  - intros baseDelay run evs. subst run evs. unfold Fetch.fetchWithRetry.
    rewrite (shared_retryLoop_recovers http url retries baseDelay body k errs)
      by (done || lia).
    cbn [fst snd trace requests files dirs].
    change (Fetch.exponentialSchedule url k baseDelay)
      with (EFetch url :: flat_map (Fetch.stepEvents url baseDelay) (seq 1 k)).
    repeat split.
    + change (EFetch url :: ?l) with (Fetch.stepEvents url baseDelay 0%nat ++ l).
      change (Fetch.stepEvents url baseDelay 0%nat
              ++ flat_map (Fetch.stepEvents url baseDelay) (seq 1 k))
        with (flat_map (Fetch.stepEvents url baseDelay) (seq 0 (S k))).
      rewrite attempts_steps. by rewrite length_seq.
    + change (sleeps (EFetch url :: ?l)) with (sleeps l).
      apply sleeps_steps. apply Forall_forall. intros j Hj.
      apply elem_of_seq in Hj. lia.
  - intros run evs. subst run evs. unfold Limeplay.fetchWithRetry.
    rewrite (limeplay_retryLoop_recovers http url retries body k errs)
      by (done || lia).
    cbn [fst snd trace requests files dirs].
    change (Limeplay.linearSchedule url k)
      with (EFetch url :: flat_map (Limeplay.stepEvents url) (seq 1 k)).
    repeat split.
    + change (EFetch url :: ?l) with (Limeplay.stepEvents url 0%nat ++ l).
      change (Limeplay.stepEvents url 0%nat
              ++ flat_map (Limeplay.stepEvents url) (seq 1 k))
        with (flat_map (Limeplay.stepEvents url) (seq 0 (S k))).
      rewrite limeplay_attempts_steps. by rewrite length_seq.
    + change (sleeps (EFetch url :: ?l)) with (sleeps l).
      apply limeplay_sleeps_steps. apply Forall_forall. intros j Hj.
      apply elem_of_seq in Hj. lia.
Qed.

(** An upstream that answers the third request. *)
Lemma fetchWithRetry_recovers_witness :
  let http := fun (n : nat) (_ : string) =>
    if (n <? 2)%nat then Failed "HTTP 503: Service Unavailable" else Ok (JStr "index") in
  let url := "https://example.com/registry.json" in
  let shared := Fetch.fetchWithRetry http url 3 1000 emptyWorld in
  let own := Limeplay.fetchWithRetry http url 3 emptyWorld in
  fst shared = Ok (JStr "index")
  /\ trace (snd shared) = [EFetch url; ESleep 1000; EFetch url; ESleep 2000; EFetch url]
  /\ fst own = Ok (JStr "index")
  /\ trace (snd own) = [EFetch url; ESleep 1000; EFetch url; ESleep 2000; EFetch url]
  /\ requests (snd own) = 3%nat.
Proof.
  intros http url shared own.
  destruct (fetchWithRetry_recovers json http url 3 2
              (fun _ => "HTTP 503: Service Unavailable") (JStr "index") emptyWorld)
    as (Hshared & Hown).
  - lia.
  - intros j Hj. cbn [requests emptyWorld Nat.add]. subst http. cbn beta.
    by replace (j <? 2)%nat with true by (symmetry; apply Nat.ltb_lt; lia).
  - reflexivity.
  - destruct (Hshared 1000) as (Hs1 & Hs2 & _).
    destruct Hown as (Ho1 & Ho2 & _ & _ & Ho3 & _).
    split; [exact Hs1|]. split; [exact Hs2|]. split; [exact Ho1|].
    split; [exact Ho2|exact Ho3].
Defined.

(** ** The pipelines as a whole: a run without an index, and the books of a run *)

Section RunFacts.
Variable config : Config.RegistryConfig.
Variable OUTPUT_DIR : string.
Variable httpIndex : nat -> string -> response Entry.RegistryIndex.
Variable httpItem : nat -> string -> response json.
Variable timestamp : string.
Variables startTime endTime : Z.
Variable exnMessage : js_exn -> string.
Variable sched : nat -> nat.

Local Abbreviation sync :=
  (Sync.sync config OUTPUT_DIR httpIndex httpItem timestamp startTime endTime exnMessage).
Local Abbreviation script :=
  (SyncCli.main config OUTPUT_DIR httpIndex httpItem timestamp startTime endTime
     exnMessage).
Local Abbreviation limeplay :=
  (Limeplay.main config OUTPUT_DIR httpIndex httpItem timestamp sched).
Local Abbreviation syncItems := (Sync.syncItems config OUTPUT_DIR httpItem exnMessage).
Local Abbreviation names := (map Entry.name).
Local Abbreviation url := (Config.indexUrl (Config.source config)).

(** X9.  When the index cannot be fetched the run ends there.  [sync] rejects
    with the error of the fourth and last attempt, after sleeps of 1000,
    2000 and 4000 ms, and the script around it exits with status 1; the
    limeplay script exits with status 1 after sleeps of 1000, 2000 and 3000
    ms.  Nothing but the index is requested, and no file or directory is
    touched. *)
Theorem index_unavailable_stops_run (errs : nat -> string) (w : World) :
  (forall k, (k <= 3)%nat -> httpIndex (requests w + k)%nat url = Failed (errs k)) ->
  (forall opts : Sync.SyncOptions,
     fst (sync opts w) = Rejected (errs 3%nat)
     /\ trace (snd (sync opts w)) = trace w ++ Fetch.exponentialSchedule url 3 1000
     /\ files (snd (sync opts w)) = files w
     /\ dirs (snd (sync opts w)) = dirs w)
  /\ (forall args : list string,
        fst (script args w) = 1
        /\ snd (script args w) = snd (sync (SyncCli.parseArgs args) w))
  /\ (forall (only : option (list string)) (dryRun : bool),
        fst (limeplay only dryRun w) = 1
        /\ trace (snd (limeplay only dryRun w)) = trace w ++ Limeplay.linearSchedule url 3
        /\ files (snd (limeplay only dryRun w)) = files w
        /\ dirs (snd (limeplay only dryRun w)) = dirs w)
  /\ sleeps (Fetch.exponentialSchedule url 3 1000) = [1000; 2000; 4000]
  /\ sleeps (Limeplay.linearSchedule url 3) = [1000; 2000; 3000]
  /\ fetched (Fetch.exponentialSchedule url 3 1000) = [url; url; url; url]
  /\ fetched (Limeplay.linearSchedule url 3) = [url; url; url; url].
Proof.
  intros Hfail.
  pose proof (shared_fetchWithRetry_exhausts httpIndex url 3 1000 errs w Hfail)
    as (Herr & Htrace & _ & _ & _ & _ & Hfiles & Hdirs).
  pose proof (limeplay_fetchWithRetry_exhausts httpIndex url 3 errs w Hfail)
    as (Herr' & Htrace' & _ & _ & _ & _ & Hfiles' & Hdirs').
  cbv zeta in *.
  assert (forall opts : Sync.SyncOptions,
     fst (sync opts w) = Rejected (errs 3%nat)
     /\ trace (snd (sync opts w)) = trace w ++ Fetch.exponentialSchedule url 3 1000
     /\ files (snd (sync opts w)) = files w
     /\ dirs (snd (sync opts w)) = dirs w) as Hsync.
  { intros opts. unfold Sync.sync, Sync.fetchRegistryIndex.
    change Fetch.DEFAULT_retryCount with 3%nat.
    change Fetch.DEFAULT_retryDelay with 1000.
    destruct (Fetch.fetchWithRetry httpIndex url 3 1000 w) as [[data|err] w1];
      cbn [fst snd] in *; [discriminate|].
    by injection Herr as ->. }
  split; [exact Hsync|]. split; [|split; [|by repeat split]].
  - intros args. unfold SyncCli.main.
    destruct (Hsync (SyncCli.parseArgs args)) as (Hrej & _).
    destruct (sync (SyncCli.parseArgs args) w) as [[res|err] w1];
      cbn [fst snd] in *; [discriminate|done].
  - intros only dryRun. unfold Limeplay.main, Limeplay.fetchRegistryIndex.
    change Limeplay.RETRY_COUNT with 3%nat.
    destruct (Limeplay.fetchWithRetry httpIndex url 3 w) as [[data|err] w1];
      cbn [fst snd] in *; [discriminate|done].
Qed.



End RunFacts.

(** ** The validator: what it lets through *)

Section ValidatorShape.
Import Validate.

Lemma checkFiles_shape (files : list json) :
  forall i, checkFiles i files = Returned None <-> Forall fileShape files.
Proof.
  induction files as [|file files IH]; intros i; [by split; constructor|].
  cbn [checkFiles]. rewrite Forall_cons. rewrite <- (IH (S i)). clear IH.
  destruct file as [| | | | |fs]; cbn [getProp obind truthy is_string negb orb];
    try (split; [discriminate|intros [(fs' & p & t & Hf & _) _]; discriminate]).
  destruct (assoc "path" fs) as [[| | |p| |]|] eqn:Hp;
    cbn [truthy is_string negb orb]; rewrite ?orb_true_r;
    try (split; [discriminate
                |intros [(fs' & p' & t' & [= <-] & Hp' & _) _]; congruence]).
  destruct (String.eqb_spec p "") as [->|Hpne]; cbn [negb orb].
  { split; [discriminate|].
    intros [(fs' & p' & t' & [= <-] & Hp' & Hne & _) _]. congruence. }
  destruct (assoc "type" fs) as [[| | |t| |]|] eqn:Ht;
    cbn [truthy is_string negb orb]; rewrite ?orb_true_r;
    try (split; [discriminate
                |intros [(fs' & p' & t' & [= <-] & _ & _ & Ht' & _) _]; congruence]).
  destruct (String.eqb_spec t "") as [->|Htne]; cbn [negb orb].
  { split; [discriminate|].
    intros [(fs' & p' & t' & [= <-] & _ & _ & Ht' & Hne) _]. congruence. }
  split; [|by intros [_ H]]. intros H. split; [|done]. by exists fs, p, t.
Qed.

Lemma everyString_shape (xs : list json) :
  everyString xs = true <-> Forall (fun d => exists s, d = JStr s) xs.
Proof.
  unfold everyString. induction xs as [|x xs IH]; [by split; constructor|].
  cbn [forallb]. rewrite andb_true_iff, Forall_cons, IH.
  split; intros [Hx Hxs]; (split; [|done]).
  - destruct x; try discriminate. by eexists.
  - by destruct Hx as [s ->].
Qed.

Lemma checkStringArray_shape (label : string) (v : option json) :
  checkStringArray label v = None <-> stringArrayShape v.
Proof.
  destruct v as [[| | | |xs|]|]; cbn; try (split; [discriminate|done]); [|done].
  rewrite <- everyString_shape. by destruct (everyString xs).
Qed.

(** X11.  What the validator lets through.  An item passes exactly when it is an
    object with a name that is a non-empty string, one of the nine known
    types, a [files] field that is absent or an array of objects with
    non-empty string [path] and [type], and dependency lists that are absent
    or arrays of strings, provided the [$schema] check does not throw, which
    it cannot when [$schema] is absent or a string.  Other fields are not
    looked at.  A result either is valid and carries no error, or is
    invalid and carries an error and no warnings. *)
Theorem validateRegistryItem_accepts_shape (item : json) :
  (passes item = true <->
   itemShape item /\ exists ws, schemaWarnings item = Returned ws)
  /\ (forall r, validateRegistryItem item = Returned r ->
        if valid r then error r = None
        else warnings r = None /\ exists msg, error r = Some msg)
  /\ (match field item "$schema" with
      | None | Some (JStr _) => exists ws, schemaWarnings item = Returned ws
      | Some _ => True
      end).
Proof.
  split; [|split].
  - unfold passes, validateRegistryItem.
    destruct item as [|b|z|s|xs|fs]; cbn [truthy typeof_object negb orb invalid valid];
      rewrite ?orb_true_r; cbn [valid];
      try (split; [discriminate|intros [(fs' & n & ty & Hf & _) _]; discriminate]).
    destruct (schemaWarnings (JObj fs)) as [ws|e]; cbn [obind];
      [|split; [discriminate|by intros [_ [ws' ?]]]].
    cbn [field].
    destruct (assoc "name" fs) as [[| | |n| |]|] eqn:Hn;
      cbn [truthy is_string negb orb valid]; rewrite ?orb_true_r; cbn [valid];
      try (split; [discriminate
                  |intros [(fs' & n' & ty' & [= <-] & Hn' & _) _]; congruence]).
    destruct (String.eqb_spec n "") as [->|Hnne]; cbn [negb orb valid].
    { split; [discriminate|].
      intros [(fs' & n' & ty' & [= <-] & Hn' & Hne & _) _]. congruence. }
    destruct (assoc "type" fs) as [[| | |ty| |]|] eqn:Hty;
      cbn [truthy is_string negb orb valid]; rewrite ?orb_true_r; cbn [valid];
      try (split; [discriminate
                  |intros [(fs' & n' & ty' & [= <-] & _ & _ & Hty' & _) _]; congruence]).
    destruct (String.eqb_spec ty "") as [->|Htyne]; cbn [negb orb valid].
    { split; [discriminate|].
      intros [(fs' & n' & ty' & [= <-] & _ & _ & Hty' & Hin & _) _].
      assert (ty' = "") as -> by congruence.
      apply includes_spec in Hin. discriminate. }
    destruct (includes VALID_ITEM_TYPES ty) eqn:Hin; cbn [negb valid].
    2:{ split; [discriminate|].
        intros [(fs' & n' & ty' & [= <-] & _ & _ & Hty' & Hin' & _) _].
        assert (ty' = ty) as -> by congruence.
        apply includes_spec in Hin'. congruence. }
    apply includes_spec in Hin.
    assert (forall P : Prop,
      (P <-> (match assoc "files" fs with
              | None => True
              | Some (JArr files) => Forall fileShape files
              | Some _ => False
              end
              /\ stringArrayShape (assoc "dependencies" fs)
              /\ stringArrayShape (assoc "registryDependencies" fs))) ->
      (P <-> itemShape (JObj fs) /\ exists ws', Returned ws = Returned ws')) as Hwrap.
    { intros P ->. split.
      - intros (Hfiles & Hdeps & Hreg). split; [|by eexists].
        by exists fs, n, ty.
      - intros [(fs' & n' & ty' & [= <-] & _ & _ & _ & _ & Hfiles & Hdeps & Hreg) _].
        done. }
    apply Hwrap. clear Hwrap.
    rewrite <- (checkStringArray_shape "dependencies" (assoc "dependencies" fs)),
      <- (checkStringArray_shape "registryDependencies"
            (assoc "registryDependencies" fs)).
    destruct (assoc "files" fs) as [[| | | |files|]|];
      cbn [obind valid];
      try (split; [discriminate|by intros [[] _]]).
    + pose proof (checkFiles_shape files 0) as Hfiles.
      destruct (checkFiles 0 files) as [[msg|]|e]; cbn [obind valid].
      * split; [discriminate|]. intros [H _]. by apply Hfiles in H.
      * destruct (checkStringArray "dependencies" _); cbn [valid];
          [split; [discriminate|by intros (_ & ? & _)]|].
        destruct (checkStringArray "registryDependencies" _); cbn [valid];
          [split; [discriminate|by intros (_ & _ & ?)]|].
        split; [|done]. intros _. split; [by apply Hfiles|done].
      * split; [discriminate|]. intros [H _]. by apply Hfiles in H.
    + destruct (checkStringArray "dependencies" _); cbn [valid];
        [split; [discriminate|by intros (_ & ? & _)]|].
      destruct (checkStringArray "registryDependencies" _); cbn [valid];
        [split; [discriminate|by intros (_ & _ & ?)]|].
      done.
  - intros r. unfold validateRegistryItem, invalid.
    destruct (negb (truthy (Some item)) || negb (typeof_object item));
      [intros [= <-]; cbn; eauto|].
    destruct (schemaWarnings item) as [ws|e]; cbn [obind]; [|discriminate].
    destruct (negb (truthy (field item "name")) || negb (is_string (field item "name")));
      [intros [= <-]; cbn; eauto|].
    destruct (negb (truthy (field item "type")) || negb (is_string (field item "type")));
      [intros [= <-]; cbn; eauto|].
    destruct (field item "type") as [[| | |ty| |]|];
      try (intros [= <-]; cbn; eauto).
    destruct (negb (includes VALID_ITEM_TYPES ty)); [intros [= <-]; cbn; eauto|].
    destruct (match field item "files" with
              | Some (JArr files) => checkFiles 0 files
              | Some _ => Returned (Some "files must be an array")
              | None => Returned None
              end) as [[msg|]|e]; cbn [obind];
      [intros [= <-]; cbn; eauto| |discriminate].
    destruct (checkStringArray "dependencies" _); [intros [= <-]; cbn; eauto|].
    destruct (checkStringArray "registryDependencies" _); intros [= <-]; cbn; eauto.
  - destruct item as [| | | | |fs]; cbn [field]; try by eexists.
    destruct (assoc "$schema" fs) as [[| | |s| |]|] eqn:Hs; try done.
    + unfold schemaWarnings. cbn [field]. rewrite Hs.
      cbn [truthy]. destruct (negb (s =? "")%string); cbn [negb]; [|by eexists].
      destruct (s =? REGISTRY_ITEM_SCHEMA)%string; by eexists.
    + unfold schemaWarnings. cbn [field]. rewrite Hs. by eexists.
Qed.

End ValidatorShape.

Lemma validateRegistryItem_accepts_shape_witness :
  let item :=
    JObj [ ("name", JStr "button"); ("type", JStr "registry:ui");
           ("files", JArr [JObj [("path", JStr "ui/button.tsx");
                                 ("type", JStr "registry:ui")]]);
           ("dependencies", JArr [JStr "clsx"]);
           ("author", JNum 7) ] in
  Validate.itemShape item
  /\ Validate.passes item = true
  /\ ~ Validate.itemShape (JObj [("name", JStr ""); ("type", JStr "registry:ui")]).
Proof.
  intros item.
  assert (Validate.itemShape item) as Hshape.
  { exists [ ("name", JStr "button"); ("type", JStr "registry:ui");
             ("files", JArr [JObj [("path", JStr "ui/button.tsx");
                                   ("type", JStr "registry:ui")]]);
             ("dependencies", JArr [JStr "clsx"]);
             ("author", JNum 7) ], "button", "registry:ui".
    split; [reflexivity|]. split; [reflexivity|]. split; [discriminate|].
    split; [reflexivity|]. split; [by apply includes_spec|].
    split; [|split; [|exact I]].
    - constructor; [|constructor].
      exists [("path", JStr "ui/button.tsx"); ("type", JStr "registry:ui")],
        "ui/button.tsx", "registry:ui".
      repeat split; discriminate.
    - constructor; [by eexists|constructor]. }
  split; [exact Hshape|]. split.
  - apply (proj1 (validateRegistryItem_accepts_shape item)).
    split; [exact Hshape|]. by eexists.
  - intros Hshape'.
    pose proof (proj2 (proj1 (validateRegistryItem_accepts_shape
                  (JObj [("name", JStr ""); ("type", JStr "registry:ui")])))
                  (conj Hshape' (ex_intro _ _ eq_refl))) as Hpass.
    discriminate.
Defined.

(** An upstream that is down: every request is answered with a 503. *)
Lemma index_unavailable_stops_run_witness :
  let down := fun (_ : nat) (_ : string) =>
    @Failed Entry.RegistryIndex "HTTP 503: Service Unavailable" in
  let run :=
    Sync.sync Demo.limeplayConfig "out" down (Demo.upstream []) Demo.timestamp 0 1500
      Demo.exnMessage Demo.normal emptyWorld in
  let own :=
    Limeplay.main Demo.limeplayConfig "out" down (Demo.upstream []) Demo.timestamp
      Demo.fifo None false emptyWorld in
  fst run = Rejected "HTTP 503: Service Unavailable"
  /\ sleeps (trace (snd run)) = [1000; 2000; 4000]
  /\ files (snd run) = ∅
  /\ fst (SyncCli.main Demo.limeplayConfig "out" down (Demo.upstream []) Demo.timestamp
            0 1500 Demo.exnMessage [] emptyWorld) = 1
  /\ fst own = 1
  /\ sleeps (trace (snd own)) = [1000; 2000; 3000]
  /\ files (snd own) = ∅.
Proof.
  intros down run own.
  destruct (index_unavailable_stops_run Demo.limeplayConfig "out" down (Demo.upstream [])
              Demo.timestamp 0 1500 Demo.exnMessage Demo.fifo
              (fun _ => "HTTP 503: Service Unavailable") emptyWorld)
    as (Hsync & Hscript & Hown & _); [reflexivity|].
  destruct (Hsync Demo.normal) as (Hrej & Htrace & Hfiles & _).
  destruct (Hown None false) as (Hexit & Htrace' & Hfiles' & _).
  split; [exact Hrej|]. subst run own. rewrite Htrace, Htrace'.
  split; [reflexivity|]. split; [exact Hfiles|].
  split; [exact (proj1 (Hscript []))|]. split; [exact Hexit|].
  split; [reflexivity|exact Hfiles'].
Defined.


(** ** The limeplay script: the order in which downloads finish *)

Section PoolFacts.
Variable config : Config.RegistryConfig.
Variable httpItem : nat -> string -> response json.



End PoolFacts.

